(** * The orange avoider module: trajectory planning and obstacle map

    A shallow embedding of [sw/airborne/modules/orange_avoider/orange_avoider.c]:
    the obstacle map fed by the detection callback, the outer and inner
    trajectories, the waypoint-arrival state machine of the periodic function
    and the hook-up of the trajectory optimizer.

    Conventions of the embedding.
    - C integers are [Z]; the [uint8_t] globals wrap through [to_u8] at every
      assignment, [int] arithmetic (comparisons, [n_obstacles-1], [size-1]) is
      plain [Z] arithmetic, as the integer promotions make it, and so is the
      arithmetic on the [int32_t] coordinates, whose overflow C leaves
      undefined.
    - C arrays are lists read with [arr_get] and written with [arr_set].
    - Floating-point values and operations are those of an instance of the
      class [CFloat]; the properties hold for every instance, and
      [IEEE.ops] instantiates it with the IEEE 754 operations of [SpecFloat].
    - The module-level globals are the fields of [State]; the pose provider
      and the waypoint table are read through [Env]; the calls to the
      navigation primitives are appended to [nav_log]. *)

From Stdlib Require Import ZArith Bool Lia.
From Stdlib Require Import Floats.SpecFloat.
From stdpp Require Import base numbers list list_numbers.

Local Open Scope Z_scope.

(** ** Integers and arrays *)

(** Conversion to [uint8_t]. *)
Definition to_u8 (v : Z) : Z := v mod 256.

(** [a[i]]: C leaves a read outside the array undefined; the model reads the
    default [d] there. *)
Definition arr_get {A : Type} (d : A) (a : list A) (i : Z) : A :=
  if 0 <=? i then default d (a !! Z.to_nat i) else d.

(** [a[i] = v]: C leaves a write outside the array undefined; the model
    leaves the array as it is there. *)
Definition arr_set {A : Type} (a : list A) (i : Z) (v : A) : list A :=
  if 0 <=? i then <[Z.to_nat i := v]> a else a.

(** The values [0, 1, ..., n-1] taken by [i] in [for (int i = 0; i < n; i++)]. *)
Definition loop_range (n : Z) : list Z := seqZ 0 n.

(** ** Floating point *)

(** The C floating-point operations the module uses, on one carrier for the
    values of [float] and of [double]: an operation is the C operation at
    the type its operands have in the source, and [to_float] is the
    conversion that stores a [double] in a [float]. The fixed-point macros
    [POS_BFP_OF_REAL] and [POS_FLOAT_OF_BFP] and the macro [RadOfDeg] are
    defined outside the module and are operations of the class as well. *)
Class CFloat (fl : Type) : Type := {
  f_of_int : Z -> fl;            (* an integer literal or an int operand *)
  f_half : fl;                   (* the literal 0.5 *)
  fadd : fl -> fl -> fl;
  fsub : fl -> fl -> fl;
  fmul : fl -> fl -> fl;
  fdiv : fl -> fl -> fl;
  fsqrt : fl -> fl;
  fpow2 : fl -> fl;              (* pow(x, 2) *)
  fsin : fl -> fl;
  fcos : fl -> fl;
  to_float : fl -> fl;           (* conversion of a double to float *)
  feqb : fl -> fl -> bool;       (* == *)
  fltb : fl -> fl -> bool;       (* < *)
  fgeb : fl -> fl -> bool;       (* >= *)
  RadOfDeg : fl -> fl;           (* x * (M_PI/180.) *)
  POS_BFP_OF_REAL : fl -> Z;     (* real position to fixed point, stored in an int32 *)
  POS_FLOAT_OF_BFP : Z -> fl;    (* fixed-point position to float *)
}.

(** ** Data *)

(** Modelled from the spec: [struct EnuCoor_i] is declared outside the
    module; a position is a 2D coordinate (x, y) of the world frame, in fixed
    point, and the module reads and writes these two coordinates only. *)
Record EnuCoor_i : Set := { x : Z; y : Z }.

(** Modelled from the spec: [struct Obstacle] of [orange_avoider.h], a
    position; the module reads and writes [loc.x] and [loc.y]. *)
Record Obstacle : Set := { loc : EnuCoor_i }.

(** Modelled from the spec: [struct TrajectoryList] of [orange_avoider.h],
    one inner trajectory segment: [INNER_TRAJECTORY_SPACE] slots and the
    active length [size]. *)
Record TrajectoryList : Set := {
  inner_trajectory : list EnuCoor_i;
  size : Z;
}.

(** Modelled from the spec: [struct OptimizedTrajectory] of
    [trajectory_optimizer.h], the candidate trajectory buffer that the
    optimizer returns. *)
Record OptimizedTrajectory : Set := { buf : list EnuCoor_i }.

Definition zero_coor : EnuCoor_i := {| x := 0; y := 0 |}.
Definition zero_obstacle : Obstacle := {| loc := zero_coor |}.
Definition zero_segment : TrajectoryList := {| inner_trajectory := []; size := 0 |}.

(** Modelled from the spec: the navigation primitives are outside the module
    and return nothing to it; a call of the waypoint-move primitive
    [waypoint_move_xy_i] or of the heading-follow primitive
    [NavGotoWaypointHeading] is recorded with its arguments. *)
Inductive NavCall : Set :=
| waypoint_move_xy_i (waypoint : Z) (new_x new_y : Z)
| NavGotoWaypointHeading (waypoint : Z).

(** What the module takes from outside, as parameters: the constants of
    [orange_avoider.h], the waypoint identifiers of the generated flight
    plan, and [optimize_trajectory] of [trajectory_optimizer.h]. The
    optimizer is the opaque function of the specification: from the obstacle
    map, the seed trajectory, the size behind its [size] pointer and the
    obstacle count to a new trajectory buffer and the size it stores through
    the pointer. *)
Class Config : Type := {
  OUTER_TRAJECTORY_LENGTH : Z;
  INNER_TRAJECTORY_LENGTH : Z;
  INNER_TRAJECTORY_SPACE : Z;
  MAX_OBSTACLES_IN_MAP : Z;
  WP_OUTER : Z;
  WP_INNER : Z;
  optimize_trajectory :
    list Obstacle -> list EnuCoor_i -> Z -> Z -> OptimizedTrajectory * Z;
}.

Section Program.
Context {fl : Type} {F : CFloat fl} {C : Config}.

(** Modelled from the spec: the declaration of the observations that
    [struct ObstacleMsg] carries is not part of the module; an observation
    has a distance, a left heading and a right heading, relative to the
    heading of the vehicle. *)
Record ObstacleObs : Type := {
  distance : fl;
  left_heading : fl;
  right_heading : fl;
}.

(** Modelled from the spec: the declaration of [struct ObstacleMsg] is not
    part of the module; a message carries a batch of observations, and
    [msg_size] is its [size] field. *)
Record ObstacleMsg : Type := {
  msg_size : Z;
  obstacles : list ObstacleObs;
}.

Definition zero_obs : ObstacleObs :=
  {| distance := f_of_int 0; left_heading := f_of_int 0; right_heading := f_of_int 0 |}.

(** Modelled from the spec: the pose provider and the waypoint table are
    outside the module and are queried synchronously; what a call reads from
    them is the position ([GetPosX], [GetPosY]), the yaw ([psi] of
    [stateGetNedToBodyEulers_f]) and the coordinates of a waypoint
    ([WaypointX], [WaypointY]). *)
Record Env : Type := {
  GetPosX : fl;
  GetPosY : fl;
  psi : fl;
  WaypointX : Z -> fl;
  WaypointY : Z -> fl;
}.

(** The globals of the module, and the log of navigation calls. *)
Record State : Type := {
  mse_outer : fl;
  mse_inner : fl;
  outer_index : Z;
  inner_index : Z;
  subtraj_index : Z;
  trajectory_updated : bool;
  n_obstacles : Z;
  obstacle_map_updated : bool;
  initialized : bool;
  outer_trajectory : list EnuCoor_i;
  full_trajectory : list TrajectoryList;
  obstacle_map : list Obstacle;
  nav_log : list NavCall;
}.

(** The globals at program start: zero-initialised storage. *)
Definition initial_state : State := {|
  mse_outer := f_of_int 0;
  mse_inner := f_of_int 0;
  outer_index := 0;
  inner_index := 0;
  subtraj_index := 0;
  trajectory_updated := false;
  n_obstacles := 0;
  obstacle_map_updated := false;
  initialized := false;
  outer_trajectory := replicate (Z.to_nat OUTER_TRAJECTORY_LENGTH) zero_coor;
  full_trajectory :=
    replicate (Z.to_nat OUTER_TRAJECTORY_LENGTH)
      {| inner_trajectory := replicate (Z.to_nat INNER_TRAJECTORY_SPACE) zero_coor;
         size := 0 |};
  obstacle_map := replicate (Z.to_nat MAX_OBSTACLES_IN_MAP) zero_obstacle;
  nav_log := [];
|}.

(** Assignments to the globals. *)
Definition set_mse_outer (v : fl) (st : State) : State :=
  {| mse_outer := v; mse_inner := mse_inner st; outer_index := outer_index st;
     inner_index := inner_index st; subtraj_index := subtraj_index st;
     trajectory_updated := trajectory_updated st; n_obstacles := n_obstacles st;
     obstacle_map_updated := obstacle_map_updated st; initialized := initialized st;
     outer_trajectory := outer_trajectory st; full_trajectory := full_trajectory st;
     obstacle_map := obstacle_map st; nav_log := nav_log st |}.

Definition set_mse_inner (v : fl) (st : State) : State :=
  {| mse_outer := mse_outer st; mse_inner := v; outer_index := outer_index st;
     inner_index := inner_index st; subtraj_index := subtraj_index st;
     trajectory_updated := trajectory_updated st; n_obstacles := n_obstacles st;
     obstacle_map_updated := obstacle_map_updated st; initialized := initialized st;
     outer_trajectory := outer_trajectory st; full_trajectory := full_trajectory st;
     obstacle_map := obstacle_map st; nav_log := nav_log st |}.

Definition set_outer_index (v : Z) (st : State) : State :=
  {| mse_outer := mse_outer st; mse_inner := mse_inner st; outer_index := v;
     inner_index := inner_index st; subtraj_index := subtraj_index st;
     trajectory_updated := trajectory_updated st; n_obstacles := n_obstacles st;
     obstacle_map_updated := obstacle_map_updated st; initialized := initialized st;
     outer_trajectory := outer_trajectory st; full_trajectory := full_trajectory st;
     obstacle_map := obstacle_map st; nav_log := nav_log st |}.

Definition set_inner_index (v : Z) (st : State) : State :=
  {| mse_outer := mse_outer st; mse_inner := mse_inner st; outer_index := outer_index st;
     inner_index := v; subtraj_index := subtraj_index st;
     trajectory_updated := trajectory_updated st; n_obstacles := n_obstacles st;
     obstacle_map_updated := obstacle_map_updated st; initialized := initialized st;
     outer_trajectory := outer_trajectory st; full_trajectory := full_trajectory st;
     obstacle_map := obstacle_map st; nav_log := nav_log st |}.

Definition set_subtraj_index (v : Z) (st : State) : State :=
  {| mse_outer := mse_outer st; mse_inner := mse_inner st; outer_index := outer_index st;
     inner_index := inner_index st; subtraj_index := v;
     trajectory_updated := trajectory_updated st; n_obstacles := n_obstacles st;
     obstacle_map_updated := obstacle_map_updated st; initialized := initialized st;
     outer_trajectory := outer_trajectory st; full_trajectory := full_trajectory st;
     obstacle_map := obstacle_map st; nav_log := nav_log st |}.

Definition set_trajectory_updated (v : bool) (st : State) : State :=
  {| mse_outer := mse_outer st; mse_inner := mse_inner st; outer_index := outer_index st;
     inner_index := inner_index st; subtraj_index := subtraj_index st;
     trajectory_updated := v; n_obstacles := n_obstacles st;
     obstacle_map_updated := obstacle_map_updated st; initialized := initialized st;
     outer_trajectory := outer_trajectory st; full_trajectory := full_trajectory st;
     obstacle_map := obstacle_map st; nav_log := nav_log st |}.

Definition set_n_obstacles (v : Z) (st : State) : State :=
  {| mse_outer := mse_outer st; mse_inner := mse_inner st; outer_index := outer_index st;
     inner_index := inner_index st; subtraj_index := subtraj_index st;
     trajectory_updated := trajectory_updated st; n_obstacles := v;
     obstacle_map_updated := obstacle_map_updated st; initialized := initialized st;
     outer_trajectory := outer_trajectory st; full_trajectory := full_trajectory st;
     obstacle_map := obstacle_map st; nav_log := nav_log st |}.

Definition set_obstacle_map_updated (v : bool) (st : State) : State :=
  {| mse_outer := mse_outer st; mse_inner := mse_inner st; outer_index := outer_index st;
     inner_index := inner_index st; subtraj_index := subtraj_index st;
     trajectory_updated := trajectory_updated st; n_obstacles := n_obstacles st;
     obstacle_map_updated := v; initialized := initialized st;
     outer_trajectory := outer_trajectory st; full_trajectory := full_trajectory st;
     obstacle_map := obstacle_map st; nav_log := nav_log st |}.

Definition set_initialized (v : bool) (st : State) : State :=
  {| mse_outer := mse_outer st; mse_inner := mse_inner st; outer_index := outer_index st;
     inner_index := inner_index st; subtraj_index := subtraj_index st;
     trajectory_updated := trajectory_updated st; n_obstacles := n_obstacles st;
     obstacle_map_updated := obstacle_map_updated st; initialized := v;
     outer_trajectory := outer_trajectory st; full_trajectory := full_trajectory st;
     obstacle_map := obstacle_map st; nav_log := nav_log st |}.

Definition set_outer_trajectory (v : list EnuCoor_i) (st : State) : State :=
  {| mse_outer := mse_outer st; mse_inner := mse_inner st; outer_index := outer_index st;
     inner_index := inner_index st; subtraj_index := subtraj_index st;
     trajectory_updated := trajectory_updated st; n_obstacles := n_obstacles st;
     obstacle_map_updated := obstacle_map_updated st; initialized := initialized st;
     outer_trajectory := v; full_trajectory := full_trajectory st;
     obstacle_map := obstacle_map st; nav_log := nav_log st |}.

Definition set_full_trajectory (v : list TrajectoryList) (st : State) : State :=
  {| mse_outer := mse_outer st; mse_inner := mse_inner st; outer_index := outer_index st;
     inner_index := inner_index st; subtraj_index := subtraj_index st;
     trajectory_updated := trajectory_updated st; n_obstacles := n_obstacles st;
     obstacle_map_updated := obstacle_map_updated st; initialized := initialized st;
     outer_trajectory := outer_trajectory st; full_trajectory := v;
     obstacle_map := obstacle_map st; nav_log := nav_log st |}.

Definition set_obstacle_map (v : list Obstacle) (st : State) : State :=
  {| mse_outer := mse_outer st; mse_inner := mse_inner st; outer_index := outer_index st;
     inner_index := inner_index st; subtraj_index := subtraj_index st;
     trajectory_updated := trajectory_updated st; n_obstacles := n_obstacles st;
     obstacle_map_updated := obstacle_map_updated st; initialized := initialized st;
     outer_trajectory := outer_trajectory st; full_trajectory := full_trajectory st;
     obstacle_map := v; nav_log := nav_log st |}.

Definition set_nav_log (v : list NavCall) (st : State) : State :=
  {| mse_outer := mse_outer st; mse_inner := mse_inner st; outer_index := outer_index st;
     inner_index := inner_index st; subtraj_index := subtraj_index st;
     trajectory_updated := trajectory_updated st; n_obstacles := n_obstacles st;
     obstacle_map_updated := obstacle_map_updated st; initialized := initialized st;
     outer_trajectory := outer_trajectory st; full_trajectory := full_trajectory st;
     obstacle_map := obstacle_map st; nav_log := v |}.

(** A call to a navigation primitive. *)
Definition nav_call (c : NavCall) (st : State) : State :=
  set_nav_log (nav_log st ++ [c]) st.

(** ** The obstacle map *)

(** The body of the loop of [checkObstaclePresence] computes the distance
    of the candidate to the obstacle in slot [i]. *)
Definition obstacle_distance (o : Obstacle) (x_position y_position : Z) : fl :=
  let error_x := POS_FLOAT_OF_BFP (x (loc o) - x_position) in
  let error_y := POS_FLOAT_OF_BFP (y (loc o) - y_position) in
  fsqrt (fadd (fpow2 error_x) (fpow2 error_y)).

(** [obstacle_mse < 1 || obstacle_mse != obstacle_mse] *)
Definition too_close (obstacle_mse : fl) : bool :=
  fltb obstacle_mse (f_of_int 1) || negb (feqb obstacle_mse obstacle_mse).

(** The loop of [checkObstaclePresence] over the remaining values of [i],
    with its early [return true]. *)
Fixpoint checkObstaclePresence_loop (idxs : list Z) (obstacle_map_check : list Obstacle)
    (x_position y_position : Z) : bool :=
  match idxs with
  | [] => false
  | i :: rest =>
      let obstacle_mse :=
        obstacle_distance (arr_get zero_obstacle obstacle_map_check i) x_position y_position in
      if too_close obstacle_mse then true
      else checkObstaclePresence_loop rest obstacle_map_check x_position y_position
  end.

Definition checkObstaclePresence (st : State) (obstacle_map_check : list Obstacle)
    (x_position y_position : Z) : bool :=
  checkObstaclePresence_loop (loop_range (n_obstacles st)) obstacle_map_check
    x_position y_position.

(** The insertion of [color_detection_cb] (from the call of
    [checkObstaclePresence] to the end of the guarded block), which the
    specification calls [tryInsert]; the result tells whether the guarded
    block ran. *)
Definition tryInsert (x_position y_position : Z) (st : State) : bool * State :=
  let obstacle_already_in :=
    checkObstaclePresence st (obstacle_map st) x_position y_position in
  if negb obstacle_already_in && (n_obstacles st <? MAX_OBSTACLES_IN_MAP) then
    let st1 := set_n_obstacles (to_u8 (n_obstacles st + 1)) st in
    let st2 :=
      set_obstacle_map
        (arr_set (obstacle_map st1) (n_obstacles st1 - 1)
           {| loc := {| x := x_position; y := y_position |} |}) st1 in
    (true, set_obstacle_map_updated true st2)
  else (false, st).

(** ** The detection callback *)

(** [msg->obstacles[i].distance = v] *)
Definition set_distance (i : Z) (v : fl) (msg : ObstacleMsg) : ObstacleMsg :=
  let o := arr_get zero_obs (obstacles msg) i in
  {| msg_size := msg_size msg;
     obstacles :=
       arr_set (obstacles msg) i
         {| distance := v; left_heading := left_heading o;
            right_heading := right_heading o |} |}.

(** The zero test at the head of the loop body. *)
Definition replace_zero_distance (i : Z) (msg : ObstacleMsg) : ObstacleMsg :=
  if feqb (distance (arr_get zero_obs (obstacles msg) i)) (f_of_int 0)
  then set_distance i f_half msg
  else msg.

(** The validity value [obstacle_mse] of an observation. *)
Definition observation_mse (o : ObstacleObs) : fl :=
  to_float
    (fsqrt (fadd (fadd (fpow2 (distance o)) (fpow2 (left_heading o)))
              (fpow2 (right_heading o)))).

(** [absolute_position] of an observation. *)
Definition absolute_position (env : Env) (o : ObstacleObs) : EnuCoor_i :=
  let heading := RadOfDeg (fdiv (fadd (left_heading o) (right_heading o)) (f_of_int 2)) in
  {| x := POS_BFP_OF_REAL
            (fadd (GetPosX env) (fmul (fsin (fadd heading (psi env))) (distance o)));
     y := POS_BFP_OF_REAL
            (fadd (GetPosY env) (fmul (fcos (fadd heading (psi env))) (distance o))) |}.

(** One iteration of the loop of [color_detection_cb]. *)
Definition color_detection_cb_body (env : Env) (acc : State * ObstacleMsg) (i : Z)
    : State * ObstacleMsg :=
  let msg := replace_zero_distance i (snd acc) in
  let o := arr_get zero_obs (obstacles msg) i in
  if fgeb (observation_mse o) (f_of_int 0) then
    let p := absolute_position env o in
    (snd (tryInsert (x p) (y p) (fst acc)), msg)
  else (fst acc, msg).

(** [color_detection_cb]: the new globals and the message as the caller
    finds it afterwards. *)
Definition color_detection_cb (env : Env) (msg : ObstacleMsg) (st : State)
    : State * ObstacleMsg :=
  fold_left (color_detection_cb_body env) (loop_range (msg_size msg)) (st, msg).

(** ** The trajectories *)

(** [full_trajectory[k]] *)
Definition segment (st : State) (k : Z) : TrajectoryList :=
  arr_get zero_segment (full_trajectory st) k.

(** [full_trajectory[k].size = v] *)
Definition set_segment_size (k v : Z) (st : State) : State :=
  set_full_trajectory
    (arr_set (full_trajectory st) k
       {| inner_trajectory := inner_trajectory (segment st k); size := v |}) st.

(** [full_trajectory[k].inner_trajectory[i].x = x p] and the same for [y] *)
Definition set_inner_point (k i : Z) (p : EnuCoor_i) (st : State) : State :=
  set_full_trajectory
    (arr_set (full_trajectory st) k
       {| inner_trajectory := arr_set (inner_trajectory (segment st k)) i p;
          size := size (segment st k) |}) st.

Definition buildOuterTrajectory_body (rx_list ry_list : list fl) (st : State) (i : Z)
    : State :=
  set_outer_trajectory
    (arr_set (outer_trajectory st) i
       {| x := POS_BFP_OF_REAL (arr_get (f_of_int 0) rx_list i);
          y := POS_BFP_OF_REAL (arr_get (f_of_int 0) ry_list i) |}) st.

Definition buildOuterTrajectory (env : Env) (st : State) : State :=
  let start_x := GetPosX env in
  let start_y := GetPosY env in
  let rx_list := [start_x; f_of_int 2; f_of_int 2; f_of_int 0; f_of_int 0] in
  let ry_list := [start_y; f_of_int 2; f_of_int (-2); f_of_int 0; f_of_int 0] in
  fold_left (buildOuterTrajectory_body rx_list ry_list)
    (loop_range OUTER_TRAJECTORY_LENGTH) st.

(** One iteration of the loop of [buildInnerTrajectory]. *)
Definition buildInnerTrajectory_body (outer_index_bt : Z) (increment_x increment_y : fl)
    (st : State) (i : Z) : State :=
  let p_from := arr_get zero_coor (outer_trajectory st) outer_index_bt in
  set_inner_point outer_index_bt i
    {| x := POS_BFP_OF_REAL
              (fadd (fmul (f_of_int (i + 1)) increment_x) (POS_FLOAT_OF_BFP (x p_from)));
       y := POS_BFP_OF_REAL
              (fadd (fmul (f_of_int (i + 1)) increment_y) (POS_FLOAT_OF_BFP (y p_from))) |}
    st.

Definition buildInnerTrajectory (outer_index_bt : Z) (st : State) : State :=
  let actual_index :=
    if outer_index_bt =? OUTER_TRAJECTORY_LENGTH - 1 then 0
    else to_u8 (outer_index_bt + 1) in
  let p_to := arr_get zero_coor (outer_trajectory st) actual_index in
  let p_from := arr_get zero_coor (outer_trajectory st) outer_index_bt in
  let x_diff := to_float (fsub (POS_FLOAT_OF_BFP (x p_to)) (POS_FLOAT_OF_BFP (x p_from))) in
  let y_diff := to_float (fsub (POS_FLOAT_OF_BFP (y p_to)) (POS_FLOAT_OF_BFP (y p_from))) in
  let increment_x := to_float (fdiv x_diff (f_of_int INNER_TRAJECTORY_LENGTH)) in
  let increment_y := to_float (fdiv y_diff (f_of_int INNER_TRAJECTORY_LENGTH)) in
  fold_left (buildInnerTrajectory_body outer_index_bt increment_x increment_y)
    (loop_range INNER_TRAJECTORY_LENGTH) st.

(** ** The optimizer adapter *)

(** One iteration of the copy loop of [updateTrajectory]; [size_at] is the
    segment whose [size] field the [size] pointer addresses. *)
Definition updateTrajectory_body (new_inner : OptimizedTrajectory) (size_at : Z)
    (st : State) (i : Z) : State :=
  if i <? size (segment st size_at) then
    set_inner_point (subtraj_index st) i (arr_get zero_coor (buf new_inner) i) st
  else
    set_inner_point (subtraj_index st) i zero_coor st.

(** [updateTrajectory(obstacle_map, full_trajectory[k].inner_trajectory,
    &full_trajectory[k].size)]: both call sites pass pointers into one
    segment [k], which stands for the two pointers here. The clock
    readings only feed a diagnostic message. *)
Definition updateTrajectory (k : Z) (st : State) : bool * State :=
  let r :=
    optimize_trajectory (obstacle_map st) (inner_trajectory (segment st k))
      (size (segment st k)) (n_obstacles st) in
  let st1 := set_segment_size k (to_u8 (snd r)) st in
  (true,
   fold_left (updateTrajectory_body (fst r) k) (loop_range INNER_TRAJECTORY_SPACE) st1).

(** ** The periodic function *)

Definition moveWaypoint (waypoint : Z) (new_coor : EnuCoor_i) (st : State) : State :=
  nav_call (waypoint_move_xy_i waypoint (x new_coor) (y new_coor)) st.

Definition moveWaypointNext (waypoint : Z) (trajectory : list EnuCoor_i)
    (index_current_waypoint : Z) (st : State) : State :=
  moveWaypoint waypoint (arr_get zero_coor trajectory index_current_waypoint) st.

(** The value [checkWaypointArrival] stores through [mseVar]. *)
Definition checkWaypointArrival (env : Env) (waypoint_target : Z) : fl :=
  let error_x := fsub (GetPosX env) (WaypointX env waypoint_target) in
  let error_y := fsub (GetPosY env) (WaypointY env waypoint_target) in
  fsqrt (fadd (fpow2 error_x) (fpow2 error_y)).

(** The one-time setup under [if (!initialized)]. *)
Definition periodic_init (env : Env) (st : State) : State :=
  let st1 :=
    fold_left (fun s i => set_segment_size i (to_u8 INNER_TRAJECTORY_LENGTH) s)
      (loop_range OUTER_TRAJECTORY_LENGTH) st in
  let st2 := buildOuterTrajectory env st1 in
  let st3 :=
    fold_left (fun s i => buildInnerTrajectory (to_u8 i) s)
      (loop_range OUTER_TRAJECTORY_LENGTH) st2 in
  set_initialized true st3.

(** The block under [if (obstacle_map_updated)]. *)
Definition periodic_rebuild (st : State) : State :=
  if obstacle_map_updated st then
    set_obstacle_map_updated false (snd (updateTrajectory (subtraj_index st) st))
  else st.

(** The block under [if (mse_inner < 0.5 && trajectory_updated)]. *)
Definition periodic_inner (st : State) : State :=
  if fltb (mse_inner st) f_half && trajectory_updated st then
    let st1 :=
      moveWaypointNext WP_INNER (inner_trajectory (segment st (subtraj_index st)))
        (inner_index st) st in
    if inner_index st1 <? size (segment st1 (subtraj_index st1)) - 1 then
      set_inner_index (to_u8 (inner_index st1 + 1)) st1
    else st1
  else st.

(** The block under [if (mse_outer < 0.5)]. *)
Definition periodic_outer (st : State) : State :=
  if fltb (mse_outer st) f_half then
    let st1 :=
      if outer_index st <? OUTER_TRAJECTORY_LENGTH - 1 then
        let s := set_outer_index (to_u8 (outer_index st + 1)) st in
        set_subtraj_index (to_u8 (outer_index s - 1)) s
      else
        set_subtraj_index (to_u8 (OUTER_TRAJECTORY_LENGTH - 1)) (set_outer_index 0 st) in
    let st2 := set_inner_index 0 st1 in
    let st3 := moveWaypointNext WP_OUTER (outer_trajectory st2) (outer_index st2) st2 in
    let r := updateTrajectory (subtraj_index st3) st3 in
    set_trajectory_updated (fst r) (snd r)
  else st.

(** [if (!initialized) { ... }] *)
Definition periodic_setup (env : Env) (st : State) : State :=
  if initialized st then st else periodic_init env st.

(** The two calls of [checkWaypointArrival]. *)
Definition periodic_arrival (env : Env) (st : State) : State :=
  set_mse_inner (checkWaypointArrival env WP_INNER)
    (set_mse_outer (checkWaypointArrival env WP_OUTER) st).

Definition orange_avoider_periodic (env : Env) (st : State) : State :=
  let st1 := periodic_setup env st in
  let st2 := periodic_arrival env st1 in
  let st3 := periodic_rebuild st2 in
  let st4 := periodic_inner st3 in
  let st5 := periodic_outer st4 in
  nav_call (NavGotoWaypointHeading WP_INNER) st5.

(** ** Runs *)

(** The module is entered through the detection callback and through the
    periodic function; an execution is a sequence of such calls, each run to
    its end. *)
Inductive Event : Type :=
| Detection (env : Env) (msg : ObstacleMsg)
| Tick (env : Env).

Definition step (st : State) (ev : Event) : State :=
  match ev with
  | Detection env msg => fst (color_detection_cb env msg st)
  | Tick env => orange_avoider_periodic env st
  end.

Definition run (evs : list Event) (st : State) : State := fold_left step evs st.

End Program.

Arguments ObstacleObs : clear implicits.
Arguments ObstacleMsg : clear implicits.
Arguments Env : clear implicits.
Arguments State : clear implicits.
Arguments Event : clear implicits.


(** ** An IEEE 754 instance of the floating-point operations *)

Module IEEE.

(** The carrier is [spec_float] and the operations are those of binary64; a
    [float] is a binary64 number that is also a binary32 number, and on the
    [float] operands of the examples, small integers and halves, the
    binary64 operations give the results of the binary32 ones. *)
Definition of_int (z : Z) : spec_float := binary_normalize 53 1024 z 0 false.

Definition half : spec_float := binary_normalize 53 1024 1 (-1) false.

Definition pow2 (a : spec_float) : spec_float := SFmul 53 1024 a a.

(** Rounding of a double to the nearest float. *)
Definition round_float (a : spec_float) : spec_float :=
  match a with
  | S754_finite s m e => binary_normalize 24 128 (cond_Zopp s (Zpos m)) e s
  | _ => a
  end.

(** Conversion to an integer, which discards the fractional part. C leaves
    the conversion of an infinity, of a NaN and of a value outside the range
    of the integer type undefined; the instance gives 0 for the first two
    and the integer part for the last. *)
Definition to_int (a : spec_float) : Z :=
  match a with
  | S754_finite s m e =>
      cond_Zopp s (if 0 <=? e then Zpos m * 2 ^ e else Zpos m / 2 ^ (- e))
  | _ => 0
  end.

(** [M_PI], and the factor of [RadOfDeg]. *)
Definition M_PI : spec_float := S754_finite false 7074237752028440 (-51).

Definition rad_of_deg (a : spec_float) : spec_float :=
  SFmul 53 1024 a (SFdiv 53 1024 M_PI (of_int 180)).

(** IEEE 754 does not fix the results of the C library's [sin] and [cos];
    the instance takes the first terms of their series, which are exact
    at 0. *)
Definition sin_series (a : spec_float) : spec_float :=
  let a3 := SFmul 53 1024 a (pow2 a) in
  SFsub 53 1024 a (SFdiv 53 1024 a3 (of_int 6)).

Definition cos_series (a : spec_float) : spec_float :=
  SFsub 53 1024 (of_int 1) (SFdiv 53 1024 (pow2 a) (of_int 2)).

(** Modelled from the spec: the fixed-point conversion macros
    [POS_BFP_OF_REAL] and [POS_FLOAT_OF_BFP] are not part of the module; the
    specification treats them as identity numeric conversions, so the first
    is the conversion of a floating-point value to [int] and the second the
    conversion of an [int] to [float]. *)
Definition pos_bfp_of_real (a : spec_float) : Z := to_int a.

Definition pos_float_of_bfp (z : Z) : spec_float := round_float (of_int z).

#[export] Instance ops : CFloat spec_float := {|
  f_of_int := of_int;
  f_half := half;
  fadd := SFadd 53 1024;
  fsub := SFsub 53 1024;
  fmul := SFmul 53 1024;
  fdiv := SFdiv 53 1024;
  fsqrt := SFsqrt 53 1024;
  fpow2 := pow2;
  fsin := sin_series;
  fcos := cos_series;
  to_float := round_float;
  feqb := SFeqb;
  fltb := SFltb;
  fgeb := fun a b => SFleb b a;
  RadOfDeg := rad_of_deg;
  POS_BFP_OF_REAL := pos_bfp_of_real;
  POS_FLOAT_OF_BFP := pos_float_of_bfp;
|}.

End IEEE.

(** ** Vocabulary of the properties *)

Section Vocabulary.
Context {fl : Type} {F : CFloat fl} {C : Config}.

(** The count of the obstacle map is a [uint8_t] within the capacity, and
    the array has [MAX_OBSTACLES_IN_MAP] slots. *)
Definition map_wf (st : State fl) : Prop :=
  0 <= n_obstacles st <= MAX_OBSTACLES_IN_MAP /\
  Z.of_nat (length (obstacle_map st)) = MAX_OBSTACLES_IN_MAP.

(** An obstacle of the map lies within the threshold 1.0 of the position,
    or its distance to the position is not a number. *)
Definition already_present (st : State fl) (x_position y_position : Z) : Prop :=
  exists i, 0 <= i < n_obstacles st /\
    let d := obstacle_distance (arr_get zero_obstacle (obstacle_map st) i)
               x_position y_position in
    (fltb d (f_of_int 1) = true \/ feqb d d = false).

(** The arrays of the trajectories have their declared sizes. *)
Definition storage_wf (st : State fl) : Prop :=
  Z.of_nat (length (outer_trajectory st)) = OUTER_TRAJECTORY_LENGTH /\
  Z.of_nat (length (full_trajectory st)) = OUTER_TRAJECTORY_LENGTH /\
  forall k, 0 <= k < OUTER_TRAJECTORY_LENGTH ->
    Z.of_nat (length (inner_trajectory (segment st k))) = INNER_TRAJECTORY_SPACE.

(** The initialisers of [rx_list] and [ry_list] after the start position;
    the initialisers the source leaves out are zero. *)
Definition outer_corners : list (Z * Z) := [(2, 2); (2, -2); (0, 0); (0, 0)].

Definition is_detection (ev : Event fl) : Prop :=
  match ev with
  | Detection _ _ => True
  | Tick _ => False
  end.

(** The observation the callback works with: a distance equal to 0 is
    replaced by 0.5, the headings are as reported. *)
Definition used_observation (o : ObstacleObs fl) : ObstacleObs fl :=
  {| distance := if feqb (distance o) (f_of_int 0) then f_half else distance o;
     left_heading := left_heading o;
     right_heading := right_heading o |}.

(** The ingestion of one observation in the words of the specification:
    substitute the zero distance, take the average of the two headings in
    radians, add the yaw, project from the position of the vehicle, and
    insert the position into the obstacle map; the validity check compares
    the norm of the observation with 0. *)
Definition spec_ingest (env : Env fl) (st : State fl) (o : ObstacleObs fl) : State fl :=
  let d := if feqb (distance o) (f_of_int 0) then f_half else distance o in
  let heading :=
    RadOfDeg (fdiv (fadd (left_heading o) (right_heading o)) (f_of_int 2)) in
  let px := POS_BFP_OF_REAL (fadd (GetPosX env) (fmul (fsin (fadd heading (psi env))) d)) in
  let py := POS_BFP_OF_REAL (fadd (GetPosY env) (fmul (fcos (fadd heading (psi env))) d)) in
  let norm :=
    to_float (fsqrt (fadd (fadd (fpow2 d) (fpow2 (left_heading o)))
                       (fpow2 (right_heading o)))) in
  if fgeb norm (f_of_int 0) then snd (tryInsert px py st) else st.

(** The optimizer returns the degenerate result, of size 0, whatever it
    is given. *)
Definition degenerate_optimizer : Prop :=
  forall (m : list Obstacle) (t : list EnuCoor_i) (sz n : Z),
    to_u8 (snd (optimize_trajectory m t sz n)) = 0.

(** The active segment is empty: its size is 0 and its slots hold (0,0). *)
Definition active_segment_empty (st : State fl) : Prop :=
  size (segment st (subtraj_index st)) = 0 /\
  forall i, 0 <= i < INNER_TRAJECTORY_SPACE ->
    arr_get zero_coor (inner_trajectory (segment st (subtraj_index st))) i = zero_coor.

(** The outer index that follows [i] on the loop of outer points. *)
Definition actual_index (i : Z) : Z :=
  if i =? OUTER_TRAJECTORY_LENGTH - 1 then 0 else to_u8 (i + 1).

(** The point of index [i], counted from 0, of the straight inner
    trajectory from [p_from] to [p_to]: [p_from] plus [i+1] times the
    increment, the increment being the difference of the two points divided
    by [INNER_TRAJECTORY_LENGTH]. *)
Definition inner_point (p_from p_to : EnuCoor_i) (i : Z) : EnuCoor_i :=
  let increment_x :=
    to_float (fdiv (to_float (fsub (POS_FLOAT_OF_BFP (x p_to)) (POS_FLOAT_OF_BFP (x p_from))))
                (f_of_int INNER_TRAJECTORY_LENGTH)) in
  let increment_y :=
    to_float (fdiv (to_float (fsub (POS_FLOAT_OF_BFP (y p_to)) (POS_FLOAT_OF_BFP (y p_from))))
                (f_of_int INNER_TRAJECTORY_LENGTH)) in
  {| x := POS_BFP_OF_REAL
            (fadd (fmul (f_of_int (i + 1)) increment_x) (POS_FLOAT_OF_BFP (x p_from)));
     y := POS_BFP_OF_REAL
            (fadd (fmul (f_of_int (i + 1)) increment_y) (POS_FLOAT_OF_BFP (y p_from))) |}.

(** The obstacles of the map lie apart: the distance that the test of
    [checkObstaclePresence] computes from an obstacle to one stored after
    it is a number and is not below the threshold 1.0. *)
Definition obstacles_apart (st : State fl) : Prop :=
  forall i j, 0 <= i < j -> j < n_obstacles st ->
    let o := arr_get zero_obstacle (obstacle_map st) j in
    let d := obstacle_distance (arr_get zero_obstacle (obstacle_map st) i)
               (x (loc o)) (y (loc o)) in
    fltb d (f_of_int 1) = false /\ feqb d d = true.

(** The map of [st'] holds the obstacles of the map of [st] in their slots,
    and possibly more. *)
Definition map_extends (st st' : State fl) : Prop :=
  n_obstacles st <= n_obstacles st' /\
  forall i, 0 <= i < n_obstacles st ->
    arr_get zero_obstacle (obstacle_map st') i = arr_get zero_obstacle (obstacle_map st) i.

(** The optimizer never reports a size above the capacity of a segment. *)
Definition optimizer_within_space : Prop :=
  forall (m : list Obstacle) (t : list EnuCoor_i) (sz n : Z),
    to_u8 (snd (optimize_trajectory m t sz n)) <= INNER_TRAJECTORY_SPACE.

(** The sizes of the segments are within the capacity of a segment. *)
Definition sizes_bounded (st : State fl) : Prop :=
  forall k, 0 <= size (segment st k) <= INNER_TRAJECTORY_SPACE.

(** The three indices address slots that the arrays have, and the sizes of
    the segments are within the capacity of a segment. *)
Definition indices_in_range (st : State fl) : Prop :=
  0 <= outer_index st < OUTER_TRAJECTORY_LENGTH /\
  0 <= subtraj_index st < OUTER_TRAJECTORY_LENGTH /\
  0 <= inner_index st < INNER_TRAJECTORY_SPACE /\
  sizes_bounded st.

Definition is_heading_call (c : NavCall) : Prop :=
  match c with
  | NavGotoWaypointHeading _ => True
  | waypoint_move_xy_i _ _ _ => False
  end.

(** No tick has reached the outer waypoint yet: the indices are those of
    program start and no waypoint has been moved. *)
Definition before_first_arrival (st : State fl) : Prop :=
  trajectory_updated st = false /\
  outer_index st = 0 /\ subtraj_index st = 0 /\ inner_index st = 0 /\
  Forall is_heading_call (nav_log st).

(** A tick has reached the outer waypoint: the active segment is the one
    that leads to the outer point of index [outer_index]. *)
Definition after_first_arrival (st : State fl) : Prop :=
  trajectory_updated st = true /\
  0 <= outer_index st < OUTER_TRAJECTORY_LENGTH /\
  subtraj_index st = (outer_index st - 1) mod OUTER_TRAJECTORY_LENGTH.

(** The point [p] lies on the straight line through [a] and [b]. *)
Definition on_line (a b p : EnuCoor_i) : Prop :=
  (x p - x a) * (y b - y a) = (y p - y a) * (x b - x a).

End Vocabulary.

(** ** A configuration and inputs for the examples *)

Module Example.

(** An optimizer that returns the seed trajectory with its size. *)
Definition keep_seed (obstacle_map_ut : list Obstacle) (start_trajectory : list EnuCoor_i)
    (size_in n_obstacles_in : Z) : OptimizedTrajectory * Z :=
  ({| buf := start_trajectory |}, size_in).

(** An optimizer that returns the degenerate result: no point, size 0. *)
Definition empty_result (obstacle_map_ut : list Obstacle) (start_trajectory : list EnuCoor_i)
    (size_in n_obstacles_in : Z) : OptimizedTrajectory * Z :=
  ({| buf := [] |}, 0).

(** Three outer points as in the specification, four inner points in six
    slots, and room for two obstacles. *)
Definition config
    (optimizer : list Obstacle -> list EnuCoor_i -> Z -> Z -> OptimizedTrajectory * Z)
    : Config :=
  {| OUTER_TRAJECTORY_LENGTH := 3;
     INNER_TRAJECTORY_LENGTH := 4;
     INNER_TRAJECTORY_SPACE := 6;
     MAX_OBSTACLES_IN_MAP := 2;
     WP_OUTER := 5;
     WP_INNER := 6;
     optimize_trajectory := optimizer |}.

(** The vehicle at the origin with yaw 0 and both waypoints at the origin:
    both arrival distances are 0. *)
Definition at_waypoints : Env spec_float :=
  {| GetPosX := IEEE.of_int 0;
     GetPosY := IEEE.of_int 0;
     psi := IEEE.of_int 0;
     WaypointX := fun _ => IEEE.of_int 0;
     WaypointY := fun _ => IEEE.of_int 0 |}.

(** The vehicle at the origin with the outer waypoint at (2, 2) and the
    inner waypoint at the origin: only the inner waypoint is reached. *)
Definition at_inner_waypoint : Env spec_float :=
  {| GetPosX := IEEE.of_int 0;
     GetPosY := IEEE.of_int 0;
     psi := IEEE.of_int 0;
     WaypointX := fun wp => if wp =? 5 then IEEE.of_int 2 else IEEE.of_int 0;
     WaypointY := fun wp => if wp =? 5 then IEEE.of_int 2 else IEEE.of_int 0 |}.

(** The vehicle at the second outer point, (2, 2), where the first tick has
    moved the outer waypoint; the inner waypoint is at the origin. *)
Definition at_outer_waypoint : Env spec_float :=
  {| GetPosX := IEEE.of_int 2;
     GetPosY := IEEE.of_int 2;
     psi := IEEE.of_int 0;
     WaypointX := fun wp => if wp =? 5 then IEEE.of_int 2 else IEEE.of_int 0;
     WaypointY := fun wp => if wp =? 5 then IEEE.of_int 2 else IEEE.of_int 0 |}.

(** The vehicle at the third outer point, (2, -2), with the outer waypoint
    there and the inner waypoint at the origin. *)
Definition at_last_waypoint : Env spec_float :=
  {| GetPosX := IEEE.of_int 2;
     GetPosY := IEEE.of_int (-2);
     psi := IEEE.of_int 0;
     WaypointX := fun wp => if wp =? 5 then IEEE.of_int 2 else IEEE.of_int 0;
     WaypointY := fun wp => if wp =? 5 then IEEE.of_int (-2) else IEEE.of_int 0 |}.

(** An observation straight ahead at the given distance. *)
Definition ahead (d : Z) : ObstacleObs spec_float :=
  {| distance := IEEE.of_int d;
     left_heading := IEEE.of_int 0;
     right_heading := IEEE.of_int 0 |}.

Definition message (ds : list Z) : ObstacleMsg spec_float :=
  {| msg_size := Z.of_nat (length ds); obstacles := map ahead ds |}.

(** A message that announces two observations and holds three. *)
Definition short_message : ObstacleMsg spec_float :=
  {| msg_size := 2; obstacles := map ahead [0; 3; 0] |}.

(** The vehicle at (0, 3/4) with yaw 0. *)
Definition off_grid : Env spec_float :=
  {| GetPosX := IEEE.of_int 0;
     GetPosY := binary_normalize 53 1024 3 (-2) false;
     psi := IEEE.of_int 0;
     WaypointX := fun _ => IEEE.of_int 0;
     WaypointY := fun _ => IEEE.of_int 0 |}.

Definition cfg : Config := config keep_seed.
Definition cfg0 : Config := config empty_result.

Definition start : State spec_float := @initial_state _ IEEE.ops cfg.
Definition start0 : State spec_float := @initial_state _ IEEE.ops cfg0.

(** One obstacle in the map, at (0, 3). *)
Definition one_obstacle : State spec_float :=
  @step _ IEEE.ops cfg start (Detection at_waypoints (message [3])).

(** After the first tick, which reaches the outer waypoint. *)
Definition running : State spec_float :=
  @orange_avoider_periodic _ IEEE.ops cfg at_waypoints start.

(** After a further tick that reaches the inner waypoint only. *)
Definition on_segment : State spec_float :=
  @orange_avoider_periodic _ IEEE.ops cfg at_inner_waypoint running.

(** After a further tick that reaches the outer waypoint at (2, 2): at the
    last outer index. *)
Definition at_last : State spec_float :=
  @orange_avoider_periodic _ IEEE.ops cfg at_outer_waypoint on_segment.

(** The same ticks with the degenerate optimizer. *)
Definition running0 : State spec_float :=
  @orange_avoider_periodic _ IEEE.ops cfg0 at_waypoints start0.

(** After a further tick that reaches the inner waypoint only. *)
Definition on_segment0 : State spec_float :=
  @orange_avoider_periodic _ IEEE.ops cfg0 at_inner_waypoint running0.

(** Detections and ticks that fill the map of two obstacles. *)
Definition filling : list (Event spec_float) :=
  [Detection at_waypoints (message [3; 10]); Tick at_waypoints;
   Detection at_waypoints (message [20])].

End Example.

(** ** Further inputs for the examples *)

Module Scenario.

(** An observation whose left heading is not a number: its norm is not a
    number either, and the validity test of the callback fails on it. *)
Definition blind : ObstacleObs spec_float :=
  {| distance := IEEE.of_int 3;
     left_heading := S754_nan;
     right_heading := IEEE.of_int 0 |}.

Definition blind_message : ObstacleMsg spec_float :=
  {| msg_size := 2; obstacles := [blind; blind] |}.

(** The vehicle at the origin with the outer waypoint at (2, 2) and the
    inner waypoint at (1, 1): no waypoint is reached. *)
Definition under_way : Env spec_float :=
  {| GetPosX := IEEE.of_int 0;
     GetPosY := IEEE.of_int 0;
     psi := IEEE.of_int 0;
     WaypointX := fun wp => if wp =? 5 then IEEE.of_int 2 else IEEE.of_int 1;
     WaypointY := fun wp => if wp =? 5 then IEEE.of_int 2 else IEEE.of_int 1 |}.

(** The first tick, a detection at distance 3, two ticks that reach the
    inner waypoint, and the tick that reaches the outer waypoint. *)
Definition flight : list (Event spec_float) :=
  [Tick Example.at_waypoints;
   Detection Example.at_waypoints (Example.message [3]);
   Tick Example.at_inner_waypoint;
   Tick Example.at_inner_waypoint;
   Tick Example.at_outer_waypoint].

(** After the first tick and a detection at distance 3: the map has changed
    and the planner has not yet seen it. *)
Definition dirty : State spec_float :=
  @step _ IEEE.ops Example.cfg Example.running
    (Detection Example.at_waypoints (Example.message [3])).

(** The vehicle at the point ([px], [py]) with yaw 0, both waypoints at the
    origin. *)
Definition start_at (px py : Z) : Env spec_float :=
  {| GetPosX := IEEE.of_int px;
     GetPosY := IEEE.of_int py;
     psi := IEEE.of_int 0;
     WaypointX := fun _ => IEEE.of_int 0;
     WaypointY := fun _ => IEEE.of_int 0 |}.

End Scenario.

(** ** Properties *)

(** *** Arrays and loops *)

Lemma to_u8_small (v : Z) : 0 <= v < 256 -> to_u8 v = v.
Proof. intros Hv. unfold to_u8. apply Z.mod_small. exact Hv. Qed.

Lemma to_u8_range (v : Z) : 0 <= to_u8 v < 256.
Proof. unfold to_u8. apply Z.mod_pos_bound. lia. Qed.

Lemma length_arr_set {A : Type} (a : list A) (i : Z) (v : A) :
  length (arr_set a i v) = length a.
Proof. unfold arr_set. destruct (0 <=? i); [apply length_insert | reflexivity]. Qed.

Lemma arr_get_set_eq {A : Type} (d : A) (a : list A) (i : Z) (v : A) :
  0 <= i < Z.of_nat (length a) -> arr_get d (arr_set a i v) i = v.
Proof.
  intros [Hlo Hhi]. unfold arr_get, arr_set.
  destruct (Z.leb_spec 0 i) as [_ | Hneg]; [| lia].
  rewrite list_lookup_insert_eq by lia. reflexivity.
Qed.

Lemma arr_get_set_ne {A : Type} (d : A) (a : list A) (i j : Z) (v : A) :
  i <> j -> arr_get d (arr_set a i v) j = arr_get d a j.
Proof.
  intros Hne. unfold arr_get, arr_set.
  destruct (Z.leb_spec 0 j) as [Hj | Hj]; [| reflexivity].
  destruct (Z.leb_spec 0 i) as [Hi | Hi]; [| reflexivity].
  rewrite list_lookup_insert_ne by lia. reflexivity.
Qed.

Lemma arr_set_lookup_ne {A : Type} (a : list A) (i : Z) (v : A) (n : nat) :
  i <> Z.of_nat n -> arr_set a i v !! n = a !! n.
Proof.
  intros Hne. unfold arr_set. destruct (Z.leb_spec 0 i) as [Hi | Hi]; [| reflexivity].
  apply list_lookup_insert_ne. lia.
Qed.

Lemma arr_get_lookup {A : Type} (d : A) (a : list A) (n : nat) (v : A) :
  a !! n = Some v -> arr_get d a (Z.of_nat n) = v.
Proof.
  intros Hv. unfold arr_get.
  destruct (Z.leb_spec 0 (Z.of_nat n)) as [_ | Hn]; [| lia].
  rewrite Nat2Z.id, Hv. reflexivity.
Qed.

Lemma elem_of_loop_range (n i : Z) : i ∈ loop_range n <-> 0 <= i < n.
Proof. unfold loop_range. rewrite elem_of_seqZ. lia. Qed.

(** A property that every iteration keeps holds after the loop. *)
Lemma fold_left_invariant {S B : Type} (f : S -> B -> S) (P : S -> Prop) :
  (forall s b, P s -> P (f s b)) ->
  forall l s, P s -> P (fold_left f l s).
Proof.
  intros Hstep l. induction l as [| b l IH]; intros s Hs; simpl; [exact Hs |].
  apply IH, Hstep, Hs.
Qed.

(** A loop whose iteration [j] stores [g j] in slot [j] of an array read by
    [get], while keeping an invariant: after the loop a slot holds [g] of its
    index if the loop went through it, and what it held before otherwise. *)
Lemma fold_left_slots {S A : Type} (f : S -> Z -> S) (get : S -> Z -> A)
    (g : Z -> A) (Inv : S -> Prop) (R : Z -> Prop) :
  (forall s j, Inv s -> R j -> Inv (f s j)) ->
  (forall s j, Inv s -> R j -> get (f s j) j = g j) ->
  (forall s j i, Inv s -> R j -> i <> j -> get (f s j) i = get s i) ->
  forall l s i, Inv s -> Forall R l ->
    get (fold_left f l s) i = if decide (i ∈ l) then g i else get s i.
Proof.
  intros Hinv Hhit Hmiss l.
  induction l as [| j l IH]; intros s i Hs Hl; simpl.
  - destruct (decide (i ∈ [])) as [Hin | _]; [| reflexivity].
    apply elem_of_nil in Hin. destruct Hin.
  - apply Forall_cons in Hl as [Hj Hl].
    rewrite IH by auto.
    destruct (decide (i ∈ l)) as [Hin | Hnin].
    + rewrite decide_True by (apply elem_of_cons; auto). reflexivity.
    + destruct (decide (i = j)) as [-> | Hne].
      * rewrite decide_True by (apply elem_of_cons; auto). apply Hhit; assumption.
      * rewrite decide_False by (rewrite elem_of_cons; tauto).
        apply Hmiss; assumption.
Qed.

(** The loop that stores [g j] in slot [j] of an array, read back. *)
Lemma fold_arr_set_get {A : Type} (d : A) (g : Z -> A) (l : list Z) (a : list A) (i : Z) :
  Forall (fun j => 0 <= j < Z.of_nat (length a)) l ->
  arr_get d (fold_left (fun a j => arr_set a j (g j)) l a) i =
  if decide (i ∈ l) then g i else arr_get d a i.
Proof.
  intros Hl.
  apply (fold_left_slots (fun a j => arr_set a j (g j)) (fun a j => arr_get d a j) g
           (fun b => length b = length a) (fun j => 0 <= j < Z.of_nat (length a))).
  - intros b j Hb _. rewrite length_arr_set. exact Hb.
  - intros b j Hb Hj. apply arr_get_set_eq. rewrite Hb. exact Hj.
  - intros b j i' Hb _ Hne. apply arr_get_set_ne. congruence.
  - reflexivity.
  - exact Hl.
Qed.

Lemma Forall_loop_range (n : Z) : Forall (fun i => 0 <= i < n) (loop_range n).
Proof. apply Forall_forall. intros i Hi. apply elem_of_loop_range, Hi. Qed.

Section Properties.
Context {fl : Type} {F : CFloat fl} {C : Config}.

(** *** Frames: what an assignment leaves alone *)

Lemma set_full_trajectory_same (st : State fl) :
  set_full_trajectory (full_trajectory st) st = st.
Proof. destruct st; reflexivity. Qed.

Lemma set_outer_trajectory_same (st : State fl) :
  set_outer_trajectory (outer_trajectory st) st = st.
Proof. destruct st; reflexivity. Qed.

(** Reduces the projections of the globals out of chains of assignments. *)
Ltac norm_state :=
  cbn [mse_outer mse_inner outer_index inner_index subtraj_index trajectory_updated
       n_obstacles obstacle_map_updated initialized outer_trajectory full_trajectory
       obstacle_map nav_log
       set_mse_outer set_mse_inner set_outer_index set_inner_index set_subtraj_index
       set_trajectory_updated set_n_obstacles set_obstacle_map_updated set_initialized
       set_outer_trajectory set_full_trajectory set_obstacle_map set_nav_log nav_call
       periodic_arrival] in *.

Lemma set_inner_index_same (st : State fl) : set_inner_index (inner_index st) st = st.
Proof. destruct st; reflexivity. Qed.

Lemma fold_left_only_full_trajectory {B : Type} (f : State fl -> B -> State fl) :
  (forall s b, exists ft, f s b = set_full_trajectory ft s) ->
  forall l s, exists ft, fold_left f l s = set_full_trajectory ft s.
Proof.
  intros Hf l. induction l as [| b l IH]; intros s; simpl.
  - exists (full_trajectory s). symmetry. apply set_full_trajectory_same.
  - destruct (Hf s b) as [ft1 ->].
    destruct (IH (set_full_trajectory ft1 s)) as [ft2 ->].
    exists ft2. reflexivity.
Qed.

Lemma updateTrajectory_true (k : Z) (st : State fl) : fst (updateTrajectory k st) = true.
Proof. reflexivity. Qed.

Lemma updateTrajectory_only (k : Z) (st : State fl) :
  exists ft, snd (updateTrajectory k st) = set_full_trajectory ft st.
Proof.
  unfold updateTrajectory. simpl snd.
  match goal with
  | |- context [fold_left ?f ?l ?s0] =>
      assert (Hf : forall s b, exists ft, f s b = set_full_trajectory ft s);
      [| destruct (fold_left_only_full_trajectory f Hf l s0) as [ft ->]]
  end.
  - intros s b. unfold updateTrajectory_body.
    destruct (b <? _); eexists; reflexivity.
  - exists ft. reflexivity.
Qed.

Lemma buildInnerTrajectory_only (k : Z) (st : State fl) :
  exists ft, buildInnerTrajectory k st = set_full_trajectory ft st.
Proof.
  unfold buildInnerTrajectory. cbv zeta.
  apply fold_left_only_full_trajectory. intros s b. eexists. reflexivity.
Qed.

Lemma buildOuterTrajectory_only (env : Env fl) (st : State fl) :
  exists ot, buildOuterTrajectory env st = set_outer_trajectory ot st.
Proof.
  unfold buildOuterTrajectory.
  generalize (loop_range OUTER_TRAJECTORY_LENGTH) as l. intros l. revert st.
  induction l as [| b l IH]; intros st; simpl.
  - exists (outer_trajectory st). symmetry. apply set_outer_trajectory_same.
  - match goal with
    | |- context [fold_left ?f l ?s] => destruct (IH s) as [ot ->]
    end.
    exists ot. reflexivity.
Qed.

Lemma periodic_init_only (env : Env fl) (st : State fl) :
  exists ft ot,
    periodic_init env st =
    set_initialized true (set_full_trajectory ft (set_outer_trajectory ot st)).
Proof.
  unfold periodic_init.
  match goal with
  | |- context [buildOuterTrajectory env (fold_left ?f ?l st)] =>
      assert (Hf : forall s b, exists ft, f s b = set_full_trajectory ft s);
      [| destruct (fold_left_only_full_trajectory f Hf l st) as [ft1 ->]; clear Hf]
  end.
  { intros s b. eexists. reflexivity. }
  destruct (buildOuterTrajectory_only env (set_full_trajectory ft1 st)) as [ot ->].
  match goal with
  | |- context [fold_left ?f ?l ?s0] =>
      assert (Hf : forall s b, exists ft, f s b = set_full_trajectory ft s);
      [| destruct (fold_left_only_full_trajectory f Hf l s0) as [ft3 ->]]
  end.
  { intros s b. apply buildInnerTrajectory_only. }
  exists ft3, ot. reflexivity.
Qed.

Lemma periodic_rebuild_only (st : State fl) :
  exists u ft,
    periodic_rebuild st = set_obstacle_map_updated u (set_full_trajectory ft st).
Proof.
  unfold periodic_rebuild. destruct (obstacle_map_updated st) eqn:E.
  - destruct (updateTrajectory_only (subtraj_index st) st) as [ft ->].
    exists false, ft. reflexivity.
  - exists false, (full_trajectory st). destruct st; simpl in *; subst; reflexivity.
Qed.

Lemma periodic_inner_only (st : State fl) :
  exists ii log, periodic_inner st = set_inner_index ii (set_nav_log log st).
Proof.
  unfold periodic_inner, moveWaypointNext, moveWaypoint, nav_call.
  destruct (fltb (mse_inner st) f_half && trajectory_updated st).
  - match goal with |- context [if ?b then _ else _] => destruct b end.
    + eexists _, _. reflexivity.
    + exists (inner_index st). eexists.
      exact (eq_sym (set_inner_index_same (set_nav_log _ st))).
  - exists (inner_index st), (nav_log st). destruct st; reflexivity.
Qed.

Lemma periodic_outer_only (st : State fl) :
  exists oi ii si tu ft log,
    periodic_outer st =
    set_trajectory_updated tu
      (set_full_trajectory ft
         (set_nav_log log
            (set_inner_index ii (set_subtraj_index si (set_outer_index oi st))))).
Proof.
  unfold periodic_outer.
  destruct (fltb (mse_outer st) f_half).
  - destruct (outer_index st <? OUTER_TRAJECTORY_LENGTH - 1); cbv zeta;
      rewrite updateTrajectory_true;
      match goal with
      | |- context [snd (updateTrajectory ?k ?s)] =>
          destruct (updateTrajectory_only k s) as [ft ->]
      end;
      unfold moveWaypointNext, moveWaypoint, nav_call;
      eexists _, _, _, _, _, _; reflexivity.
  - exists (outer_index st), (inner_index st), (subtraj_index st),
      (trajectory_updated st), (full_trajectory st), (nav_log st).
    destruct st; reflexivity.
Qed.

(** What each block of the periodic function leaves alone. *)
Lemma periodic_setup_keeps (env : Env fl) (st : State fl) :
  let st' := periodic_setup env st in
  mse_outer st' = mse_outer st /\ mse_inner st' = mse_inner st /\
  outer_index st' = outer_index st /\ inner_index st' = inner_index st /\
  subtraj_index st' = subtraj_index st /\
  trajectory_updated st' = trajectory_updated st /\
  n_obstacles st' = n_obstacles st /\
  obstacle_map_updated st' = obstacle_map_updated st /\
  obstacle_map st' = obstacle_map st /\ nav_log st' = nav_log st.
Proof.
  unfold periodic_setup. destruct (initialized st).
  - repeat split.
  - destruct (periodic_init_only env st) as (ft & ot & ->). repeat split.
Qed.

Lemma periodic_rebuild_keeps (st : State fl) :
  let st' := periodic_rebuild st in
  mse_outer st' = mse_outer st /\ mse_inner st' = mse_inner st /\
  outer_index st' = outer_index st /\ inner_index st' = inner_index st /\
  subtraj_index st' = subtraj_index st /\
  trajectory_updated st' = trajectory_updated st /\
  n_obstacles st' = n_obstacles st /\ initialized st' = initialized st /\
  outer_trajectory st' = outer_trajectory st /\
  obstacle_map st' = obstacle_map st /\ nav_log st' = nav_log st.
Proof.
  destruct (periodic_rebuild_only st) as (u & ft & ->). repeat split.
Qed.

Lemma periodic_inner_keeps (st : State fl) :
  let st' := periodic_inner st in
  mse_outer st' = mse_outer st /\ mse_inner st' = mse_inner st /\
  outer_index st' = outer_index st /\ subtraj_index st' = subtraj_index st /\
  trajectory_updated st' = trajectory_updated st /\
  n_obstacles st' = n_obstacles st /\
  obstacle_map_updated st' = obstacle_map_updated st /\
  initialized st' = initialized st /\
  outer_trajectory st' = outer_trajectory st /\
  full_trajectory st' = full_trajectory st /\
  obstacle_map st' = obstacle_map st.
Proof.
  destruct (periodic_inner_only st) as (ii & log & ->). repeat split.
Qed.

Lemma periodic_outer_keeps (st : State fl) :
  let st' := periodic_outer st in
  mse_outer st' = mse_outer st /\ mse_inner st' = mse_inner st /\
  n_obstacles st' = n_obstacles st /\
  obstacle_map_updated st' = obstacle_map_updated st /\
  initialized st' = initialized st /\
  outer_trajectory st' = outer_trajectory st /\
  obstacle_map st' = obstacle_map st.
Proof.
  destruct (periodic_outer_only st) as (oi & ii & si & tu & ft & log & ->).
  repeat split.
Qed.

(** Rewrites with every equation of a conjunction. *)
Ltac rewrite_conj h :=
  lazymatch type of h with
  | _ /\ _ =>
      let e := fresh "e" in
      let r := fresh "r" in
      destruct h as [e r]; try rewrite !e; clear e; rewrite_conj r
  | _ => try rewrite !h; clear h
  end.

Ltac rewrite_each H :=
  let h := fresh "h" in
  pose proof H as h; cbv zeta in h; rewrite_conj h.

(** Removes the blocks of the periodic function from under the globals
    they leave alone. *)
Ltac frame :=
  norm_state;
  repeat (match goal with
          | |- context [periodic_outer ?s] => rewrite_each (periodic_outer_keeps s)
          | |- context [periodic_inner ?s] => rewrite_each (periodic_inner_keeps s)
          | |- context [periodic_rebuild ?s] => rewrite_each (periodic_rebuild_keeps s)
          | |- context [periodic_setup ?e ?s] => rewrite_each (periodic_setup_keeps e s)
          end; norm_state).

(** The periodic function leaves the obstacle map alone. *)
Lemma periodic_keeps_map (env : Env fl) (st : State fl) :
  n_obstacles (orange_avoider_periodic env st) = n_obstacles st /\
  obstacle_map (orange_avoider_periodic env st) = obstacle_map st.
Proof.
  unfold orange_avoider_periodic. cbv zeta. split; frame; reflexivity.
Qed.

(** *** The obstacle map *)

Lemma too_close_true (d : fl) :
  too_close d = true <-> fltb d (f_of_int 1) = true \/ feqb d d = false.
Proof. unfold too_close. rewrite orb_true_iff, negb_true_iff. reflexivity. Qed.

Lemma checkObstaclePresence_loop_true (idxs : list Z) (m : list Obstacle) (px py : Z) :
  checkObstaclePresence_loop idxs m px py = true <->
  exists i, i ∈ idxs /\
    too_close (obstacle_distance (arr_get zero_obstacle m i) px py) = true.
Proof.
  induction idxs as [| j idxs IH]; simpl.
  - split; [discriminate |]. intros (i & Hi & _). apply elem_of_nil in Hi. destruct Hi.
  - destruct (too_close (obstacle_distance (arr_get zero_obstacle m j) px py)) eqn:Hj.
    + split; [| reflexivity]. intros _. exists j. split; [left | exact Hj].
    + rewrite IH. split.
      * intros (i & Hi & Hc). exists i. split; [right; exact Hi | exact Hc].
      * intros (i & Hi & Hc). apply elem_of_cons in Hi as [-> | Hi].
        -- rewrite Hj in Hc. discriminate.
        -- exists i. split; assumption.
Qed.

Lemma checkObstaclePresence_true (st : State fl) (px py : Z) :
  checkObstaclePresence st (obstacle_map st) px py = true <-> already_present st px py.
Proof.
  unfold checkObstaclePresence, already_present.
  rewrite checkObstaclePresence_loop_true.
  split; intros (i & Hi & Hc); exists i.
  - split; [apply elem_of_loop_range, Hi | apply too_close_true, Hc].
  - split; [apply elem_of_loop_range, Hi | apply too_close_true, Hc].
Qed.

Lemma tryInsert_rejected (st : State fl) (px py : Z) :
  checkObstaclePresence st (obstacle_map st) px py = true \/
  MAX_OBSTACLES_IN_MAP <= n_obstacles st ->
  tryInsert px py st = (false, st).
Proof.
  intros H. unfold tryInsert.
  destruct H as [-> | Hfull]; [reflexivity |].
  apply Z.ltb_ge in Hfull as ->. rewrite andb_false_r. reflexivity.
Qed.

Lemma tryInsert_accepted (st : State fl) (px py : Z) :
  checkObstaclePresence st (obstacle_map st) px py = false ->
  n_obstacles st < MAX_OBSTACLES_IN_MAP ->
  tryInsert px py st =
    (true,
     set_obstacle_map_updated true
       (set_obstacle_map
          (arr_set (obstacle_map st) (to_u8 (n_obstacles st + 1) - 1)
             {| loc := {| x := px; y := py |} |})
          (set_n_obstacles (to_u8 (n_obstacles st + 1)) st))).
Proof.
  intros Hc Hn. unfold tryInsert. rewrite Hc.
  apply Z.ltb_lt in Hn as ->. reflexivity.
Qed.

(** An insertion is rejected, or it stores the position in slot
    [n_obstacles]. *)
Lemma tryInsert_cases (st : State fl) (px py : Z) :
  map_wf st ->
  MAX_OBSTACLES_IN_MAP <= 255 ->
  snd (tryInsert px py st) = st \/
  (fst (tryInsert px py st) = true /\
   n_obstacles (snd (tryInsert px py st)) = n_obstacles st + 1 /\
   obstacle_map (snd (tryInsert px py st)) =
     <[Z.to_nat (n_obstacles st) := {| loc := {| x := px; y := py |} |}]> (obstacle_map st) /\
   obstacle_map (snd (tryInsert px py st)) !! Z.to_nat (n_obstacles st) =
     Some {| loc := {| x := px; y := py |} |}).
Proof.
  intros [Hn Hlen] Hmax.
  destruct (checkObstaclePresence st (obstacle_map st) px py) eqn:Hc.
  { left. rewrite tryInsert_rejected by (left; exact Hc). reflexivity. }
  destruct (Z.lt_ge_cases (n_obstacles st) MAX_OBSTACLES_IN_MAP) as [Hlt | Hge].
  2: { left. rewrite tryInsert_rejected by (right; exact Hge). reflexivity. }
  right. rewrite (tryInsert_accepted st px py Hc Hlt). cbn [fst snd]. norm_state.
  rewrite to_u8_small by lia.
  replace (n_obstacles st + 1 - 1) with (n_obstacles st) by lia.
  unfold arr_set. destruct (Z.leb_spec 0 (n_obstacles st)) as [_ | Hneg]; [| lia].
  repeat split. apply list_lookup_insert_eq. lia.
Qed.

(** C1. Insertion into the obstacle map. When an obstacle of the map lies
    within distance 1.0 of the position, or the distance computed for one
    is not a number, the insertion returns false and leaves the globals,
    so the map and [n_obstacles], as they were. Otherwise, when
    [n_obstacles] is below the capacity, the insertion succeeds, the
    position is stored in the first free slot and [n_obstacles] grows by
    exactly 1. *)
Theorem C1_tryInsert (st : State fl) (px py : Z) :
  map_wf st ->
  MAX_OBSTACLES_IN_MAP <= 255 ->
  (already_present st px py -> tryInsert px py st = (false, st)) /\
  (~ already_present st px py ->
   n_obstacles st < MAX_OBSTACLES_IN_MAP ->
   let st' := snd (tryInsert px py st) in
   fst (tryInsert px py st) = true /\
   n_obstacles st' = n_obstacles st + 1 /\
   obstacle_map st' =
     <[Z.to_nat (n_obstacles st) := {| loc := {| x := px; y := py |} |}]> (obstacle_map st) /\
   obstacle_map st' !! Z.to_nat (n_obstacles st) =
     Some {| loc := {| x := px; y := py |} |}).
Proof.
  intros [Hn Hlen] Hmax. split.
  - intros Hp. apply tryInsert_rejected. left. apply checkObstaclePresence_true, Hp.
  - intros Hnp Hlt.
    assert (Hc : checkObstaclePresence st (obstacle_map st) px py = false).
    { destruct (checkObstaclePresence st (obstacle_map st) px py) eqn:E; [| reflexivity].
      apply checkObstaclePresence_true in E. contradiction. }
    rewrite (tryInsert_accepted st px py Hc Hlt). simpl.
    rewrite to_u8_small by lia.
    replace (n_obstacles st + 1 - 1) with (n_obstacles st) by lia.
    unfold arr_set. destruct (Z.leb_spec 0 (n_obstacles st)) as [_ | Hneg]; [| lia].
    repeat split. apply list_lookup_insert_eq. lia.
Qed.


(** *** The capacity of the obstacle map *)

Lemma tryInsert_map_wf (st : State fl) (px py : Z) :
  map_wf st -> map_wf (snd (tryInsert px py st)).
Proof.
  intros [Hn Hlen]. unfold tryInsert.
  destruct (negb _ && (n_obstacles st <? MAX_OBSTACLES_IN_MAP)) eqn:E; [| split; assumption].
  apply andb_true_iff in E as [_ Hlt]. apply Z.ltb_lt in Hlt.
  unfold map_wf. norm_state. cbn [snd]. norm_state.
  rewrite length_arr_set. split; [| exact Hlen].
  pose proof (to_u8_range (n_obstacles st + 1)) as Hr.
  destruct (Z.lt_ge_cases (n_obstacles st + 1) 256) as [Hs | Hs].
  - rewrite to_u8_small by lia. lia.
  - lia.
Qed.

Lemma color_detection_cb_body_map_wf (env : Env fl) (acc : State fl * ObstacleMsg fl) (i : Z) :
  map_wf (fst acc) -> map_wf (fst (color_detection_cb_body env acc i)).
Proof.
  intros Hwf. unfold color_detection_cb_body.
  destruct (fgeb _ _); cbn [fst]; [apply tryInsert_map_wf |]; exact Hwf.
Qed.

Lemma color_detection_cb_map_wf (env : Env fl) (msg : ObstacleMsg fl) (st : State fl) :
  map_wf st -> map_wf (fst (color_detection_cb env msg st)).
Proof.
  intros Hwf. unfold color_detection_cb.
  apply (fold_left_invariant (color_detection_cb_body env) (fun acc => map_wf (fst acc))).
  - intros acc i. apply color_detection_cb_body_map_wf.
  - exact Hwf.
Qed.

Lemma periodic_map_wf (env : Env fl) (st : State fl) :
  map_wf st -> map_wf (orange_avoider_periodic env st).
Proof.
  unfold map_wf. destruct (periodic_keeps_map env st) as [-> ->]. tauto.
Qed.

Lemma step_map_wf (st : State fl) (ev : Event fl) : map_wf st -> map_wf (step st ev).
Proof.
  destruct ev as [env msg | env]; cbn [step].
  - apply color_detection_cb_map_wf.
  - apply periodic_map_wf.
Qed.

Lemma initial_state_map_wf : 0 <= MAX_OBSTACLES_IN_MAP -> map_wf initial_state.
Proof.
  intros Hmax. unfold map_wf, initial_state. norm_state.
  rewrite length_replicate. lia.
Qed.

Lemma run_map_wf (evs : list (Event fl)) (st : State fl) :
  map_wf st -> map_wf (run evs st).
Proof. apply fold_left_invariant. intros s ev. apply step_map_wf. Qed.

(** With a full map the callback changes nothing, whatever the message. *)
Lemma color_detection_cb_full (env : Env fl) (msg : ObstacleMsg fl) (st : State fl) :
  MAX_OBSTACLES_IN_MAP <= n_obstacles st ->
  fst (color_detection_cb env msg st) = st.
Proof.
  intros Hfull. unfold color_detection_cb.
  apply (fold_left_invariant (color_detection_cb_body env) (fun acc => fst acc = st));
    [| reflexivity].
  intros acc i Hacc. unfold color_detection_cb_body.
  destruct (fgeb _ _); cbn [fst]; [| exact Hacc].
  rewrite Hacc, tryInsert_rejected by (right; exact Hfull). reflexivity.
Qed.

(** C4. After any sequence of executions of the detection callback and of
    the periodic function from program start, [n_obstacles] is at most
    [MAX_OBSTACLES_IN_MAP], and it stays so after any number of iterations
    of the loop of a further callback; and once the map is full a further
    execution of the callback, whatever detections its message carries,
    changes neither the map nor any other global. *)
Theorem C4_capacity (evs : list (Event fl)) :
  0 <= MAX_OBSTACLES_IN_MAP ->
  let st := run evs initial_state in
  n_obstacles st <= MAX_OBSTACLES_IN_MAP /\
  (forall env msg idxs,
     n_obstacles (fst (fold_left (color_detection_cb_body env) idxs (st, msg))) <=
     MAX_OBSTACLES_IN_MAP) /\
  (n_obstacles st = MAX_OBSTACLES_IN_MAP ->
   forall env msg, fst (color_detection_cb env msg st) = st).
Proof.
  intros Hmax st.
  assert (Hwf : map_wf st) by apply (run_map_wf evs initial_state (initial_state_map_wf Hmax)).
  split; [apply Hwf |]. split.
  - intros env msg idxs.
    apply (fold_left_invariant (color_detection_cb_body env)
             (fun acc : State fl * ObstacleMsg fl => map_wf (fst acc))); [| exact Hwf].
    intros acc i. apply color_detection_cb_body_map_wf.
  - intros Hfull env msg. apply color_detection_cb_full. lia.
Qed.

(** *** Segments of the full trajectory *)

Lemma arr_set_out_of_range {A : Type} (a : list A) (i : Z) (v : A) :
  ~ 0 <= i < Z.of_nat (length a) -> arr_set a i v = a.
Proof.
  intros Hi. unfold arr_set. destruct (Z.leb_spec 0 i) as [Hlo | Hlo]; [| reflexivity].
  apply list_insert_ge. lia.
Qed.

Lemma segment_set_inner_point_eq (k i : Z) (p : EnuCoor_i) (st : State fl) :
  0 <= k < Z.of_nat (length (full_trajectory st)) ->
  segment (set_inner_point k i p st) k =
  {| inner_trajectory := arr_set (inner_trajectory (segment st k)) i p;
     size := size (segment st k) |}.
Proof.
  intros Hk. unfold segment at 1, set_inner_point. norm_state.
  apply arr_get_set_eq. exact Hk.
Qed.

Lemma segment_set_inner_point_ne (k k' i : Z) (p : EnuCoor_i) (st : State fl) :
  k <> k' -> segment (set_inner_point k i p st) k' = segment st k'.
Proof.
  intros Hk. unfold segment, set_inner_point. norm_state.
  apply arr_get_set_ne. exact Hk.
Qed.

Lemma size_set_inner_point (k k' i : Z) (p : EnuCoor_i) (st : State fl) :
  size (segment (set_inner_point k i p st) k') = size (segment st k').
Proof.
  destruct (decide (k = k')) as [<- | Hne].
  - destruct (decide (0 <= k < Z.of_nat (length (full_trajectory st)))) as [Hk | Hk].
    + rewrite segment_set_inner_point_eq by exact Hk. reflexivity.
    + unfold segment, set_inner_point. norm_state.
      rewrite arr_set_out_of_range by exact Hk. reflexivity.
  - rewrite segment_set_inner_point_ne by exact Hne. reflexivity.
Qed.

Lemma length_full_trajectory_set_inner_point (k i : Z) (p : EnuCoor_i) (st : State fl) :
  length (full_trajectory (set_inner_point k i p st)) = length (full_trajectory st).
Proof. unfold set_inner_point. norm_state. apply length_arr_set. Qed.

Lemma length_inner_set_inner_point (k k' i : Z) (p : EnuCoor_i) (st : State fl) :
  length (inner_trajectory (segment (set_inner_point k i p st) k')) =
  length (inner_trajectory (segment st k')).
Proof.
  destruct (decide (k = k')) as [<- | Hne].
  - destruct (decide (0 <= k < Z.of_nat (length (full_trajectory st)))) as [Hk | Hk].
    + rewrite segment_set_inner_point_eq by exact Hk. cbn [inner_trajectory].
      apply length_arr_set.
    + unfold segment, set_inner_point. norm_state.
      rewrite arr_set_out_of_range by exact Hk. reflexivity.
  - rewrite segment_set_inner_point_ne by exact Hne. reflexivity.
Qed.

(** The slot read after a store into a segment. *)
Lemma point_set_inner_point_eq (k i : Z) (p : EnuCoor_i) (st : State fl) :
  0 <= k < Z.of_nat (length (full_trajectory st)) ->
  0 <= i < Z.of_nat (length (inner_trajectory (segment st k))) ->
  arr_get zero_coor (inner_trajectory (segment (set_inner_point k i p st) k)) i = p.
Proof.
  intros Hk Hi. rewrite segment_set_inner_point_eq by exact Hk. cbn [inner_trajectory].
  apply arr_get_set_eq. exact Hi.
Qed.

Lemma point_set_inner_point_ne (k k' i j : Z) (p : EnuCoor_i) (st : State fl) :
  k <> k' \/ i <> j ->
  arr_get zero_coor (inner_trajectory (segment (set_inner_point k i p st) k')) j =
  arr_get zero_coor (inner_trajectory (segment st k')) j.
Proof.
  intros Hne. destruct (decide (k = k')) as [<- | Hk].
  - destruct Hne as [Hne | Hne]; [contradiction |].
    destruct (decide (0 <= k < Z.of_nat (length (full_trajectory st)))) as [Hr | Hr].
    + rewrite segment_set_inner_point_eq by exact Hr. cbn [inner_trajectory].
      apply arr_get_set_ne. exact Hne.
    + unfold segment, set_inner_point. norm_state.
      rewrite arr_set_out_of_range by exact Hr. reflexivity.
  - rewrite segment_set_inner_point_ne by exact Hk. reflexivity.
Qed.

Lemma segment_set_segment_size_eq (k v : Z) (st : State fl) :
  0 <= k < Z.of_nat (length (full_trajectory st)) ->
  segment (set_segment_size k v st) k =
  {| inner_trajectory := inner_trajectory (segment st k); size := v |}.
Proof.
  intros Hk. unfold segment at 1, set_segment_size. norm_state.
  apply arr_get_set_eq. exact Hk.
Qed.

Lemma segment_set_segment_size_ne (k k' v : Z) (st : State fl) :
  k <> k' -> segment (set_segment_size k v st) k' = segment st k'.
Proof.
  intros Hk. unfold segment, set_segment_size. norm_state.
  apply arr_get_set_ne. exact Hk.
Qed.

Lemma inner_set_segment_size (k k' v : Z) (st : State fl) :
  inner_trajectory (segment (set_segment_size k v st) k') =
  inner_trajectory (segment st k').
Proof.
  destruct (decide (k = k')) as [<- | Hne].
  - destruct (decide (0 <= k < Z.of_nat (length (full_trajectory st)))) as [Hk | Hk].
    + rewrite segment_set_segment_size_eq by exact Hk. reflexivity.
    + unfold segment, set_segment_size. norm_state.
      rewrite arr_set_out_of_range by exact Hk. reflexivity.
  - rewrite segment_set_segment_size_ne by exact Hne. reflexivity.
Qed.

Lemma length_full_trajectory_set_segment_size (k v : Z) (st : State fl) :
  length (full_trajectory (set_segment_size k v st)) = length (full_trajectory st).
Proof. unfold set_segment_size. norm_state. apply length_arr_set. Qed.

(** *** The optimizer adapter *)

Lemma updateTrajectory_body_is_store (new_inner : OptimizedTrajectory) (k : Z)
    (st : State fl) (i : Z) :
  updateTrajectory_body new_inner k st i =
  set_inner_point (subtraj_index st) i
    (if i <? size (segment st k) then arr_get zero_coor (buf new_inner) i else zero_coor)
    st.
Proof. unfold updateTrajectory_body. destruct (i <? size (segment st k)); reflexivity. Qed.

(** What the copy loop keeps: the active segment index, the size the
    pointer addresses and the shape of the storage. *)
Lemma updateTrajectory_body_keeps (new_inner : OptimizedTrajectory) (k a new_size : Z)
    (n m : nat) (st : State fl) (i : Z) :
  subtraj_index st = a /\ size (segment st k) = new_size /\
  length (full_trajectory st) = n /\ length (inner_trajectory (segment st a)) = m ->
  let st' := updateTrajectory_body new_inner k st i in
  subtraj_index st' = a /\ size (segment st' k) = new_size /\
  length (full_trajectory st') = n /\ length (inner_trajectory (segment st' a)) = m.
Proof.
  intros (Ha & Hs & Hn & Hm). cbv zeta. rewrite updateTrajectory_body_is_store.
  rewrite size_set_inner_point, length_full_trajectory_set_inner_point,
    length_inner_set_inner_point.
  repeat split; assumption.
Qed.

Lemma updateTrajectory_loop (new_inner : OptimizedTrajectory) (k new_size : Z)
    (l : list Z) (st : State fl) (i : Z) :
  size (segment st k) = new_size ->
  0 <= subtraj_index st < Z.of_nat (length (full_trajectory st)) ->
  Forall (fun j => 0 <= j <
            Z.of_nat (length (inner_trajectory (segment st (subtraj_index st))))) l ->
  arr_get zero_coor
    (inner_trajectory
       (segment (fold_left (updateTrajectory_body new_inner k) l st) (subtraj_index st))) i =
  if decide (i ∈ l)
  then (if i <? new_size then arr_get zero_coor (buf new_inner) i else zero_coor)
  else arr_get zero_coor (inner_trajectory (segment st (subtraj_index st))) i.
Proof.
  intros Hs Ha Hl.
  set (a := subtraj_index st) in *.
  set (n := length (full_trajectory st)) in *.
  set (m := length (inner_trajectory (segment st a))) in *.
  apply (fold_left_slots (updateTrajectory_body new_inner k)
           (fun (s : State fl) j => arr_get zero_coor (inner_trajectory (segment s a)) j)
           (fun j => if j <? new_size then arr_get zero_coor (buf new_inner) j else zero_coor)
           (fun s : State fl => subtraj_index s = a /\ size (segment s k) = new_size /\
                     length (full_trajectory s) = n /\
                     length (inner_trajectory (segment s a)) = m)
           (fun j => 0 <= j < Z.of_nat m)).
  - intros s j Hinv _. apply updateTrajectory_body_keeps, Hinv.
  - intros s j (Ha' & Hs' & Hn' & Hm') Hj. rewrite updateTrajectory_body_is_store.
    rewrite Ha', Hs'. apply point_set_inner_point_eq; [rewrite Hn' | rewrite Hm']; assumption.
  - intros s j i' (Ha' & Hs' & Hn' & Hm') Hj Hne. rewrite updateTrajectory_body_is_store.
    apply point_set_inner_point_ne. right. congruence.
  - repeat split; assumption.
  - exact Hl.
Qed.

Lemma updateTrajectory_loop_keeps (new_inner : OptimizedTrajectory) (k : Z)
    (l : list Z) (st : State fl) :
  let st' := fold_left (updateTrajectory_body new_inner k) l st in
  subtraj_index st' = subtraj_index st /\ size (segment st' k) = size (segment st k).
Proof.
  cbv zeta.
  pose proof (fold_left_invariant (updateTrajectory_body new_inner k)
    (fun s : State fl => subtraj_index s = subtraj_index st /\
              size (segment s k) = size (segment st k) /\
              length (full_trajectory s) = length (full_trajectory st) /\
              length (inner_trajectory (segment s (subtraj_index st))) =
              length (inner_trajectory (segment st (subtraj_index st))))) as H.
  destruct (H (fun s b Hs => updateTrajectory_body_keeps new_inner k _ _ _ _ s b Hs) l st)
    as (H1 & H2 & _); [repeat split | split; assumption].
Qed.

(** The segments after [updateTrajectory]. *)
Lemma updateTrajectory_spec (k : Z) (st : State fl) :
  let r := optimize_trajectory (obstacle_map st) (inner_trajectory (segment st k))
             (size (segment st k)) (n_obstacles st) in
  let new_size := to_u8 (snd r) in
  let st' := snd (updateTrajectory k st) in
  0 <= k < Z.of_nat (length (full_trajectory st)) ->
  0 <= subtraj_index st < Z.of_nat (length (full_trajectory st)) ->
  Z.of_nat (length (inner_trajectory (segment st (subtraj_index st)))) =
    INNER_TRAJECTORY_SPACE ->
  size (segment st' k) = new_size /\
  subtraj_index st' = subtraj_index st /\
  forall i, 0 <= i < INNER_TRAJECTORY_SPACE ->
    arr_get zero_coor (inner_trajectory (segment st' (subtraj_index st'))) i =
    if i <? new_size then arr_get zero_coor (buf (fst r)) i else zero_coor.
Proof.
  intros r new_size st' Hk Ha Hm.
  set (st1 := set_segment_size k new_size st).
  assert (Est : st' = fold_left (updateTrajectory_body (fst r) k)
                        (loop_range INNER_TRAJECTORY_SPACE) st1) by reflexivity.
  assert (Hs1 : size (segment st1 k) = new_size).
  { unfold st1. rewrite segment_set_segment_size_eq by exact Hk. reflexivity. }
  assert (Ha1 : subtraj_index st1 = subtraj_index st) by reflexivity.
  destruct (updateTrajectory_loop_keeps (fst r) k (loop_range INNER_TRAJECTORY_SPACE) st1)
    as [Hsub Hsize].
  rewrite <- Est in Hsub, Hsize.
  split; [congruence |]. split; [congruence |].
  intros i Hi. rewrite Hsub, Est.
  rewrite (updateTrajectory_loop (fst r) k new_size _ st1 i Hs1).
  - rewrite decide_True by (apply elem_of_loop_range; exact Hi). reflexivity.
  - rewrite Ha1. unfold st1. rewrite length_full_trajectory_set_segment_size. exact Ha.
  - rewrite Ha1. unfold st1. rewrite inner_set_segment_size, Hm.
    apply Forall_loop_range.
Qed.

(** The adapter keeps the sizes of the arrays. *)
Lemma updateTrajectory_storage (k : Z) (st : State fl) :
  storage_wf st -> storage_wf (snd (updateTrajectory k st)).
Proof.
  intros (Hot & Hft & Hin).
  assert (H : outer_trajectory (snd (updateTrajectory k st)) = outer_trajectory st /\
              length (full_trajectory (snd (updateTrajectory k st))) =
              length (full_trajectory st) /\
              forall k', length (inner_trajectory (segment (snd (updateTrajectory k st)) k')) =
                         length (inner_trajectory (segment st k'))).
  { unfold updateTrajectory. cbn [snd].
    match goal with
    | |- context [fold_left ?f ?l ?s0] =>
        apply (fold_left_invariant f
                 (fun s : State fl =>
                    outer_trajectory s = outer_trajectory st /\
                    length (full_trajectory s) = length (full_trajectory st) /\
                    forall k', length (inner_trajectory (segment s k')) =
                               length (inner_trajectory (segment st k'))))
    end.
    - intros s i (Ho & Hn & Hl). rewrite updateTrajectory_body_is_store.
      rewrite length_full_trajectory_set_inner_point.
      repeat split; [exact Ho | exact Hn |].
      intros k'. rewrite length_inner_set_inner_point. apply Hl.
    - rewrite length_full_trajectory_set_segment_size.
      repeat split. intros k'. rewrite inner_set_segment_size. reflexivity. }
  destruct H as (Ho & Hn & Hl). unfold storage_wf. rewrite Ho, Hn.
  repeat split; [exact Hot | exact Hft |].
  intros k' Hk'. rewrite Hl. apply Hin, Hk'.
Qed.

(** C2. A call of [updateTrajectory] whose pointers address segment [k]
    returns true; with [new_size] the size the optimizer left behind the
    [size] pointer, the first [new_size] points of the active segment are
    those of the optimizer's buffer and every point from index [new_size]
    to [INNER_TRAJECTORY_SPACE-1] is (0,0). *)
Theorem C2_updateTrajectory (k : Z) (st : State fl) :
  let r := optimize_trajectory (obstacle_map st) (inner_trajectory (segment st k))
             (size (segment st k)) (n_obstacles st) in
  let new_size := to_u8 (snd r) in
  let st' := snd (updateTrajectory k st) in
  0 <= k < Z.of_nat (length (full_trajectory st)) ->
  0 <= subtraj_index st < Z.of_nat (length (full_trajectory st)) ->
  Z.of_nat (length (inner_trajectory (segment st (subtraj_index st)))) =
    INNER_TRAJECTORY_SPACE ->
  fst (updateTrajectory k st) = true /\
  size (segment st' k) = new_size /\
  subtraj_index st' = subtraj_index st /\
  (forall i, 0 <= i < new_size -> i < INNER_TRAJECTORY_SPACE ->
     arr_get zero_coor (inner_trajectory (segment st' (subtraj_index st'))) i =
     arr_get zero_coor (buf (fst r)) i) /\
  (forall i, new_size <= i < INNER_TRAJECTORY_SPACE ->
     arr_get zero_coor (inner_trajectory (segment st' (subtraj_index st'))) i = zero_coor).
Proof.
  intros r new_size st' Hk Ha Hm.
  destruct (updateTrajectory_spec k st Hk Ha Hm) as (Hsize & Hsub & Hpoint).
  fold r in Hsize, Hpoint. fold new_size in Hsize, Hpoint. fold st' in Hsize, Hsub, Hpoint.
  split; [reflexivity |]. split; [exact Hsize |]. split; [exact Hsub |]. split.
  - intros i Hi Hi'. rewrite Hpoint by lia.
    destruct (Z.ltb_spec i new_size); [reflexivity | lia].
  - intros i Hi.
    rewrite Hpoint by (pose proof (to_u8_range (snd r)); unfold new_size in *; lia).
    destruct (Z.ltb_spec i new_size); [lia | reflexivity].
Qed.

(** *** The state machine: arrival at an outer waypoint *)

(** The adapter leaves every global but the full trajectory as it finds it. *)
Lemma updateTrajectory_keeps (k : Z) (st : State fl) :
  let st' := snd (updateTrajectory k st) in
  mse_outer st' = mse_outer st /\ mse_inner st' = mse_inner st /\
  outer_index st' = outer_index st /\ inner_index st' = inner_index st /\
  subtraj_index st' = subtraj_index st /\
  trajectory_updated st' = trajectory_updated st /\
  n_obstacles st' = n_obstacles st /\
  obstacle_map_updated st' = obstacle_map_updated st /\
  initialized st' = initialized st /\
  outer_trajectory st' = outer_trajectory st /\
  obstacle_map st' = obstacle_map st /\ nav_log st' = nav_log st.
Proof.
  cbv zeta. destruct (updateTrajectory_only k st) as [ft ->]. repeat split.
Qed.

(** The state in which the block under [if (mse_outer < 0.5)] calls
    [updateTrajectory]. *)
Lemma periodic_outer_taken (st : State fl) :
  fltb (mse_outer st) f_half = true ->
  exists before,
    periodic_outer st =
      set_trajectory_updated (fst (updateTrajectory (subtraj_index before) before))
        (snd (updateTrajectory (subtraj_index before) before)) /\
    outer_index before =
      (if outer_index st <? OUTER_TRAJECTORY_LENGTH - 1
       then to_u8 (outer_index st + 1) else 0) /\
    subtraj_index before =
      (if outer_index st <? OUTER_TRAJECTORY_LENGTH - 1
       then to_u8 (to_u8 (outer_index st + 1) - 1)
       else to_u8 (OUTER_TRAJECTORY_LENGTH - 1)) /\
    inner_index before = 0 /\
    outer_trajectory before = outer_trajectory st /\
    nav_log before =
      nav_log st ++
      [waypoint_move_xy_i WP_OUTER
         (x (arr_get zero_coor (outer_trajectory st) (outer_index before)))
         (y (arr_get zero_coor (outer_trajectory st) (outer_index before)))].
Proof.
  intros Hlt. unfold periodic_outer. rewrite Hlt.
  destruct (outer_index st <? OUTER_TRAJECTORY_LENGTH - 1); cbv zeta;
    (eexists; split; [reflexivity |]);
    unfold moveWaypointNext, moveWaypoint; norm_state; repeat split.
Qed.

(** *** The one-time setup *)

(** The loop of [buildOuterTrajectory] as a loop on the array. *)
Lemma buildOuterTrajectory_body_fold (rx ry : list fl) (l : list Z) (st : State fl) :
  fold_left (buildOuterTrajectory_body rx ry) l st =
  set_outer_trajectory
    (fold_left
       (fun a i => arr_set a i {| x := POS_BFP_OF_REAL (arr_get (f_of_int 0) rx i);
                                  y := POS_BFP_OF_REAL (arr_get (f_of_int 0) ry i) |})
       l (outer_trajectory st)) st.
Proof.
  revert st. induction l as [| i l IH]; intros st; simpl.
  - symmetry. apply set_outer_trajectory_same.
  - rewrite IH. reflexivity.
Qed.

Lemma buildOuterTrajectory_point (env : Env fl) (st : State fl) (i : Z) :
  Z.of_nat (length (outer_trajectory st)) = OUTER_TRAJECTORY_LENGTH ->
  0 <= i < OUTER_TRAJECTORY_LENGTH ->
  arr_get zero_coor (outer_trajectory (buildOuterTrajectory env st)) i =
  {| x := POS_BFP_OF_REAL
            (arr_get (f_of_int 0)
               [GetPosX env; f_of_int 2; f_of_int 2; f_of_int 0; f_of_int 0] i);
     y := POS_BFP_OF_REAL
            (arr_get (f_of_int 0)
               [GetPosY env; f_of_int 2; f_of_int (-2); f_of_int 0; f_of_int 0] i) |}.
Proof.
  intros Hlen Hi. unfold buildOuterTrajectory. cbv zeta.
  rewrite buildOuterTrajectory_body_fold. norm_state.
  rewrite fold_arr_set_get by (rewrite Hlen; apply Forall_loop_range).
  rewrite decide_True by (apply elem_of_loop_range; exact Hi). reflexivity.
Qed.

Lemma length_buildOuterTrajectory (env : Env fl) (st : State fl) :
  length (outer_trajectory (buildOuterTrajectory env st)) = length (outer_trajectory st).
Proof.
  unfold buildOuterTrajectory. cbv zeta.
  rewrite buildOuterTrajectory_body_fold. norm_state.
  apply (fold_left_invariant _ (fun a => length a = length (outer_trajectory st)));
    [| reflexivity].
  intros a j Ha. rewrite length_arr_set. exact Ha.
Qed.

(** What the loop body of [buildInnerTrajectory] keeps. *)
Lemma buildInnerTrajectory_keeps (k : Z) (st : State fl) :
  let st' := buildInnerTrajectory k st in
  outer_trajectory st' = outer_trajectory st /\
  length (full_trajectory st') = length (full_trajectory st) /\
  (forall k', size (segment st' k') = size (segment st k')) /\
  (forall k', length (inner_trajectory (segment st' k')) =
              length (inner_trajectory (segment st k'))).
Proof.
  cbv zeta. unfold buildInnerTrajectory. cbv zeta.
  apply (fold_left_invariant _
           (fun s : State fl =>
              outer_trajectory s = outer_trajectory st /\
              length (full_trajectory s) = length (full_trajectory st) /\
              (forall k', size (segment s k') = size (segment st k')) /\
              (forall k', length (inner_trajectory (segment s k')) =
                          length (inner_trajectory (segment st k'))))).
  - intros s j (Ho & Hn & Hs & Hm). unfold buildInnerTrajectory_body.
    repeat split.
    + exact Ho.
    + rewrite length_full_trajectory_set_inner_point. exact Hn.
    + intros k'. rewrite size_set_inner_point. apply Hs.
    + intros k'. rewrite length_inner_set_inner_point. apply Hm.
  - repeat split.
Qed.

Lemma buildInnerTrajectory_other (k k' : Z) (st : State fl) :
  k <> k' -> segment (buildInnerTrajectory k st) k' = segment st k'.
Proof.
  intros Hne. unfold buildInnerTrajectory. cbv zeta.
  apply (fold_left_invariant _
           (fun s : State fl => segment s k' = segment st k')); [| reflexivity].
  intros s j Hs. unfold buildInnerTrajectory_body.
  rewrite segment_set_inner_point_ne by exact Hne. exact Hs.
Qed.

(** The points [buildInnerTrajectory] leaves in its segment. *)
Lemma buildInnerTrajectory_point (k : Z) (st : State fl) (j : Z) :
  0 <= k < Z.of_nat (length (full_trajectory st)) ->
  INNER_TRAJECTORY_LENGTH <= Z.of_nat (length (inner_trajectory (segment st k))) ->
  0 <= j < INNER_TRAJECTORY_LENGTH ->
  arr_get zero_coor (inner_trajectory (segment (buildInnerTrajectory k st) k)) j =
  inner_point (arr_get zero_coor (outer_trajectory st) k)
    (arr_get zero_coor (outer_trajectory st) (actual_index k)) j.
Proof.
  intros Hk Hm Hj. unfold buildInnerTrajectory. cbv zeta.
  rewrite (fold_left_slots _
             (fun (s : State fl) i => arr_get zero_coor (inner_trajectory (segment s k)) i)
             (fun i => inner_point (arr_get zero_coor (outer_trajectory st) k)
                         (arr_get zero_coor (outer_trajectory st) (actual_index k)) i)
             (fun s : State fl =>
                outer_trajectory s = outer_trajectory st /\
                length (full_trajectory s) = length (full_trajectory st) /\
                length (inner_trajectory (segment s k)) =
                length (inner_trajectory (segment st k)))
             (fun i => 0 <= i < INNER_TRAJECTORY_LENGTH)).
  - rewrite decide_True by (apply elem_of_loop_range; exact Hj). reflexivity.
  - intros s i (Ho & Hn & Hl) _. unfold buildInnerTrajectory_body.
    rewrite length_full_trajectory_set_inner_point, length_inner_set_inner_point.
    repeat split; assumption.
  - intros s i (Ho & Hn & Hl) Hi. unfold buildInnerTrajectory_body. cbv zeta. rewrite Ho.
    apply point_set_inner_point_eq; [rewrite Hn | rewrite Hl]; lia.
  - intros s i i' _ _ Hne. unfold buildInnerTrajectory_body.
    apply point_set_inner_point_ne. right. congruence.
  - repeat split.
  - apply Forall_loop_range.
Qed.

Lemma size_after_loop (l : list Z) (st : State fl) (i v : Z) :
  i ∉ l ->
  size (segment st i) =
  size (segment (fold_left (fun s j => set_segment_size j v s) l st) i).
Proof.
  revert st. induction l as [| j l IH]; intros st Hnin; simpl; [reflexivity |].
  apply not_elem_of_cons in Hnin as [Hne Hnin].
  rewrite <- IH by exact Hnin.
  rewrite segment_set_segment_size_ne by congruence. reflexivity.
Qed.

(** The loop of the setup that sets the sizes. *)
Lemma set_sizes_loop (v : Z) (l : list Z) (st : State fl) :
  let st' := fold_left (fun s i => set_segment_size i v s) l st in
  outer_trajectory st' = outer_trajectory st /\
  length (full_trajectory st') = length (full_trajectory st) /\
  (forall k, inner_trajectory (segment st' k) = inner_trajectory (segment st k)) /\
  (forall k, 0 <= k < Z.of_nat (length (full_trajectory st)) -> k ∈ l ->
             size (segment st' k) = v).
Proof.
  cbv zeta. revert st. induction l as [| i l IH]; intros st; simpl.
  - repeat split. intros k _ Hk. apply elem_of_nil in Hk. destruct Hk.
  - destruct (IH (set_segment_size i v st)) as (Ho & Hn & Hin & Hsz).
    rewrite length_full_trajectory_set_segment_size in Hn, Hsz.
    repeat split.
    + rewrite Ho. reflexivity.
    + exact Hn.
    + intros k. rewrite Hin. apply inner_set_segment_size.
    + intros k Hk Hkl. destruct (decide (k ∈ l)) as [Hin' | Hnin]; [apply Hsz; assumption |].
      apply elem_of_cons in Hkl as [-> | Hkl]; [| contradiction].
      clear IH Hsz. revert Hnin.
      generalize (set_segment_size i v st) (segment_set_segment_size_eq i v st Hk).
      intros s Hs Hnin. rewrite <- (size_after_loop l s i v Hnin). rewrite Hs. reflexivity.
Qed.

(** The loop of the setup that builds the inner trajectories. *)
Lemma build_all_inner_keeps (l : list Z) (st : State fl) :
  let st' := fold_left (fun s i => buildInnerTrajectory (to_u8 i) s) l st in
  outer_trajectory st' = outer_trajectory st /\
  length (full_trajectory st') = length (full_trajectory st) /\
  (forall k', size (segment st' k') = size (segment st k')) /\
  (forall k', length (inner_trajectory (segment st' k')) =
              length (inner_trajectory (segment st k'))).
Proof.
  cbv zeta.
  apply (fold_left_invariant (fun s i => buildInnerTrajectory (to_u8 i) s)
           (fun s : State fl =>
              outer_trajectory s = outer_trajectory st /\
              length (full_trajectory s) = length (full_trajectory st) /\
              (forall k', size (segment s k') = size (segment st k')) /\
              (forall k', length (inner_trajectory (segment s k')) =
                          length (inner_trajectory (segment st k'))))).
  - intros s i (Ho & Hn & Hs & Hm).
    destruct (buildInnerTrajectory_keeps (to_u8 i) s) as (Ho' & Hn' & Hs' & Hm').
    repeat split.
    + congruence.
    + congruence.
    + intros k'. rewrite Hs'. apply Hs.
    + intros k'. rewrite Hm'. apply Hm.
  - repeat split.
Qed.

Lemma build_all_inner_point (l : list Z) (st : State fl) (k j : Z) :
  Forall (fun i => 0 <= i < 256 /\ i < Z.of_nat (length (full_trajectory st))) l ->
  (forall i, i ∈ l ->
     INNER_TRAJECTORY_LENGTH <= Z.of_nat (length (inner_trajectory (segment st i)))) ->
  k ∈ l ->
  0 <= j < INNER_TRAJECTORY_LENGTH ->
  arr_get zero_coor
    (inner_trajectory
       (segment (fold_left (fun s i => buildInnerTrajectory (to_u8 i) s) l st) k)) j =
  inner_point (arr_get zero_coor (outer_trajectory st) k)
    (arr_get zero_coor (outer_trajectory st) (actual_index k)) j.
Proof.
  intros Hl Hm Hk Hj.
  rewrite (fold_left_slots (fun s i => buildInnerTrajectory (to_u8 i) s)
             (fun (s : State fl) i => arr_get zero_coor (inner_trajectory (segment s i)) j)
             (fun i => inner_point (arr_get zero_coor (outer_trajectory st) i)
                         (arr_get zero_coor (outer_trajectory st) (actual_index i)) j)
             (fun s : State fl =>
                outer_trajectory s = outer_trajectory st /\
                length (full_trajectory s) = length (full_trajectory st) /\
                (forall k', length (inner_trajectory (segment s k')) =
                            length (inner_trajectory (segment st k'))))
             (fun i => (0 <= i < 256 /\ i < Z.of_nat (length (full_trajectory st))) /\
                       INNER_TRAJECTORY_LENGTH <=
                         Z.of_nat (length (inner_trajectory (segment st i))))).
  - rewrite decide_True by exact Hk. reflexivity.
  - intros s i (Ho & Hn & Hlen) _.
    destruct (buildInnerTrajectory_keeps (to_u8 i) s) as (Ho' & Hn' & _ & Hm').
    repeat split; [congruence | congruence |].
    intros k'. rewrite Hm'. apply Hlen.
  - intros s i (Ho & Hn & Hlen) [[Hi Hi'] Hmi].
    rewrite to_u8_small by exact Hi.
    rewrite buildInnerTrajectory_point; [rewrite Ho; reflexivity | | | exact Hj].
    + rewrite Hn. lia.
    + rewrite Hlen. exact Hmi.
  - intros s i i' _ [[Hi _] _] Hne. rewrite to_u8_small by exact Hi.
    rewrite buildInnerTrajectory_other by congruence. reflexivity.
  - repeat split.
  - apply Forall_forall. intros i Hi. split; [| apply Hm; exact Hi].
    rewrite Forall_forall in Hl. apply Hl, Hi.
Qed.

Lemma actual_index_mod (i : Z) :
  1 <= OUTER_TRAJECTORY_LENGTH <= 256 ->
  0 <= i < OUTER_TRAJECTORY_LENGTH ->
  actual_index i = (i + 1) mod OUTER_TRAJECTORY_LENGTH.
Proof.
  intros Hlen Hi. unfold actual_index.
  destruct (Z.eqb_spec i (OUTER_TRAJECTORY_LENGTH - 1)) as [-> | Hne].
  - replace (OUTER_TRAJECTORY_LENGTH - 1 + 1) with OUTER_TRAJECTORY_LENGTH by lia.
    rewrite Z.mod_same by lia. reflexivity.
  - rewrite to_u8_small by lia. rewrite Z.mod_small by lia. reflexivity.
Qed.

(** The state the one-time setup leaves. *)
Lemma periodic_init_spec (env : Env fl) (st : State fl) :
  storage_wf st ->
  1 <= OUTER_TRAJECTORY_LENGTH <= 256 ->
  0 <= INNER_TRAJECTORY_LENGTH <= INNER_TRAJECTORY_SPACE ->
  INNER_TRAJECTORY_LENGTH <= 255 ->
  let st' := periodic_init env st in
  initialized st' = true /\
  storage_wf st' /\
  (forall i, 0 <= i < OUTER_TRAJECTORY_LENGTH ->
     arr_get zero_coor (outer_trajectory st') i =
     {| x := POS_BFP_OF_REAL
               (arr_get (f_of_int 0)
                  [GetPosX env; f_of_int 2; f_of_int 2; f_of_int 0; f_of_int 0] i);
        y := POS_BFP_OF_REAL
               (arr_get (f_of_int 0)
                  [GetPosY env; f_of_int 2; f_of_int (-2); f_of_int 0; f_of_int 0] i) |}) /\
  (forall i, 0 <= i < OUTER_TRAJECTORY_LENGTH ->
     size (segment st' i) = INNER_TRAJECTORY_LENGTH /\
     forall j, 0 <= j < INNER_TRAJECTORY_LENGTH ->
       arr_get zero_coor (inner_trajectory (segment st' i)) j =
       inner_point (arr_get zero_coor (outer_trajectory st') i)
         (arr_get zero_coor (outer_trajectory st') (actual_index i)) j).
Proof.
  intros (Hot & Hft & Hin) Houter Hlen Hlen8. unfold periodic_init. cbv zeta.
  set (st1 := fold_left _ _ st).
  destruct (set_sizes_loop (to_u8 INNER_TRAJECTORY_LENGTH)
              (loop_range OUTER_TRAJECTORY_LENGTH) st) as (Ho1 & Hn1 & Hin1 & Hsz1).
  fold st1 in Ho1, Hn1, Hin1, Hsz1.
  set (st2 := buildOuterTrajectory env st1).
  assert (Hft2 : full_trajectory st2 = full_trajectory st1).
  { unfold st2. destruct (buildOuterTrajectory_only env st1) as [ot ->]. reflexivity. }
  assert (Hseg2 : forall k, segment st2 k = segment st1 k).
  { intros k. unfold segment. rewrite Hft2. reflexivity. }
  assert (Hlen2 : length (outer_trajectory st2) = length (outer_trajectory st)).
  { unfold st2. rewrite length_buildOuterTrajectory, Ho1. reflexivity. }
  set (st3 := fold_left _ _ st2).
  destruct (build_all_inner_keeps (loop_range OUTER_TRAJECTORY_LENGTH) st2)
    as (Ho3 & Hn3 & Hsz3 & Hm3).
  fold st3 in Ho3, Hn3, Hsz3, Hm3.
  norm_state. rewrite Ho3.
  split; [reflexivity |]. split; [| split].
  - unfold storage_wf. norm_state. rewrite Ho3, Hn3, Hft2, Hn1, Hlen2.
    split; [exact Hot |]. split; [exact Hft |].
    intros k Hk. unfold segment at 1. norm_state. fold (segment st3 k).
    rewrite Hm3, Hseg2, Hin1. apply Hin, Hk.
  - intros i Hi. unfold st2. apply buildOuterTrajectory_point; [| exact Hi].
    rewrite Ho1. exact Hot.
  - intros i Hi. unfold segment at 1 2. norm_state. fold (segment st3 i). split.
    + rewrite Hsz3, Hseg2, Hsz1.
      * apply to_u8_small. lia.
      * lia.
      * apply elem_of_loop_range, Hi.
    + intros j Hj. unfold st3. apply build_all_inner_point.
      * apply Forall_forall. intros b Hb. apply elem_of_loop_range in Hb.
        rewrite Hft2, Hn1. lia.
      * intros b Hb. apply elem_of_loop_range in Hb.
        rewrite Hseg2, Hin1, (Hin b Hb). lia.
      * apply elem_of_loop_range, Hi.
      * exact Hj.
Qed.


(** *** The outer trajectory *)

Lemma tryInsert_only (px py : Z) (st : State fl) :
  exists n m u,
    snd (tryInsert px py st) =
    set_obstacle_map_updated u (set_obstacle_map m (set_n_obstacles n st)).
Proof.
  unfold tryInsert. destruct (negb _ && _); cbn [snd].
  - eexists _, _, _. reflexivity.
  - exists (n_obstacles st), (obstacle_map st), (obstacle_map_updated st).
    destruct st; reflexivity.
Qed.

(** The callback assigns the globals of the obstacle map only. *)
Lemma color_detection_cb_keeps (env : Env fl) (msg : ObstacleMsg fl) (st : State fl) :
  let st' := fst (color_detection_cb env msg st) in
  mse_outer st' = mse_outer st /\ mse_inner st' = mse_inner st /\
  outer_index st' = outer_index st /\ inner_index st' = inner_index st /\
  subtraj_index st' = subtraj_index st /\
  trajectory_updated st' = trajectory_updated st /\
  initialized st' = initialized st /\
  outer_trajectory st' = outer_trajectory st /\
  full_trajectory st' = full_trajectory st /\ nav_log st' = nav_log st.
Proof.
  cbv zeta. unfold color_detection_cb.
  apply (fold_left_invariant (color_detection_cb_body env)
           (fun acc : State fl * ObstacleMsg fl =>
              mse_outer (fst acc) = mse_outer st /\ mse_inner (fst acc) = mse_inner st /\
              outer_index (fst acc) = outer_index st /\
              inner_index (fst acc) = inner_index st /\
              subtraj_index (fst acc) = subtraj_index st /\
              trajectory_updated (fst acc) = trajectory_updated st /\
              initialized (fst acc) = initialized st /\
              outer_trajectory (fst acc) = outer_trajectory st /\
              full_trajectory (fst acc) = full_trajectory st /\
              nav_log (fst acc) = nav_log st)); [| repeat split].
  intros acc i Hacc. unfold color_detection_cb_body.
  destruct (fgeb _ _); cbn [fst]; [| exact Hacc].
  match goal with
  | |- context [tryInsert ?a ?b ?s] => destruct (tryInsert_only a b s) as (n & m & u & ->)
  end.
  norm_state. exact Hacc.
Qed.

Lemma periodic_init_outer (env : Env fl) (st : State fl) :
  Z.of_nat (length (outer_trajectory st)) = OUTER_TRAJECTORY_LENGTH ->
  let st' := periodic_init env st in
  initialized st' = true /\
  Z.of_nat (length (outer_trajectory st')) = OUTER_TRAJECTORY_LENGTH /\
  forall i, 0 <= i < OUTER_TRAJECTORY_LENGTH ->
    arr_get zero_coor (outer_trajectory st') i =
    {| x := POS_BFP_OF_REAL
              (arr_get (f_of_int 0)
                 [GetPosX env; f_of_int 2; f_of_int 2; f_of_int 0; f_of_int 0] i);
       y := POS_BFP_OF_REAL
              (arr_get (f_of_int 0)
                 [GetPosY env; f_of_int 2; f_of_int (-2); f_of_int 0; f_of_int 0] i) |}.
Proof.
  intros Hot. unfold periodic_init. cbv zeta.
  set (st1 := fold_left _ _ st).
  destruct (set_sizes_loop (to_u8 INNER_TRAJECTORY_LENGTH)
              (loop_range OUTER_TRAJECTORY_LENGTH) st) as (Ho1 & _).
  fold st1 in Ho1.
  set (st2 := buildOuterTrajectory env st1).
  set (st3 := fold_left _ _ st2).
  destruct (build_all_inner_keeps (loop_range OUTER_TRAJECTORY_LENGTH) st2) as (Ho3 & _).
  fold st3 in Ho3.
  norm_state. rewrite Ho3. split; [reflexivity |]. split.
  - unfold st2. rewrite length_buildOuterTrajectory, Ho1. exact Hot.
  - intros i Hi. unfold st2. apply buildOuterTrajectory_point; [| exact Hi].
    rewrite Ho1. exact Hot.
Qed.

(** Once the setup has run, no entry point assigns [initialized] or the
    outer trajectory. *)
Lemma step_keeps_outer (st : State fl) (ev : Event fl) :
  initialized st = true ->
  initialized (step st ev) = true /\
  outer_trajectory (step st ev) = outer_trajectory st.
Proof.
  intros Hini. destruct ev as [env msg | env]; cbn [step].
  - destruct (color_detection_cb_keeps env msg st) as (_ & _ & _ & _ & _ & _ & -> & -> & _).
    split; [exact Hini | reflexivity].
  - unfold orange_avoider_periodic. cbv zeta.
    assert (Hs : periodic_setup env st = st) by (unfold periodic_setup; rewrite Hini; reflexivity).
    rewrite Hs. split; frame; [exact Hini | reflexivity].
Qed.

Lemma run_keeps_outer (evs : list (Event fl)) (st : State fl) :
  initialized st = true ->
  initialized (run evs st) = true /\ outer_trajectory (run evs st) = outer_trajectory st.
Proof.
  revert st. induction evs as [| ev evs IH]; intros st Hini; [split; [exact Hini | reflexivity] |].
  change (run (ev :: evs) st) with (run evs (step st ev)).
  destruct (step_keeps_outer st ev Hini) as [Hini' Hot'].
  destruct (IH (step st ev) Hini') as [H1 H2]. split; [exact H1 | congruence].
Qed.

Lemma run_detections_keep_outer (evs : list (Event fl)) (st : State fl) :
  Forall is_detection evs ->
  initialized (run evs st) = initialized st /\
  outer_trajectory (run evs st) = outer_trajectory st.
Proof.
  revert st. induction evs as [| ev evs IH]; intros st Hd; [split; reflexivity |].
  apply Forall_cons in Hd as [Hev Hd].
  change (run (ev :: evs) st) with (run evs (step st ev)).
  destruct (IH (step st ev) Hd) as [-> ->].
  destruct ev as [env msg | env]; [| destruct Hev]. cbn [step].
  destruct (color_detection_cb_keeps env msg st) as (_ & _ & _ & _ & _ & _ & -> & -> & _).
  split; reflexivity.
Qed.

(** C9, as the code has it. The outer trajectory is built by the first
    execution of the periodic function and by no later execution of an
    entry point: whatever detections precede that tick and whatever
    follows it, [initialized] is true afterwards, the first outer point
    is the position of the vehicle at that tick, and each further point
    is the entry of the fixed list at its index, taken as a coordinate of
    its own: it is not added to the position of the vehicle and does not
    depend on it. *)
Theorem C9_outer_trajectory (pre post : list (Event fl)) (env : Env fl) :
  1 <= OUTER_TRAJECTORY_LENGTH <= 5 ->
  Forall is_detection pre ->
  let st := run (pre ++ Tick env :: post) initial_state in
  initialized st = true /\
  Z.of_nat (length (outer_trajectory st)) = OUTER_TRAJECTORY_LENGTH /\
  arr_get zero_coor (outer_trajectory st) 0 =
    {| x := POS_BFP_OF_REAL (GetPosX env); y := POS_BFP_OF_REAL (GetPosY env) |} /\
  forall i, 1 <= i < OUTER_TRAJECTORY_LENGTH ->
    arr_get zero_coor (outer_trajectory st) i =
    {| x := POS_BFP_OF_REAL (f_of_int (fst (arr_get (0, 0) outer_corners (i - 1))));
       y := POS_BFP_OF_REAL (f_of_int (snd (arr_get (0, 0) outer_corners (i - 1)))) |}.
Proof.
  intros Houter Hpre. cbv zeta. unfold run. rewrite fold_left_app. cbn [fold_left].
  fold (run pre initial_state). set (st0 := run pre initial_state).
  fold (run post (step st0 (Tick env))).
  destruct (run_detections_keep_outer pre initial_state Hpre) as [Hini0 Hot0].
  fold st0 in Hini0, Hot0.
  assert (Hlen0 : Z.of_nat (length (outer_trajectory st0)) = OUTER_TRAJECTORY_LENGTH).
  { rewrite Hot0. unfold initial_state. norm_state. rewrite length_replicate. lia. }
  destruct (periodic_init_outer env st0 Hlen0) as (Hini1 & Hlen1 & Hpts).
  assert (Hstep : initialized (step st0 (Tick env)) = true /\
                  outer_trajectory (step st0 (Tick env)) =
                  outer_trajectory (periodic_init env st0)).
  { cbn [step]. unfold orange_avoider_periodic. cbv zeta.
    assert (Hs : periodic_setup env st0 = periodic_init env st0).
    { unfold periodic_setup. rewrite Hini0. reflexivity. }
    rewrite Hs. split; frame; [exact Hini1 | reflexivity]. }
  destruct Hstep as [Hini2 Hot2].
  destruct (run_keeps_outer post _ Hini2) as [-> ->].
  rewrite Hot2. split; [reflexivity |]. split; [exact Hlen1 |]. split.
  - rewrite Hpts by lia. reflexivity.
  - intros i Hi. rewrite Hpts by lia.
    assert (Hc : i = 1 \/ i = 2 \/ i = 3 \/ i = 4) by lia.
    destruct Hc as [-> | [-> | [-> | ->]]]; reflexivity.
Qed.

(** *** The detection callback *)

Lemma used_observation_same (o : ObstacleObs fl) :
  feqb (distance o) (f_of_int 0) = false -> used_observation o = o.
Proof. intros H. unfold used_observation. rewrite H. destruct o; reflexivity. Qed.

Lemma arr_get_lookup_Z {A : Type} (d : A) (a : list A) (i : Z) (v : A) :
  0 <= i -> a !! Z.to_nat i = Some v -> arr_get d a i = v.
Proof.
  intros Hi Hv. unfold arr_get.
  destruct (Z.leb_spec 0 i) as [_ | Hneg]; [| lia]. rewrite Hv. reflexivity.
Qed.

(** The message after the zero test of iteration [a]. *)
Lemma replace_zero_distance_lookup (a : Z) (msg : ObstacleMsg fl) (k : nat) :
  0 <= a ->
  obstacles (replace_zero_distance a msg) !! k =
  if decide (Z.of_nat k = a) then used_observation <$> (obstacles msg !! k)
  else obstacles msg !! k.
Proof.
  intros Ha. unfold replace_zero_distance.
  destruct (decide (Z.of_nat k = a)) as [<- | Hne].
  - destruct (obstacles msg !! k) as [o |] eqn:Ho.
    + rewrite (arr_get_lookup zero_obs _ k o Ho).
      destruct (feqb (distance o) (f_of_int 0)) eqn:E.
      * unfold set_distance. cbn [obstacles]. unfold arr_set.
        destruct (Z.leb_spec 0 (Z.of_nat k)) as [_ | Hneg]; [| lia].
        rewrite Nat2Z.id.
        rewrite list_lookup_insert_eq by (apply lookup_lt_Some in Ho; exact Ho).
        rewrite (arr_get_lookup zero_obs _ k o Ho).
        cbn [fmap option_fmap option_map].
        unfold used_observation. rewrite E. reflexivity.
      * rewrite Ho. cbn [fmap option_fmap option_map].
        rewrite used_observation_same by exact E. reflexivity.
    + destruct (feqb _ _).
      * unfold set_distance. cbn [obstacles]. unfold arr_set.
        destruct (Z.leb_spec 0 (Z.of_nat k)) as [_ | Hneg]; [| lia].
        rewrite Nat2Z.id. rewrite list_insert_ge by (apply lookup_ge_None; exact Ho).
        rewrite Ho. reflexivity.
      * rewrite Ho. reflexivity.
  - destruct (feqb _ _); [| reflexivity].
    unfold set_distance. cbn [obstacles]. apply arr_set_lookup_ne. congruence.
Qed.

Lemma replace_zero_distance_size (a : Z) (msg : ObstacleMsg fl) :
  msg_size (replace_zero_distance a msg) = msg_size msg.
Proof. unfold replace_zero_distance. destruct (feqb _ _); reflexivity. Qed.

(** One iteration on an observation that the message holds. *)
Lemma color_detection_cb_body_spec (env : Env fl) (st : State fl) (msg : ObstacleMsg fl)
    (a : Z) (o : ObstacleObs fl) :
  0 <= a ->
  obstacles msg !! Z.to_nat a = Some o ->
  color_detection_cb_body env (st, msg) a =
  (spec_ingest env st o, replace_zero_distance a msg).
Proof.
  intros Ha Ho. unfold color_detection_cb_body. cbn [fst snd].
  assert (Hu : arr_get zero_obs (obstacles (replace_zero_distance a msg)) a =
               used_observation o).
  { apply arr_get_lookup_Z; [exact Ha |].
    rewrite replace_zero_distance_lookup by exact Ha.
    rewrite decide_True by lia. rewrite Ho. reflexivity. }
  rewrite Hu. unfold spec_ingest, observation_mse, absolute_position, used_observation.
  cbn [distance left_heading right_heading x y].
  destruct (fgeb _ _); reflexivity.
Qed.

Lemma replace_zero_distance_length (a : Z) (msg : ObstacleMsg fl) :
  length (obstacles (replace_zero_distance a msg)) = length (obstacles msg).
Proof.
  unfold replace_zero_distance. destruct (feqb _ _); [| reflexivity].
  unfold set_distance. cbn [obstacles]. apply length_arr_set.
Qed.

Lemma replace_zero_distance_drop (a : Z) (msg : ObstacleMsg fl) :
  0 <= a ->
  drop (S (Z.to_nat a)) (obstacles (replace_zero_distance a msg)) =
  drop (S (Z.to_nat a)) (obstacles msg).
Proof.
  intros Ha. apply list_eq. intros k. rewrite !lookup_drop.
  rewrite replace_zero_distance_lookup by exact Ha.
  rewrite decide_False by lia. reflexivity.
Qed.

(** The state after the iterations [a], ..., [a+n-1] of the callback. *)
Lemma color_detection_cb_loop_state (env : Env fl) (n : nat) (a : Z)
    (st : State fl) (msg : ObstacleMsg fl) :
  0 <= a ->
  a + Z.of_nat n <= Z.of_nat (length (obstacles msg)) ->
  fst (fold_left (color_detection_cb_body env) (seqZ a (Z.of_nat n)) (st, msg)) =
  fold_left (spec_ingest env) (take n (drop (Z.to_nat a) (obstacles msg))) st.
Proof.
  revert a st msg. induction n as [| n IH]; intros a st msg Ha Hlen.
  - rewrite seqZ_nil by lia. reflexivity.
  - rewrite seqZ_cons by lia. cbn [fold_left].
    destruct (lookup_lt_is_Some_2 (obstacles msg) (Z.to_nat a)) as [o Ho]; [lia |].
    rewrite (color_detection_cb_body_spec env st msg a o Ha Ho).
    replace (Z.pred (Z.of_nat (S n))) with (Z.of_nat n) by lia.
    rewrite IH by (rewrite ?replace_zero_distance_length; lia).
    replace (Z.to_nat (Z.succ a)) with (S (Z.to_nat a)) by lia.
    rewrite replace_zero_distance_drop by exact Ha.
    rewrite (drop_S _ _ _ Ho). reflexivity.
Qed.

Lemma color_detection_cb_loop_msg (env : Env fl) (l : list Z)
    (acc : State fl * ObstacleMsg fl) :
  snd (fold_left (color_detection_cb_body env) l acc) =
  fold_left (fun m i => replace_zero_distance i m) l (snd acc).
Proof.
  revert acc. induction l as [| i l IH]; intros acc; [reflexivity |].
  cbn [fold_left]. rewrite IH. f_equal.
  unfold color_detection_cb_body. destruct (fgeb _ _); reflexivity.
Qed.

(** The message after the iterations [a], ..., [a+n-1] of the callback. *)
Lemma replace_zero_distance_loop (n : nat) (a : Z) (msg : ObstacleMsg fl) (k : nat) :
  0 <= a ->
  let msg' := fold_left (fun m i => replace_zero_distance i m) (seqZ a (Z.of_nat n)) msg in
  msg_size msg' = msg_size msg /\
  obstacles msg' !! k =
  if decide (a <= Z.of_nat k < a + Z.of_nat n)
  then used_observation <$> (obstacles msg !! k)
  else obstacles msg !! k.
Proof.
  cbv zeta. revert a msg. induction n as [| n IH]; intros a msg Ha.
  - rewrite seqZ_nil by lia. cbn [fold_left]. rewrite decide_False by lia. split; reflexivity.
  - rewrite seqZ_cons by lia. cbn [fold_left].
    replace (Z.pred (Z.of_nat (S n))) with (Z.of_nat n) by lia.
    destruct (IH (Z.succ a) (replace_zero_distance a msg)) as [Hsize Hlook]; [lia |].
    rewrite Hsize, Hlook, replace_zero_distance_size.
    split; [reflexivity |].
    rewrite replace_zero_distance_lookup by exact Ha.
    destruct (decide (Z.of_nat k = a)) as [Hk | Hk].
    + rewrite decide_False by lia. rewrite decide_True by lia. reflexivity.
    + destruct (decide (Z.succ a <= Z.of_nat k < Z.succ a + Z.of_nat n)) as [Hr | Hr].
      * rewrite decide_True by lia. reflexivity.
      * rewrite decide_False by lia. reflexivity.
Qed.

Lemma spec_ingest_stored (env : Env fl) (st : State fl) (o : ObstacleObs fl) :
  map_wf st ->
  MAX_OBSTACLES_IN_MAP <= 255 ->
  n_obstacles (spec_ingest env st o) <> n_obstacles st ->
  let d := if feqb (distance o) (f_of_int 0) then f_half else distance o in
  let heading :=
    RadOfDeg (fdiv (fadd (left_heading o) (right_heading o)) (f_of_int 2)) in
  n_obstacles (spec_ingest env st o) = n_obstacles st + 1 /\
  obstacle_map (spec_ingest env st o) !! Z.to_nat (n_obstacles st) =
  Some {| loc :=
            {| x := POS_BFP_OF_REAL
                      (fadd (GetPosX env) (fmul (fsin (fadd heading (psi env))) d));
               y := POS_BFP_OF_REAL
                      (fadd (GetPosY env) (fmul (fcos (fadd heading (psi env))) d)) |} |}.
Proof.
  intros Hwf Hmax Hchg. cbv zeta. unfold spec_ingest in *. cbv zeta in *.
  destruct (fgeb _ _); [| contradiction].
  match goal with
  | |- context [tryInsert ?a ?b st] =>
      set (px := a) in *; set (py := b) in *;
      destruct (tryInsert_cases st px py Hwf Hmax) as [E | (_ & Hn & _ & Hslot)]
  end.
  - rewrite E in Hchg. contradiction.
  - split; assumption.
Qed.

(** C5. The callback takes the observations of the message in order and
    ingests each as the specification says: a distance equal to 0 is
    replaced by 0.5 before any use, the heading is the average of the two
    reported headings in radians, and the position handed to the obstacle
    map is the position of the vehicle plus the distance times the sine
    and the cosine of heading plus yaw. Whenever an ingestion stores an
    obstacle, the new slot of the map holds exactly that position, so for
    a reported distance of 0 the position computed with 0.5. *)
Theorem C5_ingestion (env : Env fl) (msg : ObstacleMsg fl) (st : State fl) :
  0 <= msg_size msg <= Z.of_nat (length (obstacles msg)) ->
  fst (color_detection_cb env msg st) =
    fold_left (spec_ingest env) (take (Z.to_nat (msg_size msg)) (obstacles msg)) st /\
  forall (s : State fl) (o : ObstacleObs fl),
    map_wf s ->
    MAX_OBSTACLES_IN_MAP <= 255 ->
    n_obstacles (spec_ingest env s o) <> n_obstacles s ->
    let d := if feqb (distance o) (f_of_int 0) then f_half else distance o in
    let heading :=
      RadOfDeg (fdiv (fadd (left_heading o) (right_heading o)) (f_of_int 2)) in
    n_obstacles (spec_ingest env s o) = n_obstacles s + 1 /\
    obstacle_map (spec_ingest env s o) !! Z.to_nat (n_obstacles s) =
    Some {| loc :=
              {| x := POS_BFP_OF_REAL
                        (fadd (GetPosX env) (fmul (fsin (fadd heading (psi env))) d));
                 y := POS_BFP_OF_REAL
                        (fadd (GetPosY env) (fmul (fcos (fadd heading (psi env))) d)) |} |}.
Proof.
  intros Hsize. split.
  - unfold color_detection_cb, loop_range.
    rewrite <- (Z2Nat.id (msg_size msg)) at 1 by lia.
    rewrite color_detection_cb_loop_state by lia.
    rewrite drop_0. reflexivity.
  - intros s o. apply spec_ingest_stored.
Qed.

(** C10. The callback writes into the message it receives: the distance
    of an observation among the first [size] whose distance equals 0
    becomes 0.5. It changes nothing else: the size, the number of
    observations, the headings, and the distances that differ from 0 or
    lie beyond the first [size] observations are as they were. *)
Theorem C10_message_written_back (env : Env fl) (msg : ObstacleMsg fl) (st : State fl) :
  let msg' := snd (color_detection_cb env msg st) in
  msg_size msg' = msg_size msg /\
  length (obstacles msg') = length (obstacles msg) /\
  forall (k : nat) (o : ObstacleObs fl),
    obstacles msg !! k = Some o ->
    exists o',
      obstacles msg' !! k = Some o' /\
      left_heading o' = left_heading o /\
      right_heading o' = right_heading o /\
      distance o' =
        if decide (Z.of_nat k < msg_size msg)
        then (if feqb (distance o) (f_of_int 0) then f_half else distance o)
        else distance o.
Proof.
  cbv zeta. unfold color_detection_cb. rewrite color_detection_cb_loop_msg. cbn [snd].
  split; [| split].
  - apply (fold_left_invariant (fun m i => replace_zero_distance i m)
             (fun m => msg_size m = msg_size msg)); [| reflexivity].
    intros m i Hm. rewrite replace_zero_distance_size. exact Hm.
  - apply (fold_left_invariant (fun m i => replace_zero_distance i m)
             (fun m => length (obstacles m) = length (obstacles msg))); [| reflexivity].
    intros m i Hm. rewrite replace_zero_distance_length. exact Hm.
  - intros k o Ho. unfold loop_range.
    destruct (Z.le_gt_cases (msg_size msg) 0) as [Hle | Hgt].
    + rewrite seqZ_nil by exact Hle. cbn [fold_left]. exists o.
      rewrite decide_False by lia. repeat split. exact Ho.
    + destruct (replace_zero_distance_loop (Z.to_nat (msg_size msg)) 0 msg k) as [_ Hk];
        [lia |].
      rewrite Z2Nat.id in Hk by lia.
      rewrite Hk, Ho. destruct (decide (Z.of_nat k < msg_size msg)) as [Hin | Hout].
      * rewrite decide_True by lia. exists (used_observation o). repeat split.
      * rewrite decide_False by lia. exists o. repeat split.
Qed.

(** *** The state machine: how the indices move *)

Lemma periodic_outer_not_taken (st : State fl) :
  fltb (mse_outer st) f_half = false -> periodic_outer st = st.
Proof. intros H. unfold periodic_outer. rewrite H. reflexivity. Qed.

Lemma periodic_inner_index (st : State fl) :
  0 <= inner_index st < 255 ->
  inner_index (periodic_inner st) = inner_index st \/
  inner_index (periodic_inner st) = inner_index st + 1.
Proof.
  intros Hi. unfold periodic_inner, moveWaypointNext, moveWaypoint.
  destruct (fltb (mse_inner st) f_half && trajectory_updated st); [| left; reflexivity].
  norm_state.
  match goal with |- context [if ?b then _ else _] => destruct b end; norm_state.
  - right. apply to_u8_small. lia.
  - left. reflexivity.
Qed.

(** C8, as the code has it. On a tick on which [mse_outer < 0.5],
    [outer_index] is incremented by one or, from the last index on, set
    to 0, and [inner_index] is set to 0; on any other tick [outer_index]
    is unchanged and [inner_index] is unchanged or incremented by one. An
    index is lowered only by setting it to 0. *)
Theorem C8_indices_step (env : Env fl) (st : State fl) :
  1 <= OUTER_TRAJECTORY_LENGTH <= 256 ->
  0 <= outer_index st ->
  0 <= inner_index st < 255 ->
  let st' := orange_avoider_periodic env st in
  if fltb (checkWaypointArrival env WP_OUTER) f_half
  then (outer_index st' = outer_index st + 1 \/
        (outer_index st' = 0 /\ OUTER_TRAJECTORY_LENGTH - 1 <= outer_index st)) /\
       inner_index st' = 0
  else outer_index st' = outer_index st /\
       (inner_index st' = inner_index st \/ inner_index st' = inner_index st + 1).
Proof.
  intros Hlen Hoi Hii. unfold orange_avoider_periodic. cbv zeta.
  set (s3 := periodic_rebuild _).
  assert (Hi3 : inner_index s3 = inner_index st) by (unfold s3; frame; reflexivity).
  assert (Ho3 : outer_index s3 = outer_index st) by (unfold s3; frame; reflexivity).
  assert (Hm3 : mse_outer s3 = checkWaypointArrival env WP_OUTER)
    by (unfold s3; frame; reflexivity).
  clearbody s3. rewrite <- Hi3 in Hii. rewrite <- Hi3, <- Ho3, <- Hm3. rewrite <- Ho3 in Hoi.
  clear Hi3 Ho3 Hm3.
  pose proof (periodic_inner_index s3 Hii) as Hinner.
  pose proof (periodic_inner_keeps s3) as Hk. cbv zeta in Hk.
  destruct Hk as (Hm4 & _ & Ho4 & _).
  set (s4 := periodic_inner s3) in *. clearbody s4.
  rewrite <- Hm4, <- Ho4. rewrite <- Ho4 in Hoi.
  destruct (fltb (mse_outer s4) f_half) eqn:Hlt.
  - destruct (periodic_outer_taken s4 Hlt) as (before & -> & Ho & _ & Hi & _).
    pose proof (updateTrajectory_keeps (subtraj_index before) before) as Hu.
    cbv zeta in Hu. destruct Hu as (_ & _ & Ko & Ki & _).
    norm_state. rewrite Ko, Ki, Ho, Hi. split; [| reflexivity].
    destruct (Z.ltb_spec (outer_index s4) (OUTER_TRAJECTORY_LENGTH - 1)) as [Hb | Hb].
    + left. apply to_u8_small. lia.
    + right. split; [reflexivity | exact Hb].
  - rewrite (periodic_outer_not_taken s4 Hlt). norm_state.
    split; [reflexivity | exact Hinner].
Qed.

(** *** The state machine and a degenerate optimizer *)

Lemma storage_wf_same (st st' : State fl) :
  outer_trajectory st' = outer_trajectory st ->
  full_trajectory st' = full_trajectory st ->
  storage_wf st -> storage_wf st'.
Proof.
  intros Ho Hf Hwf. unfold storage_wf, segment in *. rewrite Ho, Hf. exact Hwf.
Qed.

Lemma active_segment_empty_same (st st' : State fl) :
  subtraj_index st' = subtraj_index st ->
  full_trajectory st' = full_trajectory st ->
  active_segment_empty st -> active_segment_empty st'.
Proof.
  intros Hs Hf He. unfold active_segment_empty, segment in *. rewrite Hs, Hf. exact He.
Qed.

(** A rebuild of the active segment with a degenerate optimizer leaves it
    empty. *)
Lemma updateTrajectory_degenerate (st : State fl) :
  degenerate_optimizer ->
  storage_wf st ->
  0 <= subtraj_index st < OUTER_TRAJECTORY_LENGTH ->
  let st' := snd (updateTrajectory (subtraj_index st) st) in
  storage_wf st' /\ active_segment_empty st'.
Proof.
  intros Hdeg Hwf Ha. cbv zeta.
  split; [apply updateTrajectory_storage, Hwf |].
  destruct Hwf as (Hot & Hft & Hin).
  destruct (updateTrajectory_spec (subtraj_index st) st) as (Hsize & Hsub & Hpoint);
    [lia | lia | apply Hin, Ha |].
  rewrite Hdeg in Hsize, Hpoint.
  unfold active_segment_empty. rewrite Hsub at 1. split; [exact Hsize |].
  intros i Hi. rewrite Hpoint by exact Hi.
  destruct (Z.ltb_spec i 0); [lia | reflexivity].
Qed.

Lemma periodic_rebuild_degenerate (st : State fl) :
  degenerate_optimizer ->
  storage_wf st ->
  0 <= subtraj_index st < OUTER_TRAJECTORY_LENGTH ->
  active_segment_empty st ->
  storage_wf (periodic_rebuild st) /\ active_segment_empty (periodic_rebuild st).
Proof.
  intros Hdeg Hwf Ha He. unfold periodic_rebuild.
  destruct (obstacle_map_updated st); [| split; assumption].
  destruct (updateTrajectory_degenerate st Hdeg Hwf Ha) as [Hwf' He'].
  split.
  - eapply storage_wf_same; [| | exact Hwf']; reflexivity.
  - eapply active_segment_empty_same; [| | exact He']; reflexivity.
Qed.

Lemma periodic_outer_degenerate (st : State fl) :
  degenerate_optimizer ->
  storage_wf st ->
  1 <= OUTER_TRAJECTORY_LENGTH <= 256 ->
  0 <= outer_index st < 256 ->
  fltb (mse_outer st) f_half = true ->
  let st' := periodic_outer st in
  trajectory_updated st' = true /\ inner_index st' = 0 /\
  0 <= subtraj_index st' < OUTER_TRAJECTORY_LENGTH /\
  storage_wf st' /\ active_segment_empty st'.
Proof.
  intros Hdeg Hwf Hlen Hoi Hlt. cbv zeta. unfold periodic_outer. rewrite Hlt. cbv zeta.
  rewrite updateTrajectory_true.
  set (before := moveWaypointNext _ _ _ _).
  assert (Hb : outer_trajectory before = outer_trajectory st /\
               full_trajectory before = full_trajectory st /\
               inner_index before = 0 /\
               0 <= subtraj_index before < OUTER_TRAJECTORY_LENGTH).
  { unfold before, moveWaypointNext, moveWaypoint.
    destruct (Z.ltb_spec (outer_index st) (OUTER_TRAJECTORY_LENGTH - 1)) as [Hlo | Hhi];
      norm_state; repeat split; try reflexivity.
    - rewrite (to_u8_small (outer_index st + 1)) by lia.
      replace (outer_index st + 1 - 1) with (outer_index st) by lia.
      rewrite to_u8_small by lia. lia.
    - rewrite (to_u8_small (outer_index st + 1)) by lia.
      replace (outer_index st + 1 - 1) with (outer_index st) by lia.
      rewrite to_u8_small by lia. lia.
    - rewrite to_u8_small by lia. lia.
    - rewrite to_u8_small by lia. lia. }
  destruct Hb as (Hbo & Hbf & Hbi & Hbs). clearbody before.
  assert (Hwfb : storage_wf before) by (eapply storage_wf_same; eassumption).
  destruct (updateTrajectory_degenerate before Hdeg Hwfb Hbs) as [Hwf' He'].
  pose proof (updateTrajectory_keeps (subtraj_index before) before) as Hk.
  cbv zeta in Hk. destruct Hk as (_ & _ & _ & Ki & Ks & _).
  set (s' := snd (updateTrajectory (subtraj_index before) before)) in *. clearbody s'.
  norm_state. rewrite Ki, Ks.
  split; [reflexivity |]. split; [exact Hbi |]. split; [exact Hbs |]. split.
  - eapply storage_wf_same; [| | exact Hwf']; reflexivity.
  - eapply active_segment_empty_same; [| | exact He']; reflexivity.
Qed.

Lemma segment_nav_call (c : NavCall) (st : State fl) (k : Z) :
  segment (nav_call c st) k = segment st k.
Proof. reflexivity. Qed.

(** The inner block on an empty active segment: the inner waypoint is
    moved to (0,0) and [inner_index] stays. *)
Lemma periodic_inner_empty (st : State fl) :
  1 <= INNER_TRAJECTORY_SPACE ->
  active_segment_empty st ->
  inner_index st = 0 ->
  trajectory_updated st = true ->
  fltb (mse_inner st) f_half = true ->
  periodic_inner st = nav_call (waypoint_move_xy_i WP_INNER 0 0) st.
Proof.
  intros Hspace [Hsize Hzero] Hi Htu Hlt. unfold periodic_inner.
  rewrite Hlt, Htu. cbn [andb]. unfold moveWaypointNext, moveWaypoint. cbv zeta.
  rewrite Hi, Hzero by lia. cbn [x y zero_coor].
  rewrite segment_nav_call. norm_state. rewrite Hi, Hsize. reflexivity.
Qed.

Lemma periodic_outer_log (st : State fl) :
  exists l, nav_log (periodic_outer st) = nav_log st ++ l.
Proof.
  destruct (fltb (mse_outer st) f_half) eqn:Hlt.
  - destruct (periodic_outer_taken st Hlt) as (before & -> & _ & _ & _ & _ & Hlog).
    pose proof (updateTrajectory_keeps (subtraj_index before) before) as Hk.
    cbv zeta in Hk. destruct Hk as (_ & _ & _ & _ & _ & _ & _ & _ & _ & _ & _ & Klog).
    norm_state. rewrite Klog, Hlog. eexists. reflexivity.
  - rewrite (periodic_outer_not_taken st Hlt). exists []. rewrite app_nil_r. reflexivity.
Qed.

Lemma periodic_rebuild_storage (st : State fl) :
  storage_wf st -> storage_wf (periodic_rebuild st).
Proof.
  intros Hwf. unfold periodic_rebuild. destruct (obstacle_map_updated st); [| exact Hwf].
  eapply storage_wf_same; [| | apply (updateTrajectory_storage (subtraj_index st) st Hwf)];
    reflexivity.
Qed.

(** The tick of the outer arrival, with a degenerate optimizer. *)
Lemma periodic_outer_arrival_degenerate (env : Env fl) (st : State fl) :
  degenerate_optimizer ->
  initialized st = true ->
  storage_wf st ->
  1 <= OUTER_TRAJECTORY_LENGTH <= 256 ->
  0 <= outer_index st < 256 ->
  fltb (checkWaypointArrival env WP_OUTER) f_half = true ->
  let st' := orange_avoider_periodic env st in
  initialized st' = true /\ trajectory_updated st' = true /\ inner_index st' = 0 /\
  0 <= subtraj_index st' < OUTER_TRAJECTORY_LENGTH /\
  storage_wf st' /\ active_segment_empty st'.
Proof.
  intros Hdeg Hini Hwf Hlen Hoi Hlt. cbv zeta. unfold orange_avoider_periodic. cbv zeta.
  assert (Hs : periodic_setup env st = st)
    by (unfold periodic_setup; rewrite Hini; reflexivity).
  rewrite Hs.
  set (s3 := periodic_rebuild (periodic_arrival env st)).
  assert (Hwf3 : storage_wf s3).
  { unfold s3. apply periodic_rebuild_storage.
    eapply storage_wf_same; [| | exact Hwf]; reflexivity. }
  assert (H3 : initialized s3 = true /\ outer_index s3 = outer_index st /\
               mse_outer s3 = checkWaypointArrival env WP_OUTER).
  { unfold s3. repeat split; frame; [exact Hini | reflexivity | reflexivity]. }
  destruct H3 as (Hini3 & Ho3 & Hm3). clearbody s3.
  pose proof (periodic_inner_keeps s3) as Hk. cbv zeta in Hk.
  destruct Hk as (Km & _ & Ko & _ & _ & _ & _ & Kini & Kot & Kft & _).
  set (s4 := periodic_inner s3) in *. clearbody s4.
  assert (Hwf4 : storage_wf s4) by (eapply storage_wf_same; eassumption).
  destruct (periodic_outer_degenerate s4 Hdeg Hwf4 Hlen) as (Htu & Hii & Hsub & Hwf5 & He5).
  { rewrite Ko, Ho3. exact Hoi. }
  { rewrite Km, Hm3. exact Hlt. }
  pose proof (periodic_outer_keeps s4) as Hk5. cbv zeta in Hk5.
  destruct Hk5 as (_ & _ & _ & _ & Kini5 & _).
  set (s5 := periodic_outer s4) in *. clearbody s5.
  norm_state.
  split; [congruence |]. split; [exact Htu |]. split; [exact Hii |].
  split; [exact Hsub |]. split.
  - eapply storage_wf_same; [| | exact Hwf5]; reflexivity.
  - eapply active_segment_empty_same; [| | exact He5]; reflexivity.
Qed.

(** A tick of an inner arrival on an empty active segment. *)
Lemma periodic_inner_arrival_empty (env : Env fl) (st : State fl) :
  degenerate_optimizer ->
  initialized st = true ->
  trajectory_updated st = true ->
  inner_index st = 0 ->
  0 <= subtraj_index st < OUTER_TRAJECTORY_LENGTH ->
  storage_wf st ->
  active_segment_empty st ->
  1 <= INNER_TRAJECTORY_SPACE ->
  fltb (checkWaypointArrival env WP_INNER) f_half = true ->
  exists rest,
    nav_log (orange_avoider_periodic env st) =
    nav_log st ++ waypoint_move_xy_i WP_INNER 0 0 :: rest.
Proof.
  intros Hdeg Hini Htu Hii Hsub Hwf He Hspace Hlt.
  unfold orange_avoider_periodic. cbv zeta.
  assert (Hs : periodic_setup env st = st)
    by (unfold periodic_setup; rewrite Hini; reflexivity).
  rewrite Hs.
  set (s2 := periodic_arrival env st).
  assert (Hwf2 : storage_wf s2) by (eapply storage_wf_same; [| | exact Hwf]; reflexivity).
  assert (He2 : active_segment_empty s2)
    by (eapply active_segment_empty_same; [| | exact He]; reflexivity).
  assert (Hsub2 : 0 <= subtraj_index s2 < OUTER_TRAJECTORY_LENGTH) by exact Hsub.
  destruct (periodic_rebuild_degenerate s2 Hdeg Hwf2 Hsub2 He2) as [_ He3].
  pose proof (periodic_rebuild_keeps s2) as Hk. cbv zeta in Hk.
  destruct Hk as (_ & Kmi & _ & Kii & _ & Ktu & _ & _ & _ & _ & Klog).
  set (s3 := periodic_rebuild s2) in *.
  assert (Hmi3 : mse_inner s3 = checkWaypointArrival env WP_INNER) by (rewrite Kmi; reflexivity).
  assert (Hii3 : inner_index s3 = 0) by (rewrite Kii; exact Hii).
  assert (Htu3 : trajectory_updated s3 = true) by (rewrite Ktu; exact Htu).
  assert (Hlog3 : nav_log s3 = nav_log st) by (rewrite Klog; reflexivity).
  clearbody s3. clear Kmi Kii Ktu Klog.
  rewrite (periodic_inner_empty s3 Hspace He3 Hii3 Htu3) by (rewrite Hmi3; exact Hlt).
  destruct (periodic_outer_log (nav_call (waypoint_move_xy_i WP_INNER 0 0) s3)) as [l Hl].
  norm_state. rewrite Hl. norm_state. rewrite Hlog3.
  exists (l ++ [NavGotoWaypointHeading WP_INNER]).
  rewrite <- !app_assoc. reflexivity.
Qed.


(** *** The obstacle map over executions *)

Lemma too_close_false (d : fl) :
  too_close d = false <-> fltb d (f_of_int 1) = false /\ feqb d d = true.
Proof. unfold too_close. rewrite orb_false_iff, negb_false_iff. reflexivity. Qed.

Lemma checkObstaclePresence_false (st : State fl) (px py : Z) :
  checkObstaclePresence st (obstacle_map st) px py = false ->
  forall i, 0 <= i < n_obstacles st ->
    too_close (obstacle_distance (arr_get zero_obstacle (obstacle_map st) i) px py) = false.
Proof.
  intros Hc i Hi.
  destruct (too_close (obstacle_distance (arr_get zero_obstacle (obstacle_map st) i) px py))
    eqn:E; [| reflexivity].
  rewrite <- Hc. symmetry. unfold checkObstaclePresence.
  apply checkObstaclePresence_loop_true.
  exists i. split; [apply elem_of_loop_range, Hi | exact E].
Qed.

(** The two outcomes of an insertion. *)
Lemma tryInsert_outcome (st : State fl) (px py : Z) :
  tryInsert px py st = (false, st) \/
  (checkObstaclePresence st (obstacle_map st) px py = false /\
   n_obstacles st < MAX_OBSTACLES_IN_MAP /\
   tryInsert px py st =
     (true,
      set_obstacle_map_updated true
        (set_obstacle_map
           (arr_set (obstacle_map st) (to_u8 (n_obstacles st + 1) - 1)
              {| loc := {| x := px; y := py |} |})
           (set_n_obstacles (to_u8 (n_obstacles st + 1)) st)))).
Proof.
  destruct (checkObstaclePresence st (obstacle_map st) px py) eqn:Hc.
  { left. apply tryInsert_rejected. left. exact Hc. }
  destruct (Z.lt_ge_cases (n_obstacles st) MAX_OBSTACLES_IN_MAP) as [Hlt | Hge].
  - right. split; [reflexivity |]. split; [exact Hlt |].
    apply tryInsert_accepted; assumption.
  - left. apply tryInsert_rejected. right. exact Hge.
Qed.

Lemma tryInsert_flag (st : State fl) (px py : Z) :
  snd (tryInsert px py st) = st \/
  obstacle_map_updated (snd (tryInsert px py st)) = true.
Proof.
  destruct (tryInsert_outcome st px py) as [-> | (_ & _ & ->)]; [left | right]; reflexivity.
Qed.

Lemma color_detection_cb_body_flag (env : Env fl) (acc : State fl * ObstacleMsg fl) (i : Z) :
  fst (color_detection_cb_body env acc i) = fst acc \/
  obstacle_map_updated (fst (color_detection_cb_body env acc i)) = true.
Proof.
  unfold color_detection_cb_body.
  destruct (fgeb _ _); cbn [fst]; [apply tryInsert_flag | left; reflexivity].
Qed.

(** Iterations of the callback leave the globals as they are or leave the
    flag of the map set. *)
Lemma color_detection_cb_loop_flag (env : Env fl) (l : list Z)
    (acc : State fl * ObstacleMsg fl) :
  fst (fold_left (color_detection_cb_body env) l acc) = fst acc \/
  obstacle_map_updated (fst (fold_left (color_detection_cb_body env) l acc)) = true.
Proof.
  apply (fold_left_invariant (color_detection_cb_body env)
           (fun a : State fl * ObstacleMsg fl =>
              fst a = fst acc \/ obstacle_map_updated (fst a) = true));
    [| left; reflexivity].
  intros a i Ha.
  destruct (color_detection_cb_body_flag env a i) as [E | E]; [| right; exact E].
  rewrite E. exact Ha.
Qed.

Lemma spec_ingest_invalid (env : Env fl) (st : State fl) (o : ObstacleObs fl) :
  fgeb (observation_mse (used_observation o)) (f_of_int 0) = false ->
  spec_ingest env st o = st.
Proof.
  unfold spec_ingest, observation_mse, used_observation.
  cbn [distance left_heading right_heading]. intros ->. reflexivity.
Qed.

Lemma spec_ingest_valid (env : Env fl) (st : State fl) (o : ObstacleObs fl) :
  fgeb (observation_mse (used_observation o)) (f_of_int 0) = true ->
  spec_ingest env st o =
  snd (tryInsert (x (absolute_position env (used_observation o)))
         (y (absolute_position env (used_observation o))) st).
Proof.
  unfold spec_ingest, observation_mse, absolute_position, used_observation.
  cbn [distance left_heading right_heading x y]. intros ->. reflexivity.
Qed.

Lemma map_extends_refl (st : State fl) : map_extends st st.
Proof. split; [lia | reflexivity]. Qed.

Lemma map_extends_trans (a b c : State fl) :
  map_extends a b -> map_extends b c -> map_extends a c.
Proof.
  intros [H1 H2] [H3 H4]. split; [lia |].
  intros i Hi. rewrite H4 by lia. apply H2, Hi.
Qed.

Lemma tryInsert_extends (st : State fl) (px py : Z) :
  map_wf st ->
  MAX_OBSTACLES_IN_MAP <= 255 ->
  map_extends st (snd (tryInsert px py st)).
Proof.
  intros Hwf Hmax.
  destruct (tryInsert_cases st px py Hwf Hmax) as [-> | (_ & Hn & Hm & _)];
    [apply map_extends_refl |].
  split; [lia |]. intros i Hi. rewrite Hm. unfold arr_get.
  destruct (Z.leb_spec 0 i) as [_ | Hneg]; [| reflexivity].
  rewrite list_lookup_insert_ne by lia. reflexivity.
Qed.

(** Iterations of the callback keep the obstacles that the map holds. *)
Lemma color_detection_cb_loop_extends (env : Env fl) (l : list Z)
    (acc : State fl * ObstacleMsg fl) :
  map_wf (fst acc) ->
  MAX_OBSTACLES_IN_MAP <= 255 ->
  map_extends (fst acc) (fst (fold_left (color_detection_cb_body env) l acc)).
Proof.
  intros Hwf Hmax.
  apply (fold_left_invariant (color_detection_cb_body env)
           (fun a : State fl * ObstacleMsg fl =>
              map_wf (fst a) /\ map_extends (fst acc) (fst a)));
    [| split; [exact Hwf | apply map_extends_refl]].
  intros a i [Hwa Hext]. split; [apply color_detection_cb_body_map_wf, Hwa |].
  unfold color_detection_cb_body. destruct (fgeb _ _); cbn [fst]; [| exact Hext].
  eapply map_extends_trans; [exact Hext |]. apply tryInsert_extends; assumption.
Qed.

Lemma step_extends (st : State fl) (ev : Event fl) :
  map_wf st ->
  MAX_OBSTACLES_IN_MAP <= 255 ->
  map_extends st (step st ev).
Proof.
  intros Hwf Hmax. destruct ev as [env msg | env]; cbn [step].
  - apply (color_detection_cb_loop_extends env _ (st, msg)); assumption.
  - unfold map_extends. destruct (periodic_keeps_map env st) as [-> ->].
    split; [lia | reflexivity].
Qed.

Lemma obstacles_apart_same (st st' : State fl) :
  n_obstacles st' = n_obstacles st ->
  obstacle_map st' = obstacle_map st ->
  obstacles_apart st -> obstacles_apart st'.
Proof. intros Hn Hm Hap. unfold obstacles_apart. rewrite Hn, Hm. exact Hap. Qed.

Lemma tryInsert_apart (st : State fl) (px py : Z) :
  map_wf st ->
  n_obstacles st < 256 ->
  obstacles_apart st ->
  n_obstacles (snd (tryInsert px py st)) < 256 /\
  obstacles_apart (snd (tryInsert px py st)).
Proof.
  intros [Hn Hlen] H8 Hap.
  destruct (tryInsert_outcome st px py) as [-> | (Hc & Hlt & ->)]; [split; assumption |].
  cbn [snd]. split; [norm_state; apply to_u8_range |].
  intros i j Hij Hj. cbv zeta. norm_state.
  destruct (Z.lt_ge_cases (n_obstacles st + 1) 256) as [Hs | Hs].
  - rewrite (to_u8_small (n_obstacles st + 1)) in Hj |- * by lia.
    replace (n_obstacles st + 1 - 1) with (n_obstacles st) by lia.
    rewrite (arr_get_set_ne _ _ _ i) by lia.
    destruct (decide (j = n_obstacles st)) as [-> | Hne].
    + rewrite arr_get_set_eq by lia. cbn [loc x y].
      apply too_close_false, checkObstaclePresence_false; [exact Hc | lia].
    + rewrite arr_get_set_ne by lia. apply Hap; lia.
  - assert (E : n_obstacles st + 1 = 256) by lia. rewrite E in Hj.
    change (to_u8 256) with 0 in Hj. lia.
Qed.

Lemma step_apart (st : State fl) (ev : Event fl) :
  map_wf st /\ n_obstacles st < 256 /\ obstacles_apart st ->
  map_wf (step st ev) /\ n_obstacles (step st ev) < 256 /\ obstacles_apart (step st ev).
Proof.
  intros Hinv. destruct ev as [env msg | env]; cbn [step].
  - unfold color_detection_cb.
    apply (fold_left_invariant (color_detection_cb_body env)
             (fun a : State fl * ObstacleMsg fl =>
                map_wf (fst a) /\ n_obstacles (fst a) < 256 /\ obstacles_apart (fst a)));
      [| exact Hinv].
    intros a i (Hwa & H8 & Hap). split; [apply color_detection_cb_body_map_wf, Hwa |].
    unfold color_detection_cb_body. destruct (fgeb _ _); cbn [fst]; [| split; assumption].
    apply tryInsert_apart; assumption.
  - destruct Hinv as (Hwf & H8 & Hap).
    split; [apply periodic_map_wf, Hwf |].
    destruct (periodic_keeps_map env st) as [Hn Hm].
    split; [rewrite Hn; exact H8 |].
    apply (obstacles_apart_same st); assumption.
Qed.

(** X1. The detection callback assigns the globals of the obstacle map
    only: the arrival distances, the three indices, [trajectory_updated],
    [initialized], both trajectories and the log of navigation calls are
    after the callback what they were before it. *)
Theorem X1_callback_frame (env : Env fl) (msg : ObstacleMsg fl) (st : State fl) :
  let st' := fst (color_detection_cb env msg st) in
  mse_outer st' = mse_outer st /\ mse_inner st' = mse_inner st /\
  outer_index st' = outer_index st /\ inner_index st' = inner_index st /\
  subtraj_index st' = subtraj_index st /\
  trajectory_updated st' = trajectory_updated st /\
  initialized st' = initialized st /\
  outer_trajectory st' = outer_trajectory st /\
  full_trajectory st' = full_trajectory st /\ nav_log st' = nav_log st.
Proof.
  cbv zeta.
  assert (H : exists n m u,
             fst (color_detection_cb env msg st) =
             set_obstacle_map_updated u (set_obstacle_map m (set_n_obstacles n st))).
  { unfold color_detection_cb.
    apply (fold_left_invariant (color_detection_cb_body env)
             (fun acc : State fl * ObstacleMsg fl =>
                exists n m u,
                  fst acc =
                  set_obstacle_map_updated u (set_obstacle_map m (set_n_obstacles n st)))).
    - intros acc i (n & m & u & Hacc). unfold color_detection_cb_body.
      destruct (fgeb _ _); cbn [fst]; [| exists n, m, u; exact Hacc].
      match goal with
      | |- context [tryInsert ?a ?b ?s] =>
          destruct (tryInsert_only a b s) as (n' & m' & u' & ->)
      end.
      exists n', m', u'. rewrite Hacc. reflexivity.
    - exists (n_obstacles st), (obstacle_map st), (obstacle_map_updated st).
      destruct st; reflexivity. }
  destruct H as (n & m & u & ->). repeat split.
Qed.

(** X2. The detection callback raises [obstacle_map_updated] whenever it
    changes anything: after the callback the globals are what they were, or
    the flag is set. The callback never clears the flag. *)
Theorem X2_callback_raises_flag (env : Env fl) (msg : ObstacleMsg fl) (st : State fl) :
  let st' := fst (color_detection_cb env msg st) in
  (st' = st \/ obstacle_map_updated st' = true) /\
  (obstacle_map_updated st = true -> obstacle_map_updated st' = true).
Proof.
  cbv zeta. unfold color_detection_cb.
  pose proof (color_detection_cb_loop_flag env (loop_range (msg_size msg)) (st, msg)) as H.
  cbn [fst] in H. split; [exact H |].
  intros Hset. destruct H as [-> | H]; assumption.
Qed.

(** X3. Observations that fail the validity test are dropped: when the norm
    of each of the first [size] observations, taken after the substitution
    of a zero distance, fails [obstacle_mse >= 0.0], the callback leaves
    every global as it was. A message of size 0 or less is such a
    message. *)
Theorem X3_invalid_observations_dropped (env : Env fl) (msg : ObstacleMsg fl)
    (st : State fl) :
  msg_size msg <= Z.of_nat (length (obstacles msg)) ->
  (forall o, o ∈ take (Z.to_nat (msg_size msg)) (obstacles msg) ->
     fgeb (observation_mse (used_observation o)) (f_of_int 0) = false) ->
  fst (color_detection_cb env msg st) = st.
Proof.
  intros Hsize Hinv. unfold color_detection_cb, loop_range.
  destruct (Z.le_gt_cases (msg_size msg) 0) as [Hle | Hgt].
  { rewrite seqZ_nil by exact Hle. reflexivity. }
  rewrite <- (Z2Nat.id (msg_size msg)) at 1 by lia.
  rewrite color_detection_cb_loop_state by lia. rewrite drop_0.
  revert Hinv. generalize (take (Z.to_nat (msg_size msg)) (obstacles msg)) as l.
  intros l. induction l as [| o l IH]; intros Hinv; [reflexivity |].
  cbn [fold_left]. rewrite spec_ingest_invalid by (apply Hinv; left).
  apply IH. intros o' Ho'. apply Hinv. right. exact Ho'.
Qed.

(** X4. The first detection is always stored. On an empty map the loop of
    [checkObstaclePresence] has no iteration, so a message whose first
    observation passes the validity test puts the position of that
    observation in slot 0, whatever the position is; the rest of the
    message leaves slot 0 alone, and the flag of the map is set. *)
Theorem X4_first_detection_stored (env : Env fl) (msg : ObstacleMsg fl) (st : State fl)
    (o : ObstacleObs fl) :
  n_obstacles st = 0 ->
  1 <= MAX_OBSTACLES_IN_MAP <= 255 ->
  Z.of_nat (length (obstacle_map st)) = MAX_OBSTACLES_IN_MAP ->
  1 <= msg_size msg ->
  obstacles msg !! 0%nat = Some o ->
  fgeb (observation_mse (used_observation o)) (f_of_int 0) = true ->
  let st' := fst (color_detection_cb env msg st) in
  1 <= n_obstacles st' /\
  arr_get zero_obstacle (obstacle_map st') 0 =
    {| loc := absolute_position env (used_observation o) |} /\
  obstacle_map_updated st' = true.
Proof.
  intros Hn0 Hmax Hlen Hsize Ho Hvalid. cbv zeta.
  unfold color_detection_cb, loop_range. rewrite seqZ_cons by lia. cbn [fold_left].
  rewrite (color_detection_cb_body_spec env st msg 0 o) by (try lia; exact Ho).
  rewrite (spec_ingest_valid env st o Hvalid).
  set (p := absolute_position env (used_observation o)).
  assert (Hc : checkObstaclePresence st (obstacle_map st) (x p) (y p) = false).
  { unfold checkObstaclePresence. rewrite Hn0. reflexivity. }
  rewrite (tryInsert_accepted st (x p) (y p) Hc) by lia. cbn [snd].
  rewrite Hn0. change (to_u8 (0 + 1)) with 1. change (1 - 1) with 0.
  set (s1 := set_obstacle_map_updated true _).
  assert (Hwf1 : map_wf s1).
  { unfold s1, map_wf. norm_state. rewrite length_arr_set. lia. }
  assert (Hslot : arr_get zero_obstacle (obstacle_map s1) 0 = {| loc := p |}).
  { unfold s1. norm_state. rewrite arr_get_set_eq by lia. destruct p; reflexivity. }
  assert (Hn1 : n_obstacles s1 = 1) by reflexivity.
  assert (Hf1 : obstacle_map_updated s1 = true) by reflexivity.
  clearbody s1.
  match goal with
  | |- context [fold_left ?f ?l ?a] =>
      pose proof (color_detection_cb_loop_extends env l a) as Hext;
      pose proof (color_detection_cb_loop_flag env l a) as Hflag;
      set (s2 := fst (fold_left f l a)) in *
  end.
  cbn [fst] in Hext, Hflag. clearbody s2.
  destruct (Hext Hwf1) as [Hle Hkeep]; [lia |].
  split; [lia |]. split.
  - rewrite Hkeep by lia. exact Hslot.
  - destruct Hflag as [-> | Hflag]; assumption.
Qed.

(** X5. A position within the threshold of one just stored is rejected:
    when an insertion has stored a position, the insertion of a second
    position whose distance to the first is below 1.0, or is not a number,
    returns false and changes nothing. *)
Theorem X5_nearby_insertion_rejected (st : State fl) (p1x p1y p2x p2y : Z) :
  map_wf st ->
  MAX_OBSTACLES_IN_MAP <= 255 ->
  fst (tryInsert p1x p1y st) = true ->
  (let d := obstacle_distance {| loc := {| x := p1x; y := p1y |} |} p2x p2y in
   fltb d (f_of_int 1) = true \/ feqb d d = false) ->
  let st1 := snd (tryInsert p1x p1y st) in
  tryInsert p2x p2y st1 = (false, st1).
Proof.
  intros [Hn Hlen] Hmax Hfst Hnear. cbv zeta in *.
  destruct (tryInsert_outcome st p1x p1y) as [E | (_ & Hlt & E)]; rewrite E in *;
    [discriminate |].
  cbn [snd]. apply tryInsert_rejected. left.
  unfold checkObstaclePresence. norm_state.
  apply checkObstaclePresence_loop_true. exists (n_obstacles st).
  rewrite to_u8_small by lia.
  replace (n_obstacles st + 1 - 1) with (n_obstacles st) by lia.
  split; [apply elem_of_loop_range; lia |].
  rewrite arr_get_set_eq by lia. apply too_close_true. exact Hnear.
Qed.

(** X6. No entry point modifies or removes a stored obstacle: over any
    sequence of executions of the callback and of the periodic function,
    [n_obstacles] does not decrease and every slot below the earlier
    [n_obstacles] holds what it held. *)
Theorem X6_obstacles_kept (evs : list (Event fl)) (st : State fl) :
  map_wf st ->
  MAX_OBSTACLES_IN_MAP <= 255 ->
  let st' := run evs st in
  n_obstacles st <= n_obstacles st' /\
  forall i, 0 <= i < n_obstacles st ->
    arr_get zero_obstacle (obstacle_map st') i = arr_get zero_obstacle (obstacle_map st) i.
Proof.
  intros Hwf Hmax. cbv zeta. change (map_extends st (run evs st)).
  revert st Hwf. induction evs as [| ev evs IH]; intros st Hwf;
    [apply map_extends_refl |].
  change (run (ev :: evs) st) with (run evs (step st ev)).
  eapply map_extends_trans; [apply step_extends; assumption |].
  apply IH, step_map_wf, Hwf.
Qed.

(** X7. The obstacles of the map stay apart. After any sequence of
    executions from program start, the distance that the test of
    [checkObstaclePresence] computes from a stored obstacle to one stored
    after it is a number and is not below 1.0. *)
Theorem X7_obstacles_stay_apart (evs : list (Event fl)) :
  0 <= MAX_OBSTACLES_IN_MAP ->
  let st := run evs initial_state in
  forall i j, 0 <= i < j -> j < n_obstacles st ->
    let o := arr_get zero_obstacle (obstacle_map st) j in
    let d := obstacle_distance (arr_get zero_obstacle (obstacle_map st) i)
               (x (loc o)) (y (loc o)) in
    fltb d (f_of_int 1) = false /\ feqb d d = true.
Proof.
  intros Hmax. cbv zeta. change (obstacles_apart (run evs initial_state)).
  assert (H : map_wf (run evs initial_state) /\ n_obstacles (run evs initial_state) < 256 /\
              obstacles_apart (run evs initial_state)); [| apply H].
  apply (fold_left_invariant step
           (fun s : State fl => map_wf s /\ n_obstacles s < 256 /\ obstacles_apart s)).
  - intros s ev. apply step_apart.
  - split; [apply initial_state_map_wf, Hmax |]. split; [reflexivity |].
    intros i j Hij Hj. unfold initial_state in Hj. norm_state. lia.
Qed.

Lemma color_detection_cb_loop_count (env : Env fl) (l : list Z)
    (acc : State fl * ObstacleMsg fl) :
  map_wf (fst acc) ->
  MAX_OBSTACLES_IN_MAP <= 255 ->
  n_obstacles (fst (fold_left (color_detection_cb_body env) l acc)) <=
  n_obstacles (fst acc) + Z.of_nat (length l).
Proof.
  intros Hwf Hmax. revert acc Hwf.
  induction l as [| i l IH]; intros acc Hwf; cbn [fold_left length]; [lia |].
  assert (H1 : n_obstacles (fst (color_detection_cb_body env acc i)) <=
               n_obstacles (fst acc) + 1).
  { unfold color_detection_cb_body. destruct (fgeb _ _); cbn [fst]; [| lia].
    match goal with
    | |- context [tryInsert ?a ?b ?s] =>
        destruct (tryInsert_cases s a b Hwf Hmax) as [-> | (_ & -> & _)]; lia
    end. }
  pose proof (IH _ (color_detection_cb_body_map_wf env acc i Hwf)) as H2. lia.
Qed.

(** X19. An iteration of the callback stores at most one obstacle: a
    message adds no more obstacles to the map than its [size] field
    announces, and none when [size] is 0 or less. *)
Theorem X19_batch_bound (env : Env fl) (msg : ObstacleMsg fl) (st : State fl) :
  map_wf st ->
  MAX_OBSTACLES_IN_MAP <= 255 ->
  let st' := fst (color_detection_cb env msg st) in
  n_obstacles st <= n_obstacles st' <= n_obstacles st + Z.max 0 (msg_size msg).
Proof.
  intros Hwf Hmax. cbv zeta. unfold color_detection_cb. split.
  - apply (color_detection_cb_loop_extends env _ (st, msg)); assumption.
  - pose proof (color_detection_cb_loop_count env (loop_range (msg_size msg)) (st, msg)
                  Hwf Hmax) as H.
    unfold loop_range in H at 2. rewrite length_seqZ in H. cbn [fst] in H. lia.
Qed.

(** *** The periodic function, block by block *)

Lemma periodic_setup_done (env : Env fl) (st : State fl) :
  initialized st = true -> periodic_setup env st = st.
Proof. intros H. unfold periodic_setup. rewrite H. reflexivity. Qed.

Lemma periodic_setup_initialized (env : Env fl) (st : State fl) :
  initialized (periodic_setup env st) = true.
Proof.
  unfold periodic_setup. destruct (initialized st) eqn:E; [exact E |].
  destruct (periodic_init_only env st) as (ft & ot & ->). reflexivity.
Qed.

Lemma periodic_rebuild_clears (st : State fl) :
  obstacle_map_updated (periodic_rebuild st) = false.
Proof.
  unfold periodic_rebuild. destruct (obstacle_map_updated st) eqn:E; [reflexivity | exact E].
Qed.

Lemma periodic_rebuild_clean (st : State fl) :
  obstacle_map_updated st = false -> periodic_rebuild st = st.
Proof. intros H. unfold periodic_rebuild. rewrite H. reflexivity. Qed.

Lemma periodic_inner_skipped (st : State fl) :
  fltb (mse_inner st) f_half = false \/ trajectory_updated st = false ->
  periodic_inner st = st.
Proof.
  intros H. unfold periodic_inner.
  destruct H as [-> | ->]; [reflexivity | rewrite andb_false_r; reflexivity].
Qed.

(** The block under [if (mse_inner < 0.5 && trajectory_updated)], taken. *)
Lemma periodic_inner_taken (st : State fl) :
  fltb (mse_inner st) f_half = true ->
  trajectory_updated st = true ->
  let seg := segment st (subtraj_index st) in
  let p := arr_get zero_coor (inner_trajectory seg) (inner_index st) in
  nav_log (periodic_inner st) = nav_log st ++ [waypoint_move_xy_i WP_INNER (x p) (y p)] /\
  inner_index (periodic_inner st) =
    (if inner_index st <? size seg - 1 then to_u8 (inner_index st + 1) else inner_index st).
Proof.
  intros Hlt Htu. cbv zeta. unfold periodic_inner. rewrite Hlt, Htu. cbn [andb].
  unfold moveWaypointNext, moveWaypoint. cbv zeta. rewrite segment_nav_call. norm_state.
  destruct (inner_index st <? size (segment st (subtraj_index st)) - 1); norm_state;
    split; reflexivity.
Qed.

Lemma periodic_inner_log (st : State fl) :
  nav_log (periodic_inner st) = nav_log st \/
  exists a b, nav_log (periodic_inner st) = nav_log st ++ [waypoint_move_xy_i WP_INNER a b].
Proof.
  destruct (fltb (mse_inner st) f_half) eqn:Hlt.
  - destruct (trajectory_updated st) eqn:Htu.
    + right. destruct (periodic_inner_taken st Hlt Htu) as [Hlog _].
      eexists _, _. exact Hlog.
    + left. rewrite periodic_inner_skipped by (right; exact Htu). reflexivity.
  - left. rewrite periodic_inner_skipped by (left; exact Hlt). reflexivity.
Qed.

(** The state in which the block under [if (mse_outer < 0.5)] calls
    [updateTrajectory], with the globals the call reads. *)
Lemma periodic_outer_before (st : State fl) :
  fltb (mse_outer st) f_half = true ->
  exists before,
    periodic_outer st =
      set_trajectory_updated true (snd (updateTrajectory (subtraj_index before) before)) /\
    full_trajectory before = full_trajectory st /\
    outer_index before =
      (if outer_index st <? OUTER_TRAJECTORY_LENGTH - 1
       then to_u8 (outer_index st + 1) else 0) /\
    subtraj_index before =
      (if outer_index st <? OUTER_TRAJECTORY_LENGTH - 1
       then to_u8 (to_u8 (outer_index st + 1) - 1)
       else to_u8 (OUTER_TRAJECTORY_LENGTH - 1)) /\
    inner_index before = 0.
Proof.
  intros Hlt. unfold periodic_outer. rewrite Hlt.
  destruct (outer_index st <? OUTER_TRAJECTORY_LENGTH - 1); cbv zeta;
    rewrite updateTrajectory_true;
    (eexists; split; [reflexivity |]);
    unfold moveWaypointNext, moveWaypoint; norm_state; repeat split.
Qed.

Lemma periodic_outer_move (st : State fl) :
  nav_log (periodic_outer st) = nav_log st \/
  exists a b, nav_log (periodic_outer st) = nav_log st ++ [waypoint_move_xy_i WP_OUTER a b].
Proof.
  destruct (fltb (mse_outer st) f_half) eqn:Hlt.
  - right. destruct (periodic_outer_taken st Hlt) as (before & -> & _ & _ & _ & _ & Hlog).
    pose proof (updateTrajectory_keeps (subtraj_index before) before) as Hk.
    cbv zeta in Hk. destruct Hk as (_ & _ & _ & _ & _ & _ & _ & _ & _ & _ & _ & Klog).
    norm_state. rewrite Klog, Hlog. eexists _, _. reflexivity.
  - left. rewrite (periodic_outer_not_taken st Hlt). reflexivity.
Qed.

Lemma periodic_outer_flag (st : State fl) :
  trajectory_updated (periodic_outer st) =
  trajectory_updated st || fltb (mse_outer st) f_half.
Proof.
  destruct (fltb (mse_outer st) f_half) eqn:Hlt.
  - destruct (periodic_outer_before st Hlt) as (before & -> & _).
    norm_state. rewrite orb_true_r. reflexivity.
  - rewrite (periodic_outer_not_taken st Hlt), orb_false_r. reflexivity.
Qed.

(** X8. What every tick leaves behind: [initialized] is true,
    [obstacle_map_updated] is false, [mse_outer] and [mse_inner] are the
    distances to the two waypoints, and the obstacle map and its count are
    what they were; the periodic function never writes the map. *)
Theorem X8_tick_postcondition (env : Env fl) (st : State fl) :
  let st' := orange_avoider_periodic env st in
  initialized st' = true /\
  obstacle_map_updated st' = false /\
  mse_outer st' = checkWaypointArrival env WP_OUTER /\
  mse_inner st' = checkWaypointArrival env WP_INNER /\
  n_obstacles st' = n_obstacles st /\
  obstacle_map st' = obstacle_map st.
Proof.
  cbv zeta. unfold orange_avoider_periodic. cbv zeta.
  split; [| split; [| split; [| split]]].
  - frame. apply periodic_setup_initialized.
  - frame. apply periodic_rebuild_clears.
  - frame. reflexivity.
  - frame. reflexivity.
  - split; frame; reflexivity.
Qed.

(** X9. The navigation calls of a tick: at most one move of the inner
    waypoint, then at most one move of the outer waypoint, then the call
    of [NavGotoWaypointHeading] on the inner waypoint, which every tick
    ends with; the calls are appended to those made before. *)
Theorem X9_tick_navigation_calls (env : Env fl) (st : State fl) :
  exists inner_moves outer_moves,
    nav_log (orange_avoider_periodic env st) =
      nav_log st ++ inner_moves ++ outer_moves ++ [NavGotoWaypointHeading WP_INNER] /\
    (inner_moves = [] \/ exists a b, inner_moves = [waypoint_move_xy_i WP_INNER a b]) /\
    (outer_moves = [] \/ exists a b, outer_moves = [waypoint_move_xy_i WP_OUTER a b]).
Proof.
  unfold orange_avoider_periodic. cbv zeta.
  set (s3 := periodic_rebuild _).
  assert (H3 : nav_log s3 = nav_log st) by (unfold s3; frame; reflexivity).
  clearbody s3.
  pose proof (periodic_inner_log s3) as Hi.
  set (s4 := periodic_inner s3) in *. clearbody s4.
  pose proof (periodic_outer_move s4) as Ho.
  set (s5 := periodic_outer s4) in *. clearbody s5.
  norm_state.
  destruct Hi as [Hi | (a & b & Hi)]; destruct Ho as [Ho | (c & d & Ho)];
    rewrite Ho, Hi, H3.
  - exists [], []. split; [reflexivity | split; left; reflexivity].
  - exists [], [waypoint_move_xy_i WP_OUTER c d].
    rewrite <- !app_assoc. split; [reflexivity |].
    split; [left; reflexivity | right; eexists _, _; reflexivity].
  - exists [waypoint_move_xy_i WP_INNER a b], [].
    rewrite <- !app_assoc. split; [reflexivity |].
    split; [right; eexists _, _; reflexivity | left; reflexivity].
  - exists [waypoint_move_xy_i WP_INNER a b], [waypoint_move_xy_i WP_OUTER c d].
    rewrite <- !app_assoc. split; [reflexivity |].
    split; right; eexists _, _; reflexivity.
Qed.

(** X10. A tick on which nothing happens. Once the setup has run, a tick
    with a clean map that reaches no waypoint, or reaches only the inner
    one while [trajectory_updated] is false, stores the two arrival
    distances and calls [NavGotoWaypointHeading] on the inner waypoint; it
    changes nothing else. There is no time-out: the state machine waits. *)
Theorem X10_idle_tick (env : Env fl) (st : State fl) :
  initialized st = true ->
  obstacle_map_updated st = false ->
  fltb (checkWaypointArrival env WP_OUTER) f_half = false ->
  (fltb (checkWaypointArrival env WP_INNER) f_half = false \/
   trajectory_updated st = false) ->
  orange_avoider_periodic env st =
  nav_call (NavGotoWaypointHeading WP_INNER)
    (set_mse_inner (checkWaypointArrival env WP_INNER)
       (set_mse_outer (checkWaypointArrival env WP_OUTER) st)).
Proof.
  intros Hini Hclean Houter Hinner. unfold orange_avoider_periodic. cbv zeta.
  rewrite (periodic_setup_done env st Hini).
  rewrite (periodic_rebuild_clean (periodic_arrival env st)) by exact Hclean.
  rewrite (periodic_inner_skipped (periodic_arrival env st)) by exact Hinner.
  rewrite (periodic_outer_not_taken (periodic_arrival env st)) by exact Houter.
  reflexivity.
Qed.

(** X11. A tick that reaches the inner waypoint only. Once the setup has
    run and [trajectory_updated] is true, on a tick with a clean map on
    which [mse_inner < 0.5] and not [mse_outer < 0.5], the inner waypoint
    is moved to slot [inner_index] of the active segment, and
    [inner_index] is then incremented if it is below the size of the
    segment minus 1 and left alone otherwise: it stops at the last point
    of the segment. The other indices and the trajectories are unchanged. *)
Theorem X11_inner_arrival (env : Env fl) (st : State fl) :
  initialized st = true ->
  obstacle_map_updated st = false ->
  trajectory_updated st = true ->
  fltb (checkWaypointArrival env WP_INNER) f_half = true ->
  fltb (checkWaypointArrival env WP_OUTER) f_half = false ->
  0 <= inner_index st < 255 ->
  let seg := segment st (subtraj_index st) in
  let p := arr_get zero_coor (inner_trajectory seg) (inner_index st) in
  let st' := orange_avoider_periodic env st in
  nav_log st' =
    nav_log st ++
    [waypoint_move_xy_i WP_INNER (x p) (y p); NavGotoWaypointHeading WP_INNER] /\
  inner_index st' =
    (if inner_index st <? size seg - 1 then inner_index st + 1 else inner_index st) /\
  outer_index st' = outer_index st /\
  subtraj_index st' = subtraj_index st /\
  full_trajectory st' = full_trajectory st.
Proof.
  intros Hini Hclean Htu Hinner Houter Hii. cbv zeta.
  unfold orange_avoider_periodic. cbv zeta.
  rewrite (periodic_setup_done env st Hini).
  rewrite (periodic_rebuild_clean (periodic_arrival env st)) by exact Hclean.
  set (s2 := periodic_arrival env st).
  destruct (periodic_inner_taken s2 Hinner Htu) as [Hlog Hidx].
  pose proof (periodic_inner_keeps s2) as Hk. cbv zeta in Hk.
  destruct Hk as (Km & _ & Ko & Ks & _ & _ & _ & _ & _ & Kft & _).
  set (s4 := periodic_inner s2) in *. clearbody s4.
  rewrite (periodic_outer_not_taken s4) by (rewrite Km; exact Houter).
  norm_state. rewrite Hlog, Hidx, Ko, Ks, Kft. unfold s2, segment. norm_state.
  rewrite <- app_assoc.
  split; [reflexivity |]. split; [| repeat split].
  destruct (inner_index st <? _); [apply to_u8_small; lia | reflexivity].
Qed.

(** *** The segments a rebuild writes *)

(** A property that an iteration on an element of the list keeps holds
    after the loop. *)
Lemma fold_left_invariant_elem {S B : Type} (f : S -> B -> S) (P : S -> Prop) (l : list B) :
  (forall s b, b ∈ l -> P s -> P (f s b)) ->
  forall s, P s -> P (fold_left f l s).
Proof.
  induction l as [| b l IH]; intros Hstep s Hs; simpl; [exact Hs |].
  apply IH.
  - intros s' b' Hb'. apply Hstep. right. exact Hb'.
  - apply Hstep; [left | exact Hs].
Qed.

Lemma full_trajectory_set_inner_point (k i : Z) (p : EnuCoor_i) (s s' : State fl) :
  full_trajectory s' = full_trajectory s ->
  full_trajectory (set_inner_point k i p s') = full_trajectory (set_inner_point k i p s).
Proof. intros H. unfold set_inner_point, segment. norm_state. rewrite H. reflexivity. Qed.

(** The full trajectory that [updateTrajectory] leaves depends on the
    globals it reads: the obstacle map and its count, the full trajectory
    and [subtraj_index]. *)
Lemma updateTrajectory_reads (k : Z) (st st' : State fl) :
  obstacle_map st' = obstacle_map st ->
  n_obstacles st' = n_obstacles st ->
  full_trajectory st' = full_trajectory st ->
  subtraj_index st' = subtraj_index st ->
  full_trajectory (snd (updateTrajectory k st')) =
  full_trajectory (snd (updateTrajectory k st)).
Proof.
  intros Hm Hn Hf Hs. unfold updateTrajectory. cbn [snd].
  assert (Hseg : segment st' k = segment st k) by (unfold segment; rewrite Hf; reflexivity).
  rewrite Hm, Hn, Hseg.
  set (r := optimize_trajectory _ _ _ _).
  assert (H1 : full_trajectory (set_segment_size k (to_u8 (snd r)) st') =
               full_trajectory (set_segment_size k (to_u8 (snd r)) st)).
  { unfold set_segment_size. norm_state. rewrite Hf, Hseg. reflexivity. }
  assert (H2 : subtraj_index (set_segment_size k (to_u8 (snd r)) st') =
               subtraj_index (set_segment_size k (to_u8 (snd r)) st)) by exact Hs.
  revert H1 H2.
  generalize (set_segment_size k (to_u8 (snd r)) st') (set_segment_size k (to_u8 (snd r)) st).
  generalize (loop_range INNER_TRAJECTORY_SPACE) as l.
  intros l. induction l as [| i l IH]; intros s' s H1 H2; [exact H1 |].
  cbn [fold_left]. apply IH.
  - rewrite !updateTrajectory_body_is_store. unfold segment. rewrite H1, H2.
    apply full_trajectory_set_inner_point. exact H1.
  - rewrite !updateTrajectory_body_is_store. exact H2.
Qed.

(** [updateTrajectory] writes the points of the active segment and the
    size of the segment it is given, and no other segment. *)
Lemma updateTrajectory_other (k k' : Z) (st : State fl) :
  k' <> subtraj_index st ->
  let st' := snd (updateTrajectory k st) in
  inner_trajectory (segment st' k') = inner_trajectory (segment st k') /\
  (k' <> k -> segment st' k' = segment st k').
Proof.
  intros Hne. cbv zeta. unfold updateTrajectory. cbn [snd].
  set (r := optimize_trajectory _ _ _ _).
  apply (fold_left_invariant (updateTrajectory_body (fst r) k)
           (fun s : State fl =>
              subtraj_index s = subtraj_index st /\
              inner_trajectory (segment s k') = inner_trajectory (segment st k') /\
              (k' <> k -> segment s k' = segment st k'))).
  - intros s i (Hs & Hin & Hseg). rewrite updateTrajectory_body_is_store.
    rewrite segment_set_inner_point_ne by congruence.
    split; [exact Hs |]. split; assumption.
  - split; [reflexivity |]. split.
    + apply inner_set_segment_size.
    + intros Hk. apply segment_set_segment_size_ne. congruence.
Qed.

(** X12. A tick on a changed map. Once the setup has run, a tick that
    finds [obstacle_map_updated] set and does not reach the outer waypoint
    leaves the full trajectory as [updateTrajectory] on the active segment
    makes it and clears the flag; the boolean result of that rebuild is
    dropped, so [trajectory_updated] is what it was, and the outer index
    and the active segment are unchanged. *)
Theorem X12_dirty_rebuild (env : Env fl) (st : State fl) :
  initialized st = true ->
  obstacle_map_updated st = true ->
  fltb (checkWaypointArrival env WP_OUTER) f_half = false ->
  let st' := orange_avoider_periodic env st in
  full_trajectory st' =
    full_trajectory (snd (updateTrajectory (subtraj_index st) st)) /\
  obstacle_map_updated st' = false /\
  trajectory_updated st' = trajectory_updated st /\
  outer_index st' = outer_index st /\
  subtraj_index st' = subtraj_index st.
Proof.
  intros Hini Hdirty Houter. cbv zeta. unfold orange_avoider_periodic. cbv zeta.
  rewrite (periodic_setup_done env st Hini).
  set (s2 := periodic_arrival env st).
  assert (H3 : full_trajectory (periodic_rebuild s2) =
               full_trajectory (snd (updateTrajectory (subtraj_index st) st))).
  { unfold periodic_rebuild.
    replace (obstacle_map_updated s2) with true by (symmetry; exact Hdirty).
    norm_state. apply updateTrajectory_reads; reflexivity. }
  pose proof (periodic_rebuild_clears s2) as Hc.
  pose proof (periodic_rebuild_keeps s2) as Hk. cbv zeta in Hk.
  destruct Hk as (Km & _ & Ko & _ & Ks & Ktu & _).
  set (s3 := periodic_rebuild s2) in *. clearbody s3.
  pose proof (periodic_inner_keeps s3) as Hk4. cbv zeta in Hk4.
  destruct Hk4 as (Km4 & _ & Ko4 & Ks4 & Ktu4 & _ & Kf4 & _ & _ & Kft4 & _).
  set (s4 := periodic_inner s3) in *. clearbody s4.
  rewrite (periodic_outer_not_taken s4) by (rewrite Km4, Km; exact Houter).
  norm_state. rewrite Kft4, Kf4, Ktu4, Ko4, Ks4, H3, Hc, Ktu, Ko, Ks.
  repeat split.
Qed.

(** X13. [updateTrajectory] writes into the active segment, whatever
    pointers it is given: with its pointers on segment [k], the points of
    every segment other than [full_trajectory[subtraj_index]] are what
    they were, and a segment other than that one and than segment [k] is
    unchanged altogether. No global but the full trajectory is written. *)
Theorem X13_rebuild_other_segments (k k' : Z) (st : State fl) :
  k' <> subtraj_index st ->
  let st' := snd (updateTrajectory k st) in
  inner_trajectory (segment st' k') = inner_trajectory (segment st k') /\
  (k' <> k -> segment st' k' = segment st k') /\
  exists ft, st' = set_full_trajectory ft st.
Proof.
  intros Hne. cbv zeta.
  destruct (updateTrajectory_other k k' st Hne) as [Hin Hseg].
  split; [exact Hin |]. split; [exact Hseg |]. apply updateTrajectory_only.
Qed.

(** X14. The segments a tick writes. Once the setup has run, a tick leaves
    every segment as it was, except the segment that is active when the
    tick starts and the segment that is active when it ends. *)
Theorem X14_tick_other_segments (env : Env fl) (st : State fl) (k : Z) :
  initialized st = true ->
  k <> subtraj_index st ->
  k <> subtraj_index (orange_avoider_periodic env st) ->
  segment (orange_avoider_periodic env st) k = segment st k.
Proof.
  intros Hini Hk. unfold orange_avoider_periodic. cbv zeta.
  rewrite (periodic_setup_done env st Hini).
  set (s2 := periodic_arrival env st).
  assert (H3 : segment (periodic_rebuild s2) k = segment st k).
  { unfold periodic_rebuild. destruct (obstacle_map_updated s2); [| reflexivity].
    destruct (updateTrajectory_other (subtraj_index s2) k s2 Hk) as [_ Hseg].
    unfold segment in *. norm_state. apply Hseg. exact Hk. }
  pose proof (periodic_rebuild_keeps s2) as Hk3. cbv zeta in Hk3.
  destruct Hk3 as (_ & _ & _ & _ & Ks & _).
  set (s3 := periodic_rebuild s2) in *. clearbody s3.
  pose proof (periodic_inner_keeps s3) as Hk4. cbv zeta in Hk4.
  destruct Hk4 as (_ & _ & _ & Ks4 & _ & _ & _ & _ & _ & Kft4 & _).
  set (s4 := periodic_inner s3) in *. clearbody s4.
  assert (H4 : segment s4 k = segment st k).
  { rewrite <- H3. unfold segment. rewrite Kft4. reflexivity. }
  destruct (fltb (mse_outer s4) f_half) eqn:Hlt.
  - destruct (periodic_outer_before s4 Hlt) as (before & -> & Hft & _).
    pose proof (updateTrajectory_keeps (subtraj_index before) before) as Hu.
    cbv zeta in Hu. destruct Hu as (_ & _ & _ & _ & Ksb & _).
    norm_state. rewrite Ksb. intros Hk'.
    destruct (updateTrajectory_other (subtraj_index before) k before Hk') as [_ Hseg].
    unfold segment in *. norm_state. rewrite (Hseg Hk'), Hft. exact H4.
  - rewrite (periodic_outer_not_taken s4 Hlt). intros _. exact H4.
Qed.

(** *** The one-time setup and the slots it leaves *)

Lemma buildInnerTrajectory_outside (k k' j : Z) (st : State fl) :
  ~ 0 <= j < INNER_TRAJECTORY_LENGTH ->
  arr_get zero_coor (inner_trajectory (segment (buildInnerTrajectory k st) k')) j =
  arr_get zero_coor (inner_trajectory (segment st k')) j.
Proof.
  intros Hj. unfold buildInnerTrajectory. cbv zeta.
  apply (fold_left_invariant_elem _
           (fun s : State fl =>
              arr_get zero_coor (inner_trajectory (segment s k')) j =
              arr_get zero_coor (inner_trajectory (segment st k')) j)); [| reflexivity].
  intros s i Hi Hs. apply elem_of_loop_range in Hi. unfold buildInnerTrajectory_body.
  rewrite point_set_inner_point_ne by (right; lia). exact Hs.
Qed.

Lemma arr_get_replicate {A : Type} (d v : A) (n : nat) (i : Z) :
  arr_get d (replicate n v) i = v \/ arr_get d (replicate n v) i = d.
Proof.
  unfold arr_get. destruct (0 <=? i); [| right; reflexivity].
  destruct (replicate n v !! Z.to_nat i) as [w |] eqn:E; [| right; reflexivity].
  left. apply lookup_replicate in E as [-> _]. reflexivity.
Qed.

Lemma initial_state_point (k j : Z) :
  arr_get zero_coor (inner_trajectory (segment (fl := fl) initial_state k)) j = zero_coor.
Proof.
  unfold segment, initial_state. norm_state.
  match goal with
  | |- context [arr_get ?d (replicate ?n ?v) k] =>
      destruct (arr_get_replicate d v n k) as [-> | ->]
  end; cbn [inner_trajectory zero_segment].
  - match goal with
    | |- context [arr_get ?d (replicate ?n ?v) j] =>
        destruct (arr_get_replicate d v n j) as [-> | ->]
    end; reflexivity.
  - unfold arr_get. destruct (0 <=? j); reflexivity.
Qed.

(** X15. The setup writes the first [INNER_TRAJECTORY_LENGTH] slots of a
    segment and no other: a slot of any segment at an index outside
    [0, INNER_TRAJECTORY_LENGTH) holds after the setup what it held
    before, which at program start is (0,0). *)
Theorem X15_setup_writes_prefix (env : Env fl) (st : State fl) (k j : Z) :
  ~ 0 <= j < INNER_TRAJECTORY_LENGTH ->
  arr_get zero_coor (inner_trajectory (segment (periodic_init env st) k)) j =
    arr_get zero_coor (inner_trajectory (segment st k)) j /\
  arr_get zero_coor (inner_trajectory (segment (periodic_init env initial_state) k)) j =
    zero_coor.
Proof.
  intros Hj.
  assert (H : forall s : State fl,
             arr_get zero_coor (inner_trajectory (segment (periodic_init env s) k)) j =
             arr_get zero_coor (inner_trajectory (segment s k)) j).
  { intros s. unfold periodic_init. cbv zeta.
    set (st1 := fold_left _ _ s).
    destruct (set_sizes_loop (to_u8 INNER_TRAJECTORY_LENGTH)
                (loop_range OUTER_TRAJECTORY_LENGTH) s) as (_ & _ & Hin1 & _).
    fold st1 in Hin1.
    set (st2 := buildOuterTrajectory env st1).
    assert (Hft2 : full_trajectory st2 = full_trajectory st1).
    { unfold st2. destruct (buildOuterTrajectory_only env st1) as [ot ->]. reflexivity. }
    rewrite <- Hin1.
    change (segment st1 k) with (arr_get zero_segment (full_trajectory st1) k).
    rewrite <- Hft2. fold (segment st2 k). clearbody st2.
    unfold segment at 1. norm_state.
    match goal with
    | |- context [fold_left ?f ?l st2] => fold (segment (fold_left f l st2) k)
    end.
    apply (fold_left_invariant (fun s' i => buildInnerTrajectory (to_u8 i) s')
             (fun s' : State fl =>
                arr_get zero_coor (inner_trajectory (segment s' k)) j =
                arr_get zero_coor (inner_trajectory (segment st2 k)) j)); [| reflexivity].
    intros s' i Hs. rewrite buildInnerTrajectory_outside by exact Hj. exact Hs. }
  split; [apply H |]. rewrite H. apply initial_state_point.
Qed.

(** *** The state machine over executions *)

Lemma tick_trajectory_updated (env : Env fl) (st : State fl) :
  trajectory_updated (orange_avoider_periodic env st) =
  trajectory_updated st || fltb (checkWaypointArrival env WP_OUTER) f_half.
Proof.
  unfold orange_avoider_periodic. cbv zeta. norm_state.
  rewrite periodic_outer_flag. frame. reflexivity.
Qed.

(** X16. [trajectory_updated] is set by the first tick that reaches the
    outer waypoint and is never cleared: after a tick it is true exactly
    when it was true before or [mse_outer < 0.5] on that tick, and once
    true it stays true over any sequence of executions of the callback
    and of the periodic function. *)
Theorem X16_trajectory_updated_stays (evs : list (Event fl)) (st : State fl) (env : Env fl) :
  trajectory_updated (orange_avoider_periodic env st) =
    trajectory_updated st || fltb (checkWaypointArrival env WP_OUTER) f_half /\
  (trajectory_updated st = true -> trajectory_updated (run evs st) = true).
Proof.
  split; [apply tick_trajectory_updated |].
  apply (fold_left_invariant step (fun s : State fl => trajectory_updated s = true)).
  intros s ev Hs. destruct ev as [env' msg | env']; cbn [step].
  - destruct (color_detection_cb_keeps env' msg s) as (_ & _ & _ & _ & _ & -> & _).
    exact Hs.
  - rewrite tick_trajectory_updated, Hs. reflexivity.
Qed.

(** The indices after the block under [if (mse_outer < 0.5)]. *)
Lemma outer_advance_range (oi : Z) :
  1 <= OUTER_TRAJECTORY_LENGTH <= 256 ->
  0 <= oi < OUTER_TRAJECTORY_LENGTH ->
  let oi' := if oi <? OUTER_TRAJECTORY_LENGTH - 1 then to_u8 (oi + 1) else 0 in
  let si' :=
    if oi <? OUTER_TRAJECTORY_LENGTH - 1
    then to_u8 (to_u8 (oi + 1) - 1) else to_u8 (OUTER_TRAJECTORY_LENGTH - 1) in
  0 <= oi' < OUTER_TRAJECTORY_LENGTH /\
  0 <= si' < OUTER_TRAJECTORY_LENGTH /\
  si' = (oi' - 1) mod OUTER_TRAJECTORY_LENGTH.
Proof.
  intros Hlen Hoi. cbv zeta.
  destruct (Z.ltb_spec oi (OUTER_TRAJECTORY_LENGTH - 1)) as [Hlo | Hhi].
  - rewrite (to_u8_small (oi + 1)) by lia.
    replace (oi + 1 - 1) with oi by lia. rewrite to_u8_small by lia.
    rewrite Z.mod_small by lia. lia.
  - rewrite to_u8_small by lia. split; [lia |]. split; [lia |].
    apply (Z.mod_unique_pos _ _ (-1)); lia.
Qed.

Lemma step_first_arrival (st : State fl) (ev : Event fl) :
  1 <= OUTER_TRAJECTORY_LENGTH <= 256 ->
  before_first_arrival st \/ after_first_arrival st ->
  before_first_arrival (step st ev) \/ after_first_arrival (step st ev).
Proof.
  intros Hlen Hinv. destruct ev as [env msg | env]; cbn [step].
  - pose proof (color_detection_cb_keeps env msg st) as Hk. cbv zeta in Hk.
    destruct Hk as (_ & _ & Ko & Ki & Ks & Ktu & _ & _ & _ & Klog).
    unfold before_first_arrival, after_first_arrival in *.
    rewrite Ko, Ki, Ks, Ktu, Klog. exact Hinv.
  - unfold orange_avoider_periodic. cbv zeta.
    set (s3 := periodic_rebuild _).
    assert (H3 : outer_index s3 = outer_index st /\ inner_index s3 = inner_index st /\
                 subtraj_index s3 = subtraj_index st /\
                 trajectory_updated s3 = trajectory_updated st /\
                 nav_log s3 = nav_log st).
    { unfold s3. repeat split; frame; reflexivity. }
    destruct H3 as (Ho3 & Hi3 & Hs3 & Htu3 & Hlog3). clearbody s3.
    pose proof (periodic_inner_keeps s3) as Hk4. cbv zeta in Hk4.
    destruct Hk4 as (_ & _ & Ko4 & Ks4 & Ktu4 & _).
    assert (Hskip : trajectory_updated st = false -> periodic_inner s3 = s3).
    { intros Hf. apply periodic_inner_skipped. right. congruence. }
    set (s4 := periodic_inner s3) in *.
    destruct (fltb (mse_outer s4) f_half) eqn:Hlt.
    + right.
      assert (Hoi : 0 <= outer_index s4 < OUTER_TRAJECTORY_LENGTH).
      { rewrite Ko4, Ho3.
        destruct Hinv as [(_ & -> & _) | (_ & Hr & _)]; [lia | exact Hr]. }
      clearbody s4.
      destruct (periodic_outer_before s4 Hlt) as (before & -> & _ & Hob & Hsb & _).
      pose proof (updateTrajectory_keeps (subtraj_index before) before) as Hu.
      cbv zeta in Hu. destruct Hu as (_ & _ & Kou & _ & Ksu & _).
      unfold after_first_arrival. norm_state. rewrite Kou, Ksu, Hob, Hsb.
      split; [reflexivity |].
      destruct (outer_advance_range (outer_index s4) Hlen Hoi) as (H1 & _ & H2).
      split; assumption.
    + rewrite (periodic_outer_not_taken s4 Hlt).
      destruct Hinv as [(Htu & Ho & Hs & Hi & Hlog) | (Htu & Ho & Hs)].
      * left. rewrite (Hskip Htu) in *. clear Hskip. subst s4.
        unfold before_first_arrival. norm_state.
        rewrite Htu3, Ho3, Hs3, Hi3, Hlog3.
        repeat split; try assumption.
        apply Forall_app. split; [exact Hlog |]. repeat constructor.
      * right. clearbody s4. unfold after_first_arrival. norm_state.
        rewrite Ktu4, Ko4, Ks4, Htu3, Ho3, Hs3.
        split; [exact Htu |]. split; [exact Ho | exact Hs].
Qed.

(** X17. The state machine before and after the first arrival. After any
    sequence of executions from program start, either no tick has reached
    the outer waypoint, and then [trajectory_updated] is false, the three
    indices are 0 and no waypoint has been moved; or [trajectory_updated]
    is true, [outer_index] is below [OUTER_TRAJECTORY_LENGTH], and the
    active segment is the one before the outer point the vehicle flies
    to: [subtraj_index = (outer_index - 1) mod OUTER_TRAJECTORY_LENGTH]. *)
Theorem X17_first_arrival (evs : list (Event fl)) :
  1 <= OUTER_TRAJECTORY_LENGTH <= 256 ->
  let st := run evs initial_state in
  (trajectory_updated st = false /\
   outer_index st = 0 /\ subtraj_index st = 0 /\ inner_index st = 0 /\
   Forall is_heading_call (nav_log st)) \/
  (trajectory_updated st = true /\
   0 <= outer_index st < OUTER_TRAJECTORY_LENGTH /\
   subtraj_index st = (outer_index st - 1) mod OUTER_TRAJECTORY_LENGTH).
Proof.
  intros Hlen. cbv zeta.
  change (before_first_arrival (run evs initial_state) \/
          after_first_arrival (run evs initial_state)).
  apply (fold_left_invariant step
           (fun s : State fl => before_first_arrival s \/ after_first_arrival s)).
  - intros s ev. apply step_first_arrival, Hlen.
  - left. repeat split. constructor.
Qed.

(** *** The indices stay within the arrays *)

Lemma sizes_bounded_same (st st' : State fl) :
  full_trajectory st' = full_trajectory st -> sizes_bounded st -> sizes_bounded st'.
Proof. intros Hf Hb. unfold sizes_bounded, segment in *. rewrite Hf. exact Hb. Qed.

Lemma indices_in_range_same (st st' : State fl) :
  outer_index st' = outer_index st ->
  subtraj_index st' = subtraj_index st ->
  inner_index st' = inner_index st ->
  full_trajectory st' = full_trajectory st ->
  indices_in_range st -> indices_in_range st'.
Proof.
  intros Ho Hs Hi Hf (H1 & H2 & H3 & H4). unfold indices_in_range.
  rewrite Ho, Hs, Hi. split; [lia |]. split; [lia |]. split; [lia |].
  apply (sizes_bounded_same st); assumption.
Qed.

Lemma size_set_segment_size (k k' v : Z) (st : State fl) :
  size (segment (set_segment_size k v st) k') = v \/
  size (segment (set_segment_size k v st) k') = size (segment st k').
Proof.
  destruct (decide (k = k')) as [<- | Hne].
  - destruct (decide (0 <= k < Z.of_nat (length (full_trajectory st)))) as [Hk | Hk].
    + left. rewrite segment_set_segment_size_eq by exact Hk. reflexivity.
    + right. unfold segment, set_segment_size. norm_state.
      rewrite arr_set_out_of_range by exact Hk. reflexivity.
  - right. rewrite segment_set_segment_size_ne by exact Hne. reflexivity.
Qed.

Lemma set_segment_size_bounded (k v : Z) (st : State fl) :
  0 <= v <= INNER_TRAJECTORY_SPACE ->
  sizes_bounded st -> sizes_bounded (set_segment_size k v st).
Proof.
  intros Hv Hb k'. destruct (size_set_segment_size k k' v st) as [-> | ->];
    [exact Hv | apply Hb].
Qed.

Lemma updateTrajectory_sizes (k : Z) (st : State fl) :
  optimizer_within_space ->
  sizes_bounded st -> sizes_bounded (snd (updateTrajectory k st)).
Proof.
  intros Hopt Hb. unfold updateTrajectory. cbn [snd].
  set (r := optimize_trajectory _ _ _ _).
  apply (fold_left_invariant (updateTrajectory_body (fst r) k) sizes_bounded).
  - intros s i Hs k'. rewrite updateTrajectory_body_is_store, size_set_inner_point.
    apply Hs.
  - apply set_segment_size_bounded; [| exact Hb].
    split; [apply to_u8_range | apply Hopt].
Qed.

Lemma to_u8_le (v : Z) : 0 <= v -> 0 <= to_u8 v <= v.
Proof.
  intros Hv. split; [apply to_u8_range |]. unfold to_u8. apply Z.mod_le; lia.
Qed.

Lemma periodic_setup_range (env : Env fl) (st : State fl) :
  0 <= INNER_TRAJECTORY_LENGTH <= INNER_TRAJECTORY_SPACE ->
  indices_in_range st -> indices_in_range (periodic_setup env st).
Proof.
  intros Hlen Hr.
  pose proof (periodic_setup_keeps env st) as Hk. cbv zeta in Hk.
  destruct Hk as (_ & _ & Ko & Ki & Ks & _).
  destruct Hr as (H1 & H2 & H3 & H4). unfold indices_in_range.
  rewrite Ko, Ki, Ks. split; [lia |]. split; [lia |]. split; [lia |].
  unfold periodic_setup. destruct (initialized st); [exact H4 |].
  unfold periodic_init. cbv zeta.
  set (st1 := fold_left _ _ st).
  assert (Hb1 : sizes_bounded st1).
  { unfold st1.
    apply (fold_left_invariant
             (fun s i => set_segment_size i (to_u8 INNER_TRAJECTORY_LENGTH) s)
             sizes_bounded); [| exact H4].
    intros s i Hs. apply set_segment_size_bounded; [| exact Hs].
    pose proof (to_u8_le INNER_TRAJECTORY_LENGTH). lia. }
  clearbody st1.
  set (st2 := buildOuterTrajectory env st1).
  assert (Hb2 : sizes_bounded st2).
  { apply (sizes_bounded_same st1); [| exact Hb1].
    unfold st2. destruct (buildOuterTrajectory_only env st1) as [ot ->]. reflexivity. }
  clearbody st2.
  destruct (build_all_inner_keeps (loop_range OUTER_TRAJECTORY_LENGTH) st2)
    as (_ & _ & Hsz & _).
  intros k. unfold segment. norm_state.
  match goal with
  | |- context [fold_left ?f ?l st2] => fold (segment (fold_left f l st2) k)
  end.
  rewrite Hsz. apply Hb2.
Qed.

Lemma periodic_rebuild_range (st : State fl) :
  optimizer_within_space ->
  indices_in_range st -> indices_in_range (periodic_rebuild st).
Proof.
  intros Hopt Hr.
  pose proof (periodic_rebuild_keeps st) as Hk. cbv zeta in Hk.
  destruct Hk as (_ & _ & Ko & Ki & Ks & _).
  destruct Hr as (H1 & H2 & H3 & H4). unfold indices_in_range.
  rewrite Ko, Ki, Ks. split; [lia |]. split; [lia |]. split; [lia |].
  unfold periodic_rebuild. destruct (obstacle_map_updated st); [| exact H4].
  eapply sizes_bounded_same; [| apply (updateTrajectory_sizes (subtraj_index st) st Hopt H4)].
  reflexivity.
Qed.

Lemma periodic_inner_range (st : State fl) :
  indices_in_range st -> indices_in_range (periodic_inner st).
Proof.
  intros (H1 & H2 & H3 & H4).
  pose proof (periodic_inner_keeps st) as Hk. cbv zeta in Hk.
  destruct Hk as (_ & _ & Ko & Ks & _ & _ & _ & _ & _ & Kft & _).
  unfold indices_in_range. rewrite Ko, Ks.
  split; [exact H1 |]. split; [exact H2 |].
  split; [| apply (sizes_bounded_same st); assumption].
  destruct (fltb (mse_inner st) f_half) eqn:Hlt.
  - destruct (trajectory_updated st) eqn:Htu.
    + destruct (periodic_inner_taken st Hlt Htu) as [_ ->].
      destruct (Z.ltb_spec (inner_index st) (size (segment st (subtraj_index st)) - 1))
        as [Hlo | Hhi]; [| exact H3].
      pose proof (H4 (subtraj_index st)) as Hsz.
      pose proof (to_u8_le (inner_index st + 1)). lia.
    + rewrite periodic_inner_skipped by (right; exact Htu). exact H3.
  - rewrite periodic_inner_skipped by (left; exact Hlt). exact H3.
Qed.

Lemma periodic_outer_range (st : State fl) :
  optimizer_within_space ->
  1 <= OUTER_TRAJECTORY_LENGTH <= 256 ->
  1 <= INNER_TRAJECTORY_SPACE ->
  indices_in_range st -> indices_in_range (periodic_outer st).
Proof.
  intros Hopt Hlen Hspace (H1 & H2 & H3 & H4).
  destruct (fltb (mse_outer st) f_half) eqn:Hlt.
  - destruct (periodic_outer_before st Hlt) as (before & -> & Hft & Hob & Hsb & Hib).
    pose proof (updateTrajectory_keeps (subtraj_index before) before) as Hu.
    cbv zeta in Hu. destruct Hu as (_ & _ & Kou & Kiu & Ksu & _).
    assert (Hbb : sizes_bounded before) by (apply (sizes_bounded_same st); assumption).
    pose proof (updateTrajectory_sizes (subtraj_index before) before Hopt Hbb) as Hb'.
    set (s' := snd (updateTrajectory (subtraj_index before) before)) in *. clearbody s'.
    destruct (outer_advance_range (outer_index st) Hlen H1) as (R1 & R2 & _).
    unfold indices_in_range. norm_state. rewrite Kou, Kiu, Ksu, Hob, Hsb, Hib.
    split; [exact R1 |]. split; [exact R2 |]. split; [lia |].
    eapply sizes_bounded_same; [| exact Hb']. reflexivity.
  - rewrite (periodic_outer_not_taken st Hlt).
    exact (conj H1 (conj H2 (conj H3 H4))).
Qed.

Lemma step_indices_in_range (st : State fl) (ev : Event fl) :
  optimizer_within_space ->
  1 <= OUTER_TRAJECTORY_LENGTH <= 256 ->
  0 <= INNER_TRAJECTORY_LENGTH <= INNER_TRAJECTORY_SPACE ->
  1 <= INNER_TRAJECTORY_SPACE ->
  indices_in_range st -> indices_in_range (step st ev).
Proof.
  intros Hopt Hlen Hinner Hspace Hr. destruct ev as [env msg | env]; cbn [step].
  - pose proof (color_detection_cb_keeps env msg st) as Hk. cbv zeta in Hk.
    destruct Hk as (_ & _ & Ko & Ki & Ks & _ & _ & _ & Kft & _).
    apply (indices_in_range_same st); assumption.
  - unfold orange_avoider_periodic. cbv zeta.
    pose proof (periodic_setup_range env st Hinner Hr) as R1.
    set (s1 := periodic_setup env st) in *. clearbody s1.
    assert (R2 : indices_in_range (periodic_arrival env s1))
      by (apply (indices_in_range_same s1); [reflexivity .. | exact R1]).
    set (s2 := periodic_arrival env s1) in *. clearbody s2.
    pose proof (periodic_rebuild_range s2 Hopt R2) as R3.
    set (s3 := periodic_rebuild s2) in *. clearbody s3.
    pose proof (periodic_inner_range s3 R3) as R4.
    set (s4 := periodic_inner s3) in *. clearbody s4.
    pose proof (periodic_outer_range s4 Hopt Hlen Hspace R4) as R5.
    set (s5 := periodic_outer s4) in *. clearbody s5.
    apply (indices_in_range_same s5); [reflexivity .. | exact R5].
Qed.

(** X18. The indices stay within the arrays. With an optimizer that never
    reports a size above [INNER_TRAJECTORY_SPACE], after any sequence of
    executions from program start [outer_index] and [subtraj_index] are
    below [OUTER_TRAJECTORY_LENGTH], [inner_index] is below
    [INNER_TRAJECTORY_SPACE], and the size of every segment is at most
    [INNER_TRAJECTORY_SPACE]: the reads [outer_trajectory[outer_index]],
    [full_trajectory[subtraj_index]] and
    [inner_trajectory[inner_index]] are inside their arrays. *)
Theorem X18_indices_in_range (evs : list (Event fl)) :
  optimizer_within_space ->
  1 <= OUTER_TRAJECTORY_LENGTH <= 256 ->
  0 <= INNER_TRAJECTORY_LENGTH <= INNER_TRAJECTORY_SPACE ->
  1 <= INNER_TRAJECTORY_SPACE ->
  let st := run evs initial_state in
  0 <= outer_index st < OUTER_TRAJECTORY_LENGTH /\
  0 <= subtraj_index st < OUTER_TRAJECTORY_LENGTH /\
  0 <= inner_index st < INNER_TRAJECTORY_SPACE /\
  forall k, 0 <= size (segment st k) <= INNER_TRAJECTORY_SPACE.
Proof.
  intros Hopt Hlen Hinner Hspace. cbv zeta.
  change (indices_in_range (run evs initial_state)).
  apply (fold_left_invariant step indices_in_range).
  - intros s ev. apply step_indices_in_range; assumption.
  - unfold indices_in_range, initial_state. norm_state.
    split; [lia |]. split; [lia |]. split; [lia |].
    intros k. unfold segment. norm_state.
    match goal with
    | |- context [arr_get ?d (replicate ?n ?v) k] =>
        destruct (arr_get_replicate d v n k) as [-> | ->]
    end; cbn [size zero_segment]; lia.
Qed.

(** *** The state machine: arrival at an outer waypoint, with its rebuild *)

(** The state in which the block under [if (mse_outer < 0.5)] calls
    [updateTrajectory], global by global. *)
Lemma periodic_outer_state (st : State fl) :
  fltb (mse_outer st) f_half = true ->
  exists before,
    periodic_outer st =
      set_trajectory_updated (fst (updateTrajectory (subtraj_index before) before))
        (snd (updateTrajectory (subtraj_index before) before)) /\
    outer_index before =
      (if outer_index st <? OUTER_TRAJECTORY_LENGTH - 1
       then to_u8 (outer_index st + 1) else 0) /\
    subtraj_index before =
      (if outer_index st <? OUTER_TRAJECTORY_LENGTH - 1
       then to_u8 (to_u8 (outer_index st + 1) - 1)
       else to_u8 (OUTER_TRAJECTORY_LENGTH - 1)) /\
    inner_index before = 0 /\
    outer_trajectory before = outer_trajectory st /\
    full_trajectory before = full_trajectory st /\
    obstacle_map before = obstacle_map st /\
    n_obstacles before = n_obstacles st /\
    nav_log before =
      nav_log st ++
      [waypoint_move_xy_i WP_OUTER
         (x (arr_get zero_coor (outer_trajectory st) (outer_index before)))
         (y (arr_get zero_coor (outer_trajectory st) (outer_index before)))].
Proof.
  intros Hlt. unfold periodic_outer. rewrite Hlt.
  destruct (outer_index st <? OUTER_TRAJECTORY_LENGTH - 1); cbv zeta;
    (eexists; split; [reflexivity |]);
    unfold moveWaypointNext, moveWaypoint; norm_state; repeat split.
Qed.

(** The block under [if (mse_outer < 0.5)], taken: the indices, the move of
    the outer waypoint, and the rebuild as a call of [updateTrajectory] on
    the state the block is entered in, with [subtraj_index] advanced. *)
Lemma periodic_outer_rebuild (st : State fl) :
  fltb (mse_outer st) f_half = true ->
  let oi :=
    if outer_index st <? OUTER_TRAJECTORY_LENGTH - 1
    then to_u8 (outer_index st + 1) else 0 in
  let k :=
    if outer_index st <? OUTER_TRAJECTORY_LENGTH - 1
    then to_u8 (to_u8 (outer_index st + 1) - 1)
    else to_u8 (OUTER_TRAJECTORY_LENGTH - 1) in
  let st' := periodic_outer st in
  outer_index st' = oi /\ subtraj_index st' = k /\ inner_index st' = 0 /\
  outer_trajectory st' = outer_trajectory st /\
  nav_log st' =
    nav_log st ++
    [waypoint_move_xy_i WP_OUTER
       (x (arr_get zero_coor (outer_trajectory st) oi))
       (y (arr_get zero_coor (outer_trajectory st) oi))] /\
  trajectory_updated st' = fst (updateTrajectory k (set_subtraj_index k st)) /\
  full_trajectory st' = full_trajectory (snd (updateTrajectory k (set_subtraj_index k st))).
Proof.
  intros Hlt. cbv zeta.
  destruct (periodic_outer_state st Hlt)
    as (before & -> & Ho & Hs & Hi & Hot & Hft & Hm & Hn & Hlog).
  pose proof (updateTrajectory_keeps (subtraj_index before) before) as Hk.
  cbv zeta in Hk.
  destruct Hk as (_ & _ & Ko & Ki & Ks & _ & _ & _ & _ & Kot & _ & Klog).
  assert (Hreads : full_trajectory (snd (updateTrajectory (subtraj_index before) before)) =
                   full_trajectory
                     (snd (updateTrajectory (subtraj_index before)
                             (set_subtraj_index (subtraj_index before) st)))).
  { apply updateTrajectory_reads; assumption || reflexivity. }
  set (s' := snd (updateTrajectory (subtraj_index before) before)) in *. clearbody s'.
  norm_state. rewrite Ko, Ki, Ks, Kot, Klog, Hlog, Hreads, Ho, Hs, Hi, Hot.
  repeat split.
Qed.

(** C3. On a tick on which [mse_outer < 0.5]: an [outer_index] below
    [OUTER_TRAJECTORY_LENGTH-1] is incremented and [subtraj_index] becomes
    the new [outer_index] minus 1; an [outer_index] equal to
    [OUTER_TRAJECTORY_LENGTH-1] wraps to 0 and [subtraj_index] becomes
    [OUTER_TRAJECTORY_LENGTH-1]; [inner_index] is reset to 0; the outer
    waypoint is moved to the new outer point, after at most one move of
    the inner waypoint and before the final heading call; and
    [updateTrajectory] runs on the newly active segment, its boolean
    result becoming [trajectory_updated] and its full trajectory the full
    trajectory after the tick. The rebuild runs on [before]: the state
    [mid] the tick has reached after the setup, the arrival tests and the
    rebuild a changed map triggers, with [subtraj_index] advanced; it
    reads the obstacle map and the obstacle count the tick started with,
    and, when the setup has run and the map is clean, the full trajectory
    the tick started with. *)
Theorem C3_outer_advance (env : Env fl) (st : State fl) :
  fltb (checkWaypointArrival env WP_OUTER) f_half = true ->
  0 <= outer_index st < 256 ->
  1 <= OUTER_TRAJECTORY_LENGTH <= 256 ->
  let st' := orange_avoider_periodic env st in
  let mid := periodic_rebuild (periodic_arrival env (periodic_setup env st)) in
  let before := set_subtraj_index (subtraj_index st') mid in
  (outer_index st < OUTER_TRAJECTORY_LENGTH - 1 ->
     outer_index st' = outer_index st + 1 /\ subtraj_index st' = outer_index st' - 1) /\
  (outer_index st = OUTER_TRAJECTORY_LENGTH - 1 ->
     outer_index st' = 0 /\ subtraj_index st' = OUTER_TRAJECTORY_LENGTH - 1) /\
  inner_index st' = 0 /\
  (exists inner_moves,
     nav_log st' =
       nav_log st ++ inner_moves ++
       [waypoint_move_xy_i WP_OUTER
          (x (arr_get zero_coor (outer_trajectory st') (outer_index st')))
          (y (arr_get zero_coor (outer_trajectory st') (outer_index st')));
        NavGotoWaypointHeading WP_INNER] /\
     (inner_moves = [] \/ exists a b, inner_moves = [waypoint_move_xy_i WP_INNER a b])) /\
  trajectory_updated st' = fst (updateTrajectory (subtraj_index st') before) /\
  full_trajectory st' = full_trajectory (snd (updateTrajectory (subtraj_index st') before)) /\
  obstacle_map before = obstacle_map st /\
  n_obstacles before = n_obstacles st /\
  (initialized st = true -> obstacle_map_updated st = false ->
   full_trajectory before = full_trajectory st).
Proof.
  intros Hlt Hoi Hlen. cbv zeta. unfold orange_avoider_periodic. cbv zeta.
  set (s3 := periodic_rebuild _).
  assert (H3 : mse_outer s3 = checkWaypointArrival env WP_OUTER /\
               outer_index s3 = outer_index st /\ nav_log s3 = nav_log st /\
               obstacle_map s3 = obstacle_map st /\ n_obstacles s3 = n_obstacles st).
  { unfold s3. repeat split; frame; reflexivity. }
  destruct H3 as (Hm3 & Ho3 & Hlog3 & Hmap3 & Hn3).
  assert (Hclean : initialized st = true -> obstacle_map_updated st = false ->
                   full_trajectory s3 = full_trajectory st).
  { intros Hini Hc. unfold s3. rewrite (periodic_setup_done env st Hini).
    rewrite (periodic_rebuild_clean (periodic_arrival env st)) by exact Hc.
    reflexivity. }
  clearbody s3.
  pose proof (periodic_inner_keeps s3) as Hk. cbv zeta in Hk.
  destruct Hk as (Km & _ & Ko & Ks & _ & Kn & _ & _ & _ & Kft & Kmap).
  pose proof (periodic_inner_log s3) as Hlog4.
  set (s4 := periodic_inner s3) in *. clearbody s4.
  assert (Hlt4 : fltb (mse_outer s4) f_half = true) by (rewrite Km, Hm3; exact Hlt).
  pose proof (periodic_outer_rebuild s4 Hlt4) as H5. cbv zeta in H5.
  destruct H5 as (Ho5 & Hs5 & Hi5 & Hot5 & Hlog5 & Htu5 & Hft5).
  set (s5 := periodic_outer s4) in *. clearbody s5.
  norm_state. rewrite Ko, Ho3 in Ho5, Hs5, Hlog5, Htu5, Hft5.
  set (k := if outer_index st <? OUTER_TRAJECTORY_LENGTH - 1
            then to_u8 (to_u8 (outer_index st + 1) - 1)
            else to_u8 (OUTER_TRAJECTORY_LENGTH - 1)) in *.
  set (oi := if outer_index st <? OUTER_TRAJECTORY_LENGTH - 1
             then to_u8 (outer_index st + 1) else 0) in *.
  rewrite Hs5, Ho5, Hi5, Hot5.
  assert (Hreads : full_trajectory (snd (updateTrajectory k (set_subtraj_index k s4))) =
                   full_trajectory (snd (updateTrajectory k (set_subtraj_index k s3)))).
  { apply updateTrajectory_reads; norm_state; [exact Kmap | exact Kn | exact Kft | reflexivity]. }
  split; [| split; [| split; [| split; [| split; [| split; [| split; [| split]]]]]]].
  - intros Hbelow. unfold oi, k. apply Z.ltb_lt in Hbelow as E. rewrite E.
    rewrite (to_u8_small (outer_index st + 1)) by lia.
    replace (outer_index st + 1 - 1) with (outer_index st) by lia.
    rewrite to_u8_small by lia. split; lia.
  - intros Hlast. unfold oi, k.
    assert (E : (outer_index st <? OUTER_TRAJECTORY_LENGTH - 1) = false)
      by (apply Z.ltb_ge; lia).
    rewrite E. rewrite to_u8_small by lia. split; reflexivity.
  - reflexivity.
  - rewrite Hlog5.
    destruct Hlog4 as [-> | (a & b & ->)]; rewrite Hlog3.
    + exists []. rewrite <- !app_assoc. split; [reflexivity | left; reflexivity].
    + exists [waypoint_move_xy_i WP_INNER a b]. rewrite <- !app_assoc.
      split; [reflexivity | right; eexists _, _; reflexivity].
  - rewrite Htu5. reflexivity.
  - rewrite Hft5. exact Hreads.
  - exact Hmap3.
  - exact Hn3.
  - exact Hclean.
Qed.

End Properties.

(** ** The properties on the examples *)

(** Evaluates a closed statement about the examples. *)
Ltac concrete :=
  vm_compute; repeat split; first [reflexivity | discriminate | (intro; discriminate)].

Section KeepSeedExamples.
#[local] Existing Instance IEEE.ops.
#[local] Existing Instance Example.cfg.

Lemma example_storage_wf
    (optimizer : list Obstacle -> list EnuCoor_i -> Z -> Z -> OptimizedTrajectory * Z)
    (st : State spec_float) :
  length (outer_trajectory st) = 3%nat ->
  map (fun seg => length (inner_trajectory seg)) (full_trajectory st) = [6; 6; 6]%nat ->
  @storage_wf spec_float (Example.config optimizer) st.
Proof.
  intros Ho Hf.
  assert (Hlen : length (full_trajectory st) = 3%nat).
  { rewrite <- (length_map (fun seg => length (inner_trajectory seg))), Hf. reflexivity. }
  repeat split.
  - rewrite Ho. reflexivity.
  - rewrite Hlen. reflexivity.
  - intros k Hk. change (0 <= k < 3) in Hk. unfold segment, arr_get.
    destruct (full_trajectory st) as [| s0 [| s1 [| s2 [| s3 l]]]]; try discriminate.
    injection Hf as H0 H1 H2.
    assert (Hc : k = 0 \/ k = 1 \/ k = 2) by lia.
    destruct Hc as [-> | [-> | ->]].
    + change (Z.of_nat (length (inner_trajectory s0)) = 6). rewrite H0. reflexivity.
    + change (Z.of_nat (length (inner_trajectory s1)) = 6). rewrite H1. reflexivity.
    + change (Z.of_nat (length (inner_trajectory s2)) = 6). rewrite H2. reflexivity.
Qed.

(** On the map that holds one obstacle at (0, 3): the position (0, 3) is
    rejected, and the position (0, 10) is stored as the second obstacle. *)
Lemma C1_tryInsert_witness :
  map_wf Example.one_obstacle /\
  MAX_OBSTACLES_IN_MAP <= 255 /\
  already_present Example.one_obstacle 0 3 /\
  tryInsert 0 3 Example.one_obstacle = (false, Example.one_obstacle) /\
  ~ already_present Example.one_obstacle 0 10 /\
  n_obstacles Example.one_obstacle < MAX_OBSTACLES_IN_MAP /\
  fst (tryInsert 0 10 Example.one_obstacle) = true /\
  n_obstacles (snd (tryInsert 0 10 Example.one_obstacle)) =
    n_obstacles Example.one_obstacle + 1.
Proof.
  assert (Hwf : map_wf Example.one_obstacle) by concrete.
  assert (Hmax : MAX_OBSTACLES_IN_MAP <= 255) by concrete.
  assert (Hp : already_present Example.one_obstacle 0 3).
  { exists 0. split; [concrete | left; vm_compute; reflexivity]. }
  assert (Hnp : ~ already_present Example.one_obstacle 0 10).
  { intros (i & Hi & Hd). change (0 <= i < 1) in Hi.
    assert (i = 0) as -> by lia. vm_compute in Hd. destruct Hd; discriminate. }
  assert (Hlt : n_obstacles Example.one_obstacle < MAX_OBSTACLES_IN_MAP) by concrete.
  destruct (C1_tryInsert Example.one_obstacle 0 3 Hwf Hmax) as [Hrej _].
  destruct (C1_tryInsert Example.one_obstacle 0 10 Hwf Hmax) as [_ Hacc].
  destruct (Hacc Hnp Hlt) as (H1 & H2 & _).
  repeat split; auto.
Defined.

(** On the state after the first tick, a rebuild of segment 0 with the
    optimizer that keeps the seed: size 4, and slot 5 holds (0,0). *)
Lemma C2_updateTrajectory_witness :
  0 <= 0 < Z.of_nat (length (full_trajectory Example.running)) /\
  0 <= subtraj_index Example.running <
    Z.of_nat (length (full_trajectory Example.running)) /\
  Z.of_nat
    (length (inner_trajectory (segment Example.running (subtraj_index Example.running)))) =
    INNER_TRAJECTORY_SPACE /\
  fst (updateTrajectory 0 Example.running) = true /\
  size (segment (snd (updateTrajectory 0 Example.running)) 0) = 4 /\
  arr_get zero_coor
    (inner_trajectory (segment (snd (updateTrajectory 0 Example.running)) 0)) 5 = zero_coor.
Proof.
  assert (H1 : 0 <= 0 < Z.of_nat (length (full_trajectory Example.running))) by concrete.
  assert (H2 : 0 <= subtraj_index Example.running <
               Z.of_nat (length (full_trajectory Example.running))) by concrete.
  assert (H3 : Z.of_nat
                 (length (inner_trajectory
                            (segment Example.running (subtraj_index Example.running)))) =
               INNER_TRAJECTORY_SPACE) by concrete.
  assert (H4 : 4 <= 5 < 6) by concrete.
  destruct (C2_updateTrajectory 0 Example.running H1 H2 H3) as (Ht & Hs & _ & _ & Hz).
  exact (conj H1 (conj H2 (conj H3 (conj Ht (conj Hs (Hz 5 H4)))))).
Defined.

(** On the state after the first tick, the tick that reaches the outer
    waypoint at (2, 2) takes [outer_index] from 1 to 2 and rebuilds
    segment 1 from the full trajectory and the map it started with. *)
Lemma C3_outer_advance_witness :
  fltb (checkWaypointArrival Example.at_outer_waypoint WP_OUTER) f_half = true /\
  0 <= outer_index Example.running < 256 /\
  1 <= OUTER_TRAJECTORY_LENGTH <= 256 /\
  outer_index Example.running < OUTER_TRAJECTORY_LENGTH - 1 /\
  initialized Example.running = true /\
  obstacle_map_updated Example.running = false /\
  outer_index (orange_avoider_periodic Example.at_outer_waypoint Example.running) =
    outer_index Example.running + 1 /\
  subtraj_index (orange_avoider_periodic Example.at_outer_waypoint Example.running) =
    outer_index (orange_avoider_periodic Example.at_outer_waypoint Example.running) - 1 /\
  inner_index (orange_avoider_periodic Example.at_outer_waypoint Example.running) = 0 /\
  full_trajectory (orange_avoider_periodic Example.at_outer_waypoint Example.running) =
    full_trajectory
      (snd (updateTrajectory
              (subtraj_index
                 (orange_avoider_periodic Example.at_outer_waypoint Example.running))
              (set_subtraj_index
                 (subtraj_index
                    (orange_avoider_periodic Example.at_outer_waypoint Example.running))
                 (periodic_rebuild
                    (periodic_arrival Example.at_outer_waypoint
                       (periodic_setup Example.at_outer_waypoint Example.running)))))) /\
  full_trajectory
    (set_subtraj_index
       (subtraj_index (orange_avoider_periodic Example.at_outer_waypoint Example.running))
       (periodic_rebuild
          (periodic_arrival Example.at_outer_waypoint
             (periodic_setup Example.at_outer_waypoint Example.running)))) =
    full_trajectory Example.running.
Proof.
  assert (H1 : fltb (checkWaypointArrival Example.at_outer_waypoint WP_OUTER) f_half = true)
    by concrete.
  assert (H2 : 0 <= outer_index Example.running < 256) by concrete.
  assert (H3 : 1 <= OUTER_TRAJECTORY_LENGTH <= 256) by concrete.
  assert (H4 : outer_index Example.running < OUTER_TRAJECTORY_LENGTH - 1) by concrete.
  assert (H5 : initialized Example.running = true) by concrete.
  assert (H6 : obstacle_map_updated Example.running = false) by concrete.
  destruct (C3_outer_advance Example.at_outer_waypoint Example.running H1 H2 H3)
    as (Hbelow & _ & Hinner & _ & _ & Hft & _ & _ & Hseed).
  destruct (Hbelow H4) as [Ho Hs].
  exact (conj H1 (conj H2 (conj H3 (conj H4 (conj H5 (conj H6 (conj Ho (conj Hs
           (conj Hinner (conj Hft (Hseed H5 H6))))))))))).
Defined.

(** Three detections at distances 3, 10 and 20 with room for two obstacles:
    the map is full after the events, and a further detection changes
    nothing. *)
Lemma C4_capacity_witness :
  0 <= MAX_OBSTACLES_IN_MAP /\
  n_obstacles (run Example.filling initial_state) <= MAX_OBSTACLES_IN_MAP /\
  n_obstacles (run Example.filling initial_state) = MAX_OBSTACLES_IN_MAP /\
  fst (color_detection_cb Example.at_waypoints (Example.message [30])
         (run Example.filling initial_state)) =
    run Example.filling initial_state.
Proof.
  assert (H1 : 0 <= MAX_OBSTACLES_IN_MAP) by concrete.
  assert (H2 : n_obstacles (run Example.filling initial_state) = MAX_OBSTACLES_IN_MAP)
    by concrete.
  destruct (C4_capacity Example.filling H1) as (Hle & _ & Hfull).
  exact (conj H1 (conj Hle (conj H2
           (Hfull H2 Example.at_waypoints (Example.message [30]))))).
Defined.

(** A detection at distance 0 seen from (0, 3/4): the obstacle is stored at
    the integer part of 3/4 + 1/2, which is 1 and not 0. *)
Lemma C5_ingestion_witness :
  0 <= msg_size (Example.message [0; 3]) <=
    Z.of_nat (length (obstacles (Example.message [0; 3]))) /\
  map_wf Example.start /\
  MAX_OBSTACLES_IN_MAP <= 255 /\
  n_obstacles (spec_ingest Example.off_grid Example.start (Example.ahead 0)) <>
    n_obstacles Example.start /\
  fst (color_detection_cb Example.off_grid (Example.message [0; 3]) Example.start) =
    fold_left (spec_ingest Example.off_grid)
      (take (Z.to_nat (msg_size (Example.message [0; 3])))
         (obstacles (Example.message [0; 3]))) Example.start /\
  obstacle_map (spec_ingest Example.off_grid Example.start (Example.ahead 0)) !!
    Z.to_nat (n_obstacles Example.start) =
    Some {| loc := {| x := 0; y := 1 |} |}.
Proof.
  assert (H1 : 0 <= msg_size (Example.message [0; 3]) <=
               Z.of_nat (length (obstacles (Example.message [0; 3])))) by concrete.
  assert (H2 : map_wf Example.start) by concrete.
  assert (H3 : MAX_OBSTACLES_IN_MAP <= 255) by concrete.
  assert (H4 : n_obstacles (spec_ingest Example.off_grid Example.start (Example.ahead 0)) <>
               n_obstacles Example.start) by concrete.
  destruct (C5_ingestion Example.off_grid (Example.message [0; 3]) Example.start H1)
    as [Hfold Hstored].
  destruct (Hstored Example.start (Example.ahead 0) H2 H3 H4) as [_ Hslot].
  exact (conj H1 (conj H2 (conj H3 (conj H4 (conj Hfold Hslot))))).
Defined.


(** A tick that reaches the inner waypoint only, on the first segment. *)
Lemma C8_indices_step_witness :
  1 <= OUTER_TRAJECTORY_LENGTH <= 256 /\
  0 <= outer_index Example.on_segment /\
  0 <= inner_index Example.on_segment < 255 /\
  fltb (checkWaypointArrival Example.at_inner_waypoint WP_OUTER) f_half = false /\
  outer_index (orange_avoider_periodic Example.at_inner_waypoint Example.on_segment) =
    outer_index Example.on_segment /\
  (inner_index (orange_avoider_periodic Example.at_inner_waypoint Example.on_segment) =
     inner_index Example.on_segment \/
   inner_index (orange_avoider_periodic Example.at_inner_waypoint Example.on_segment) =
     inner_index Example.on_segment + 1).
Proof.
  assert (H1 : 1 <= OUTER_TRAJECTORY_LENGTH <= 256) by concrete.
  assert (H2 : 0 <= outer_index Example.on_segment) by concrete.
  assert (H3 : 0 <= inner_index Example.on_segment < 255) by concrete.
  assert (H4 : fltb (checkWaypointArrival Example.at_inner_waypoint WP_OUTER) f_half = false)
    by concrete.
  pose proof (C8_indices_step Example.at_inner_waypoint Example.on_segment H1 H2 H3) as H.
  cbv zeta in H. rewrite H4 in H.
  exact (conj H1 (conj H2 (conj H3 (conj H4 H)))).
Defined.

(** A detection, the first tick at (0, 3/4), and a second tick. *)
Lemma C9_outer_trajectory_witness :
  1 <= OUTER_TRAJECTORY_LENGTH <= 5 /\
  Forall is_detection [Detection Example.at_waypoints (Example.message [3])] /\
  initialized
    (run ([Detection Example.at_waypoints (Example.message [3])] ++
          Tick Example.off_grid :: [Tick Example.at_inner_waypoint]) initial_state) = true /\
  arr_get zero_coor
    (outer_trajectory
       (run ([Detection Example.at_waypoints (Example.message [3])] ++
             Tick Example.off_grid :: [Tick Example.at_inner_waypoint]) initial_state)) 0 =
    {| x := POS_BFP_OF_REAL (GetPosX Example.off_grid);
       y := POS_BFP_OF_REAL (GetPosY Example.off_grid) |}.
Proof.
  assert (H1 : 1 <= OUTER_TRAJECTORY_LENGTH <= 5) by concrete.
  assert (H2 : Forall is_detection [Detection Example.at_waypoints (Example.message [3])])
    by (repeat constructor).
  destruct (C9_outer_trajectory [Detection Example.at_waypoints (Example.message [3])]
              [Tick Example.at_inner_waypoint] Example.off_grid H1 H2)
    as (Hini & _ & Hfirst & _).
  exact (conj H1 (conj H2 (conj Hini Hfirst))).
Defined.

(** The first observation of a message, reported at distance 0. *)
Lemma C10_message_written_back_witness :
  obstacles Example.short_message !! 0%nat = Some (Example.ahead 0) /\
  exists o',
    obstacles (snd (color_detection_cb Example.at_waypoints Example.short_message
                      Example.start)) !! 0%nat = Some o' /\
    left_heading o' = left_heading (Example.ahead 0) /\
    right_heading o' = right_heading (Example.ahead 0) /\
    distance o' = f_half.
Proof.
  assert (H1 : obstacles Example.short_message !! 0%nat = Some (Example.ahead 0))
    by reflexivity.
  destruct (C10_message_written_back Example.at_waypoints Example.short_message
              Example.start) as (_ & _ & Hobs).
  destruct (Hobs 0%nat (Example.ahead 0) H1) as (o' & Ho & Hl & Hr & Hd).
  split; [exact H1 |]. exists o'.
  exact (conj Ho (conj Hl (conj Hr Hd))).
Defined.

(** C8 fails as stated. On the first segment [inner_index] has advanced to
    1, and the tick that reaches the outer waypoint at (2, 2) lowers it to
    0 while it raises [outer_index] to 2, the last index; the tick that
    reaches the outer waypoint at (2, -2) then lowers [outer_index] to 0. *)
Lemma C8_counterexample :
  initialized Example.on_segment = true /\
  inner_index Example.on_segment = 1 /\
  inner_index (orange_avoider_periodic Example.at_outer_waypoint Example.on_segment) = 0 /\
  initialized Example.at_last = true /\
  outer_index Example.at_last = 2 /\
  outer_index (orange_avoider_periodic Example.at_last_waypoint Example.at_last) = 0.
Proof. vm_compute. repeat split. Qed.

(** On the state after the first tick and a detection at distance 3, whose
    flag is set: a second detection at distance 3 is a duplicate, and the
    flag is still set after it. *)
Lemma X2_callback_raises_flag_witness :
  obstacle_map_updated Scenario.dirty = true /\
  obstacle_map_updated
    (fst (color_detection_cb Example.at_waypoints (Example.message [3]) Scenario.dirty)) =
    true.
Proof.
  assert (H1 : obstacle_map_updated Scenario.dirty = true) by concrete.
  destruct (X2_callback_raises_flag Example.at_waypoints (Example.message [3])
              Scenario.dirty) as [_ Hkeep].
  exact (conj H1 (Hkeep H1)).
Defined.

(** A message of two observations whose left heading is not a number. *)
Lemma X3_invalid_observations_dropped_witness :
  msg_size Scenario.blind_message <= Z.of_nat (length (obstacles Scenario.blind_message)) /\
  (forall o, o ∈ take (Z.to_nat (msg_size Scenario.blind_message))
                   (obstacles Scenario.blind_message) ->
     fgeb (observation_mse (used_observation o)) (f_of_int 0) = false) /\
  fst (color_detection_cb Example.at_waypoints Scenario.blind_message Example.start) =
    Example.start.
Proof.
  assert (H1 : msg_size Scenario.blind_message <=
               Z.of_nat (length (obstacles Scenario.blind_message))) by concrete.
  assert (H2 : forall o, o ∈ take (Z.to_nat (msg_size Scenario.blind_message))
                               (obstacles Scenario.blind_message) ->
               fgeb (observation_mse (used_observation o)) (f_of_int 0) = false).
  { intros o Ho. change (o ∈ [Scenario.blind; Scenario.blind]) in Ho.
    apply elem_of_cons in Ho as [-> | Ho]; [vm_compute; reflexivity |].
    apply elem_of_cons in Ho as [-> | Ho]; [vm_compute; reflexivity |].
    apply elem_of_nil in Ho. destruct Ho. }
  exact (conj H1 (conj H2
           (X3_invalid_observations_dropped Example.at_waypoints Scenario.blind_message
              Example.start H1 H2))).
Defined.

(** The first detection of a flight, at distance 3 straight ahead of the
    origin: it is stored at (0, 3). *)
Lemma X4_first_detection_stored_witness :
  n_obstacles Example.start = 0 /\
  1 <= MAX_OBSTACLES_IN_MAP <= 255 /\
  Z.of_nat (length (obstacle_map Example.start)) = MAX_OBSTACLES_IN_MAP /\
  1 <= msg_size (Example.message [3]) /\
  obstacles (Example.message [3]) !! 0%nat = Some (Example.ahead 3) /\
  fgeb (observation_mse (used_observation (Example.ahead 3))) (f_of_int 0) = true /\
  arr_get zero_obstacle
    (obstacle_map
       (fst (color_detection_cb Example.at_waypoints (Example.message [3]) Example.start)))
    0 =
    {| loc := absolute_position Example.at_waypoints (used_observation (Example.ahead 3)) |}.
Proof.
  assert (H1 : n_obstacles Example.start = 0) by concrete.
  assert (H2 : 1 <= MAX_OBSTACLES_IN_MAP <= 255) by concrete.
  assert (H3 : Z.of_nat (length (obstacle_map Example.start)) = MAX_OBSTACLES_IN_MAP)
    by concrete.
  assert (H4 : 1 <= msg_size (Example.message [3])) by concrete.
  assert (H5 : obstacles (Example.message [3]) !! 0%nat = Some (Example.ahead 3))
    by reflexivity.
  assert (H6 : fgeb (observation_mse (used_observation (Example.ahead 3))) (f_of_int 0) =
               true) by concrete.
  destruct (X4_first_detection_stored Example.at_waypoints (Example.message [3])
              Example.start (Example.ahead 3) H1 H2 H3 H4 H5 H6) as (_ & Hslot & _).
  exact (conj H1 (conj H2 (conj H3 (conj H4 (conj H5 (conj H6 Hslot)))))).
Defined.

(** On the empty map the position (0, 3) is stored, and the position
    (0, 3) is then rejected. *)
Lemma X5_nearby_insertion_rejected_witness :
  map_wf Example.start /\
  MAX_OBSTACLES_IN_MAP <= 255 /\
  fst (tryInsert 0 3 Example.start) = true /\
  fltb (obstacle_distance {| loc := {| x := 0; y := 3 |} |} 0 3) (f_of_int 1) = true /\
  tryInsert 0 3 (snd (tryInsert 0 3 Example.start)) =
    (false, snd (tryInsert 0 3 Example.start)).
Proof.
  assert (H1 : map_wf Example.start) by concrete.
  assert (H2 : MAX_OBSTACLES_IN_MAP <= 255) by concrete.
  assert (H3 : fst (tryInsert 0 3 Example.start) = true) by concrete.
  assert (H4 : fltb (obstacle_distance {| loc := {| x := 0; y := 3 |} |} 0 3) (f_of_int 1) =
               true) by concrete.
  exact (conj H1 (conj H2 (conj H3 (conj H4
           (X5_nearby_insertion_rejected Example.start 0 3 0 3 H1 H2 H3
              (or_introl H4)))))).
Defined.

(** From the map that holds one obstacle, over a tick and a detection at
    distance 10: slot 0 holds what it held. *)
Lemma X6_obstacles_kept_witness :
  map_wf Example.one_obstacle /\
  MAX_OBSTACLES_IN_MAP <= 255 /\
  0 <= 0 < n_obstacles Example.one_obstacle /\
  arr_get zero_obstacle
    (obstacle_map
       (run [Tick Example.at_waypoints;
             Detection Example.at_waypoints (Example.message [10])]
          Example.one_obstacle)) 0 =
    arr_get zero_obstacle (obstacle_map Example.one_obstacle) 0.
Proof.
  assert (H1 : map_wf Example.one_obstacle) by concrete.
  assert (H2 : MAX_OBSTACLES_IN_MAP <= 255) by concrete.
  assert (H3 : 0 <= 0 < n_obstacles Example.one_obstacle) by concrete.
  destruct (X6_obstacles_kept
              [Tick Example.at_waypoints;
               Detection Example.at_waypoints (Example.message [10])]
              Example.one_obstacle H1 H2) as [_ Hkeep].
  exact (conj H1 (conj H2 (conj H3 (Hkeep 0 H3)))).
Defined.

(** The two obstacles of the filled map. *)
Lemma X7_obstacles_stay_apart_witness :
  0 <= MAX_OBSTACLES_IN_MAP /\
  0 <= 0 < 1 /\
  1 < n_obstacles (run Example.filling initial_state) /\
  fltb
    (obstacle_distance
       (arr_get zero_obstacle (obstacle_map (run Example.filling initial_state)) 0)
       (x (loc (arr_get zero_obstacle (obstacle_map (run Example.filling initial_state)) 1)))
       (y (loc (arr_get zero_obstacle (obstacle_map (run Example.filling initial_state)) 1))))
    (f_of_int 1) = false.
Proof.
  assert (H1 : 0 <= MAX_OBSTACLES_IN_MAP) by concrete.
  assert (H2 : 0 <= 0 < 1) by lia.
  assert (H3 : 1 < n_obstacles (run Example.filling initial_state)) by concrete.
  destruct (X7_obstacles_stay_apart Example.filling H1 0 1 H2 H3) as [Hfar _].
  exact (conj H1 (conj H2 (conj H3 Hfar))).
Defined.

(** After the first tick, a tick on the way to both waypoints. *)
Lemma X10_idle_tick_witness :
  initialized Example.running = true /\
  obstacle_map_updated Example.running = false /\
  fltb (checkWaypointArrival Scenario.under_way WP_OUTER) f_half = false /\
  fltb (checkWaypointArrival Scenario.under_way WP_INNER) f_half = false /\
  orange_avoider_periodic Scenario.under_way Example.running =
  nav_call (NavGotoWaypointHeading WP_INNER)
    (set_mse_inner (checkWaypointArrival Scenario.under_way WP_INNER)
       (set_mse_outer (checkWaypointArrival Scenario.under_way WP_OUTER) Example.running)).
Proof.
  assert (H1 : initialized Example.running = true) by concrete.
  assert (H2 : obstacle_map_updated Example.running = false) by concrete.
  assert (H3 : fltb (checkWaypointArrival Scenario.under_way WP_OUTER) f_half = false)
    by concrete.
  assert (H4 : fltb (checkWaypointArrival Scenario.under_way WP_INNER) f_half = false)
    by concrete.
  exact (conj H1 (conj H2 (conj H3 (conj H4
           (X10_idle_tick Scenario.under_way Example.running H1 H2 H3 (or_introl H4)))))).
Defined.

(** After the first tick, the tick that reaches the inner waypoint:
    [inner_index] goes from 0 to 1. *)
Lemma X11_inner_arrival_witness :
  initialized Example.running = true /\
  obstacle_map_updated Example.running = false /\
  trajectory_updated Example.running = true /\
  fltb (checkWaypointArrival Example.at_inner_waypoint WP_INNER) f_half = true /\
  fltb (checkWaypointArrival Example.at_inner_waypoint WP_OUTER) f_half = false /\
  0 <= inner_index Example.running < 255 /\
  inner_index (orange_avoider_periodic Example.at_inner_waypoint Example.running) =
    (if inner_index Example.running <?
        size (segment Example.running (subtraj_index Example.running)) - 1
     then inner_index Example.running + 1 else inner_index Example.running).
Proof.
  assert (H1 : initialized Example.running = true) by concrete.
  assert (H2 : obstacle_map_updated Example.running = false) by concrete.
  assert (H3 : trajectory_updated Example.running = true) by concrete.
  assert (H4 : fltb (checkWaypointArrival Example.at_inner_waypoint WP_INNER) f_half = true)
    by concrete.
  assert (H5 : fltb (checkWaypointArrival Example.at_inner_waypoint WP_OUTER) f_half = false)
    by concrete.
  assert (H6 : 0 <= inner_index Example.running < 255) by concrete.
  destruct (X11_inner_arrival Example.at_inner_waypoint Example.running H1 H2 H3 H4 H5 H6)
    as (_ & Hidx & _).
  exact (conj H1 (conj H2 (conj H3 (conj H4 (conj H5 (conj H6 Hidx)))))).
Defined.

(** After the first tick and a detection, a tick on the way to both
    waypoints rebuilds the active segment and clears the flag. *)
Lemma X12_dirty_rebuild_witness :
  initialized Scenario.dirty = true /\
  obstacle_map_updated Scenario.dirty = true /\
  fltb (checkWaypointArrival Scenario.under_way WP_OUTER) f_half = false /\
  full_trajectory (orange_avoider_periodic Scenario.under_way Scenario.dirty) =
    full_trajectory (snd (updateTrajectory (subtraj_index Scenario.dirty) Scenario.dirty)) /\
  obstacle_map_updated (orange_avoider_periodic Scenario.under_way Scenario.dirty) = false.
Proof.
  assert (H1 : initialized Scenario.dirty = true) by concrete.
  assert (H2 : obstacle_map_updated Scenario.dirty = true) by concrete.
  assert (H3 : fltb (checkWaypointArrival Scenario.under_way WP_OUTER) f_half = false)
    by concrete.
  destruct (X12_dirty_rebuild Scenario.under_way Scenario.dirty H1 H2 H3)
    as (Hft & Hflag & _).
  exact (conj H1 (conj H2 (conj H3 (conj Hft Hflag)))).
Defined.

(** After the first tick the active segment is segment 0: a rebuild of it
    leaves segment 1 as it was. *)
Lemma X13_rebuild_other_segments_witness :
  1 <> subtraj_index Example.running /\
  1 <> 0 /\
  segment (snd (updateTrajectory 0 Example.running)) 1 = segment Example.running 1.
Proof.
  assert (H1 : 1 <> subtraj_index Example.running) by concrete.
  assert (H2 : 1 <> 0) by lia.
  destruct (X13_rebuild_other_segments 0 1 Example.running H1) as (_ & Hseg & _).
  exact (conj H1 (conj H2 (Hseg H2))).
Defined.

(** After the first tick, the tick that reaches the inner waypoint leaves
    segment 1 as it was. *)
Lemma X14_tick_other_segments_witness :
  initialized Example.running = true /\
  1 <> subtraj_index Example.running /\
  1 <> subtraj_index (orange_avoider_periodic Example.at_inner_waypoint Example.running) /\
  segment (orange_avoider_periodic Example.at_inner_waypoint Example.running) 1 =
    segment Example.running 1.
Proof.
  assert (H1 : initialized Example.running = true) by concrete.
  assert (H2 : 1 <> subtraj_index Example.running) by concrete.
  assert (H3 : 1 <> subtraj_index
                      (orange_avoider_periodic Example.at_inner_waypoint Example.running))
    by concrete.
  exact (conj H1 (conj H2 (conj H3
           (X14_tick_other_segments Example.at_inner_waypoint Example.running 1 H1 H2 H3)))).
Defined.

(** Slot 4 of segment 0, the first slot after the four inner points. *)
Lemma X15_setup_writes_prefix_witness :
  ~ 0 <= 4 < INNER_TRAJECTORY_LENGTH /\
  arr_get zero_coor
    (inner_trajectory (segment (periodic_init Example.at_waypoints Example.start) 0)) 4 =
  arr_get zero_coor (inner_trajectory (segment Example.start 0)) 4.
Proof.
  assert (H1 : ~ 0 <= 4 < INNER_TRAJECTORY_LENGTH).
  { change (~ 0 <= 4 < 4). lia. }
  exact (conj H1
           (proj1 (X15_setup_writes_prefix Example.at_waypoints Example.start 0 4 H1))).
Defined.

(** After the first tick, over a detection and a tick on the way. *)
Lemma X16_trajectory_updated_stays_witness :
  trajectory_updated Example.running = true /\
  trajectory_updated
    (run [Detection Example.at_waypoints (Example.message [3]); Tick Scenario.under_way]
       Example.running) = true.
Proof.
  assert (H1 : trajectory_updated Example.running = true) by concrete.
  destruct (X16_trajectory_updated_stays
              [Detection Example.at_waypoints (Example.message [3]); Tick Scenario.under_way]
              Example.running Scenario.under_way) as [_ Hstay].
  exact (conj H1 (Hstay H1)).
Defined.

(** The flight of the examples: after it [outer_index] is 2 and the active
    segment is segment 1. *)
Lemma X17_first_arrival_witness :
  1 <= OUTER_TRAJECTORY_LENGTH <= 256 /\
  trajectory_updated (run Scenario.flight initial_state) = true /\
  ((trajectory_updated (run Scenario.flight initial_state) = false /\
    outer_index (run Scenario.flight initial_state) = 0 /\
    subtraj_index (run Scenario.flight initial_state) = 0 /\
    inner_index (run Scenario.flight initial_state) = 0 /\
    Forall is_heading_call (nav_log (run Scenario.flight initial_state))) \/
   (trajectory_updated (run Scenario.flight initial_state) = true /\
    0 <= outer_index (run Scenario.flight initial_state) < OUTER_TRAJECTORY_LENGTH /\
    subtraj_index (run Scenario.flight initial_state) =
      (outer_index (run Scenario.flight initial_state) - 1) mod OUTER_TRAJECTORY_LENGTH)).
Proof.
  assert (H1 : 1 <= OUTER_TRAJECTORY_LENGTH <= 256) by concrete.
  assert (H2 : trajectory_updated (run Scenario.flight initial_state) = true) by concrete.
  exact (conj H1 (conj H2 (X17_first_arrival Scenario.flight H1))).
Defined.

(** A message of two detections on the empty map. *)
Lemma X19_batch_bound_witness :
  map_wf Example.start /\
  MAX_OBSTACLES_IN_MAP <= 255 /\
  n_obstacles Example.start <=
    n_obstacles
      (fst (color_detection_cb Example.at_waypoints (Example.message [3; 10])
              Example.start)) <=
    n_obstacles Example.start + Z.max 0 (msg_size (Example.message [3; 10])).
Proof.
  assert (H1 : map_wf Example.start) by concrete.
  assert (H2 : MAX_OBSTACLES_IN_MAP <= 255) by concrete.
  exact (conj H1 (conj H2
           (X19_batch_bound Example.at_waypoints (Example.message [3; 10])
              Example.start H1 H2))).
Defined.


(** C9 fails as stated. With the first tick at (5,5) the outer trajectory
    is (5,5), (2,2), (2,-2), and with the first tick at the origin it is
    (0,0), (2,2), (2,-2): the second point is the same for both, so no
    fixed offset added to the first point gives it. *)
Lemma C9_counterexample :
  let at0 := run [Tick Example.at_waypoints] initial_state in
  let at5 := run [Tick (Scenario.start_at 5 5)] initial_state in
  map (arr_get zero_coor (outer_trajectory at5)) [0; 1; 2] =
    [{| x := 5; y := 5 |}; {| x := 2; y := 2 |}; {| x := 2; y := -2 |}] /\
  map (arr_get zero_coor (outer_trajectory at0)) [0; 1; 2] =
    [{| x := 0; y := 0 |}; {| x := 2; y := 2 |}; {| x := 2; y := -2 |}] /\
  ~ exists dx dy : Z,
      (x (arr_get zero_coor (outer_trajectory at0) 1) =
         x (arr_get zero_coor (outer_trajectory at0) 0) + dx /\
       y (arr_get zero_coor (outer_trajectory at0) 1) =
         y (arr_get zero_coor (outer_trajectory at0) 0) + dy) /\
      (x (arr_get zero_coor (outer_trajectory at5) 1) =
         x (arr_get zero_coor (outer_trajectory at5) 0) + dx /\
       y (arr_get zero_coor (outer_trajectory at5) 1) =
         y (arr_get zero_coor (outer_trajectory at5) 0) + dy).
Proof.
  cbv zeta. split; [vm_compute; reflexivity |]. split; [vm_compute; reflexivity |].
  intros (dx & dy & [H0 _] & [H5 _]).
  change (x (arr_get zero_coor
               (outer_trajectory (run [Tick Example.at_waypoints] initial_state)) 1))
    with 2 in H0.
  change (x (arr_get zero_coor
               (outer_trajectory (run [Tick Example.at_waypoints] initial_state)) 0))
    with 0 in H0.
  change (x (arr_get zero_coor
               (outer_trajectory (run [Tick (Scenario.start_at 5 5)] initial_state)) 1))
    with 2 in H5.
  change (x (arr_get zero_coor
               (outer_trajectory (run [Tick (Scenario.start_at 5 5)] initial_state)) 0))
    with 5 in H5.
  lia.
Qed.

End KeepSeedExamples.

Section DegenerateExamples.
#[local] Existing Instance IEEE.ops.
#[local] Existing Instance Example.cfg0.



(** With the optimizer that returns the empty result, over the flight of
    the examples. *)
Lemma X18_indices_in_range_witness :
  optimizer_within_space /\
  1 <= OUTER_TRAJECTORY_LENGTH <= 256 /\
  0 <= INNER_TRAJECTORY_LENGTH <= INNER_TRAJECTORY_SPACE /\
  1 <= INNER_TRAJECTORY_SPACE /\
  0 <= outer_index (run Scenario.flight initial_state) < OUTER_TRAJECTORY_LENGTH /\
  0 <= subtraj_index (run Scenario.flight initial_state) < OUTER_TRAJECTORY_LENGTH /\
  0 <= inner_index (run Scenario.flight initial_state) < INNER_TRAJECTORY_SPACE.
Proof.
  assert (H1 : optimizer_within_space) by (intros m t sz n; vm_compute; discriminate).
  assert (H2 : 1 <= OUTER_TRAJECTORY_LENGTH <= 256) by concrete.
  assert (H3 : 0 <= INNER_TRAJECTORY_LENGTH <= INNER_TRAJECTORY_SPACE) by concrete.
  assert (H4 : 1 <= INNER_TRAJECTORY_SPACE) by concrete.
  destruct (X18_indices_in_range Scenario.flight H1 H2 H3 H4) as (Ho & Hs & Hi & _).
  exact (conj H1 (conj H2 (conj H3 (conj H4 (conj Ho (conj Hs Hi)))))).
Defined.

End DegenerateExamples.
